(** * A bounded-depth, same-origin web crawler (pc.py): shallow embedding

    The development embeds [AdvancedWebCrawler] of [pc.py]:
    - [PyStr]: the [str] methods the crawler and its libraries call;
    - [Urllib]: [urllib.parse] ([urlparse], [urlunparse], [urljoin]) as in
      CPython 3.11, which the crawler imports;
    - [Re]: a backtracking matcher for the regular expressions of the source
      and [re.findall];
    - [Time]: which values [time.sleep] refuses, as in CPython 3.11;
    - [Crawler]: the class itself: [normalize_url], [is_valid_link],
      [extract_links], [find_potential_paths], [fetch_url], [crawl] and
      [_threaded_crawl], the latter as a step relation over the queue and
      the worker pool, with one deterministic schedule to run it;
    - [Examples]: a three-page site and two pages used as concrete inputs.

    The facts that follow are about strings, URL parsing, link extraction
    and the invariant of the crawl loop; the properties of the
    specification come last, one theorem for each.

    Python [str] values are modelled as [string], one [ascii] per code point;
    the model therefore covers text whose code points are below 256.
    Python [int] is [Z] and Python [float] the binary64 [float].  Time
    stamps, the time a request or a sleep takes and console output are not
    part of the state. *)

From Stdlib Require Import PrimFloat.
From Stdlib Require Import ZArith Ascii String List Lia Bool Permutation.
From stdpp Require Import base option list gmap sets strings relations.

(* A decimal [float] literal such as [0.2] denotes the nearest binary64
   value, as it does in Python. *)
Set Warnings "-inexact-float".

Local Open Scope string_scope.
Local Open Scope nat_scope.
Local Open Scope list_scope.

(** ** Python's [str] methods *)

Module PyStr.

Definition ord (c : ascii) : nat := nat_of_ascii c.

(** [c in s] for a one-character [c]. *)
Fixpoint contains (c : ascii) (s : string) : bool :=
  match s with
  | EmptyString => false
  | String a s' => Ascii.eqb a c || contains c s'
  end.

(** [s.partition(c)]: [Some (s[:i], s[i+1:])] where [i = s.find(c)], and
    [None] when [c] does not occur ([s.find(c) == -1]). *)
Fixpoint partition (c : ascii) (s : string) : option (string * string) :=
  match s with
  | EmptyString => None
  | String a s' =>
      if Ascii.eqb a c then Some (EmptyString, s')
      else match partition c s' with
           | Some (l, r) => Some (String a l, r)
           | None => None
           end
  end.

(** [s.rpartition(c)], splitting at the last occurrence. *)
Fixpoint rpartition (c : ascii) (s : string) : option (string * string) :=
  match s with
  | EmptyString => None
  | String a s' =>
      match rpartition c s' with
      | Some (l, r) => Some (String a l, r)
      | None => if Ascii.eqb a c then Some (EmptyString, s') else None
      end
  end.

(** [s.split(c)[0]]. *)
Definition before (c : ascii) (s : string) : string :=
  match partition c s with
  | Some (l, _) => l
  | None => s
  end.

(** [s.split(c)]; the result is never empty. *)
Fixpoint split (c : ascii) (s : string) : list string :=
  match s with
  | EmptyString => [EmptyString]
  | String a s' =>
      if Ascii.eqb a c then EmptyString :: split c s'
      else match split c s' with
           | h :: t => String a h :: t
           | [] => [String a EmptyString]
           end
  end.

(** [c.join(l)]. *)
Fixpoint join (c : ascii) (l : list string) : string :=
  match l with
  | [] => EmptyString
  | [x] => x
  | x :: l' => x +:+ String c (join c l')
  end.

(** [s.lstrip(chars)] and [s.rstrip(chars)], [chars] given as a predicate. *)
Fixpoint lstrip (p : ascii -> bool) (s : string) : string :=
  match s with
  | EmptyString => EmptyString
  | String a s' => if p a then lstrip p s' else s
  end.

Fixpoint rstrip (p : ascii -> bool) (s : string) : string :=
  match s with
  | EmptyString => EmptyString
  | String a s' =>
      match rstrip p s' with
      | EmptyString => if p a then EmptyString else String a EmptyString
      | r => String a r
      end
  end.

Definition is_char (c : ascii) : ascii -> bool := fun a => Ascii.eqb a c.

(** [str.isspace] on code points below 256. *)
Definition isspace (a : ascii) : bool :=
  let n := ord a in
  ((9 <=? n) && (n <=? 13)) || ((28 <=? n) && (n <=? 32))
  || (n =? 133) || (n =? 160).

(** [s.strip()]. *)
Definition strip (s : string) : string := rstrip isspace (lstrip isspace s).

(** [str.lower] on code points below 256: the ASCII capitals and the
    Latin-1 capitals 0xC0..0xDE other than the multiplication sign. *)
Definition lower_char (a : ascii) : ascii :=
  let n := ord a in
  if ((65 <=? n) && (n <=? 90))
     || ((192 <=? n) && (n <=? 222) && negb (n =? 215))
  then ascii_of_nat (n + 32) else a.

Fixpoint lower (s : string) : string :=
  match s with
  | EmptyString => EmptyString
  | String a s' => String (lower_char a) (lower s')
  end.

(** [s.replace(c, '')]: every character satisfying [p] is dropped. *)
Fixpoint remove (p : ascii -> bool) (s : string) : string :=
  match s with
  | EmptyString => EmptyString
  | String a s' => if p a then remove p s' else String a (remove p s')
  end.

Fixpoint all (p : ascii -> bool) (s : string) : bool :=
  match s with
  | EmptyString => true
  | String a s' => p a && all p s'
  end.

Fixpoint startswith (pre s : string) : bool :=
  match pre, s with
  | EmptyString, _ => true
  | String a pre', String b s' => Ascii.eqb a b && startswith pre' s'
  | String _ _, EmptyString => false
  end.

Fixpoint endswith (suf s : string) : bool :=
  String.eqb s suf
  || match s with
     | EmptyString => false
     | String _ s' => endswith suf s'
     end.

(** Truth value of a string: [not s] is [is_empty s]. *)
Definition is_empty (s : string) : bool :=
  match s with EmptyString => true | _ => false end.

(** [s[n:]]. *)
Fixpoint drop (n : nat) (s : string) : string :=
  match n, s with
  | O, _ => s
  | S n', String _ s' => drop n' s'
  | S _, EmptyString => EmptyString
  end.

(** The longest prefix of [s] whose characters all fail [p], and the rest. *)
Fixpoint span_until (p : ascii -> bool) (s : string) : string * string :=
  match s with
  | EmptyString => (EmptyString, EmptyString)
  | String a s' =>
      if p a then (EmptyString, s)
      else let '(l, r) := span_until p s' in (String a l, r)
  end.

Definition isdigit (a : ascii) : bool := (48 <=? ord a) && (ord a <=? 57).
Definition isupper (a : ascii) : bool := (65 <=? ord a) && (ord a <=? 90).
Definition islower (a : ascii) : bool := (97 <=? ord a) && (ord a <=? 122).
(** [c.isascii() and c.isalpha()]. *)
Definition isalpha (a : ascii) : bool := isupper a || islower a.
Definition ishex (a : ascii) : bool :=
  isdigit a || ((65 <=? ord a) && (ord a <=? 70))
  || ((97 <=? ord a) && (ord a <=? 102)).

Definition mem (s : string) (l : list string) : bool :=
  existsb (String.eqb s) l.

End PyStr.

(** Results of calls that may raise: [Raise msg] stands for a raised
    exception (for [urllib.parse], a [ValueError]). *)
Inductive result (A : Type) : Type :=
| Ok (a : A)
| Raise (msg : string).
Arguments Ok {A} a.
Arguments Raise {A} msg.

#[global] Instance result_ret : MRet result := fun A a => Ok a.
#[global] Instance result_bind : MBind result := fun A B k r =>
  match r with
  | Ok a => k a
  | Raise m => Raise m
  end.

(** ** The [ipaddress] check behind bracketed hosts

    [urlsplit] hands a netloc with both brackets to
    [_check_bracketed_netloc], which accepts IPvFuture literals and IPv6
    addresses.  Only acceptance matters to the crawler, so the functions
    return [bool] where the library builds an address object. *)

Module Ipaddress.
Import PyStr.

(** [IPv4Address._parse_octet] succeeds. *)
Definition octet_ok (o : string) : bool :=
  negb (is_empty o) && all isdigit o && (String.length o <=? 3)
  && (String.eqb o "0"
      || negb (match o with String a _ => Ascii.eqb a "0" | _ => false end))
  && match o with
     | String a (String b (String c EmptyString)) =>
         (100 * (ord a - 48) + 10 * (ord b - 48) + (ord c - 48) <=? 255)
     | _ => true
     end.

(** [IPv4Address(s)] succeeds. *)
Definition ipv4_ok (s : string) : bool :=
  negb (is_empty s) && negb (contains "/" s)
  && let octets := split "." s in
     (length octets =? 4) && forallb octet_ok octets.

(** [IPv6Address._parse_hextet] succeeds. *)
Definition hextet_ok (h : string) : bool :=
  negb (is_empty h) && all ishex h && (String.length h <=? 4).

(** The indices [1 .. len-2] of [parts] holding an empty part; more than
    one is an error in [_ip_int_from_string]. *)
Definition inner_empty (parts : list string) : list nat :=
  filter (fun i => bool_decide (1 <= i /\ i + 1 < length parts
                                /\ parts !! i = Some EmptyString))
         (seq 0 (length parts)).

(** [IPv6Address._ip_int_from_string(ip_str)] succeeds. *)
Definition ipv6_int_ok (ip_str : string) : bool :=
  if is_empty ip_str then false else
  let parts := split ":" ip_str in
  if (length parts <? 3) then false else
  let parts' :=
    if contains "." (List.last parts "")
    then if ipv4_ok (List.last parts "")
         then Some (removelast parts ++ ["0"; "0"])
         else None
    else Some parts in
  match parts' with
  | None => false
  | Some parts =>
    if (9 <? length parts) then false else
    let first_empty := is_empty (List.hd "" parts) in
    let last_empty := is_empty (List.last parts "") in
    match inner_empty parts with
    | _ :: _ :: _ => false
    | [skip_index] =>
        let hi := if first_empty then skip_index - 1 else skip_index in
        let lo0 := length parts - skip_index - 1 in
        let lo := if last_empty then lo0 - 1 else lo0 in
        if first_empty && negb (hi =? 0) then false
        else if last_empty && negb (lo =? 0) then false
        else if (8 - (hi + lo) <? 1) then false
        else forallb hextet_ok (firstn hi parts)
             && forallb hextet_ok (skipn (length parts - lo) parts)
    | [] =>
        (length parts =? 8) && negb first_empty && negb last_empty
        && forallb hextet_ok parts
    end
  end.

(** [IPv6Address(s)] succeeds: no [/], a well-formed scope id, and a
    well-formed address. *)
Definition ipv6_ok (s : string) : bool :=
  negb (contains "/" s)
  && match partition "%" s with
     | None => ipv6_int_ok s
     | Some (addr, scope_id) =>
         negb (is_empty scope_id) && negb (contains "%" scope_id)
         && ipv6_int_ok addr
     end.

(** [re.match(r"\Av[a-fA-F0-9]+\..+\Z", hostname)]. *)
Definition ipvfuture_ok (hostname : string) : bool :=
  match hostname with
  | String "v" rest =>
      let '(digits, tail) := span_until (fun a => negb (ishex a)) rest in
      negb (is_empty digits)
      && match tail with
         | String "." more =>
             negb (is_empty more) && negb (contains "010" more)
         | _ => false
         end
  | _ => false
  end.

(** [_check_bracketed_host(hostname)] returns without raising. *)
Definition check_bracketed_host (hostname : string) : bool :=
  if startswith "v" hostname then ipvfuture_ok hostname
  else negb (ipv4_ok hostname) && ipv6_ok hostname.

End Ipaddress.

(** ** [urllib.parse] *)

Module Urllib.
Import PyStr.

Definition uses_relative : list string :=
  [""; "ftp"; "http"; "gopher"; "nntp"; "imap"; "wais"; "file"; "https";
   "shttp"; "mms"; "prospero"; "rtsp"; "rtspu"; "sftp"; "svn"; "svn+ssh";
   "ws"; "wss"].

Definition uses_netloc : list string :=
  [""; "ftp"; "http"; "gopher"; "nntp"; "telnet"; "imap"; "wais"; "file";
   "mms"; "https"; "shttp"; "snews"; "prospero"; "rtsp"; "rtspu"; "rsync";
   "svn"; "svn+ssh"; "sftp"; "nfs"; "git"; "git+ssh"; "ws"; "wss"].

Definition uses_params : list string :=
  [""; "ftp"; "hdl"; "prospero"; "http"; "imap"; "https"; "shttp"; "rtsp";
   "rtspu"; "sip"; "sips"; "mms"; "sftp"; "tel"].

(** [c in scheme_chars]. *)
Definition scheme_char (a : ascii) : bool :=
  isalpha a || isdigit a || Ascii.eqb a "+" || Ascii.eqb a "-"
  || Ascii.eqb a ".".

(** [c in _WHATWG_C0_CONTROL_OR_SPACE]. *)
Definition c0_control_or_space (a : ascii) : bool := ord a <=? 32.

(** [c in _UNSAFE_URL_BYTES_TO_REMOVE]: tab, carriage return, line feed. *)
Definition unsafe_url_byte (a : ascii) : bool :=
  (ord a =? 9) || (ord a =? 13) || (ord a =? 10).

Definition netloc_delim (a : ascii) : bool :=
  Ascii.eqb a "/" || Ascii.eqb a "?" || Ascii.eqb a "#".

Record SplitResult : Type := mkSplit {
  s_scheme : string;
  s_netloc : string;
  s_path : string;
  s_query : string;
  s_fragment : string
}.

Record ParseResult : Type := mkParse {
  scheme : string;
  netloc : string;
  path : string;
  params : string;
  query : string;
  fragment : string
}.

(** [_splitnetloc(url, 2)]: the domain runs from index 2 to the first of
    [/], [?], [#]. *)
Definition _splitnetloc (url : string) : string * string :=
  span_until netloc_delim (drop 2 url).

(** [_check_bracketed_netloc(netloc)] returns without raising. *)
Definition _check_bracketed_netloc (netloc : string) : bool :=
  let hostname_and_port :=
    match rpartition "@" netloc with
    | Some (_, r) => r
    | None => netloc
    end in
  match partition "[" hostname_and_port with
  | Some (before_bracket, bracketed) =>
      if negb (is_empty before_bracket) then false
      else
        let '(hostname, port) :=
          match partition "]" bracketed with
          | Some (h, p) => (h, p)
          | None => (bracketed, "")
          end in
        if negb (is_empty port) && negb (startswith ":" port) then false
        else Ipaddress.check_bracketed_host hostname
  | None =>
      Ipaddress.check_bracketed_host (before ":" hostname_and_port)
  end.

(** The scheme test of [urlsplit]: [i = url.find(':')] with [i > 0], the
    first character an ASCII letter and [url[:i]] made of [scheme_chars]
    gives [(url[:i].lower(), url[i+1:])]; otherwise nothing changes. *)
Definition split_scheme (url scheme : string) : string * string :=
  match partition ":" url with
  | Some (String a pre as sch, rest) =>
      if isalpha a && all scheme_char sch then (lower sch, rest)
      else (scheme, url)
  | _ => (scheme, url)
  end.

(** The netloc test of [urlsplit]: [if url[:2] == '//'], with the two
    bracket checks that raise [ValueError]. *)
Definition split_netloc (url : string) : result (string * string) :=
  if startswith "//" url then
    let '(netloc, rest) := _splitnetloc url in
    let lb := contains "[" netloc in
    let rb := contains "]" netloc in
    if (lb && negb rb) || (rb && negb lb) then Raise "Invalid IPv6 URL"
    else if lb && rb && negb (_check_bracketed_netloc netloc)
         then Raise "Invalid IPv6 URL"
         else Ok (netloc, rest)
  else Ok ("", url).

(** [urlsplit(url, scheme)].  [_checknetloc] only rejects a netloc whose
    NFKC form gains one of [/?#@:], which no code point below 256 does, so
    it contributes no case here. *)
Definition urlsplit (url scheme : string) : result SplitResult :=
  let url := lstrip c0_control_or_space url in
  let scheme := rstrip c0_control_or_space
                  (lstrip c0_control_or_space scheme) in
  let url := remove unsafe_url_byte url in
  let scheme := remove unsafe_url_byte scheme in
  let '(scheme, url) := split_scheme url scheme in
  '(netloc, url) ← split_netloc url;
  let '(url, fragment) :=
    match partition "#" url with
    | Some (u, f) => (u, f)
    | None => (url, "")
    end in
  let '(url, query) :=
    match partition "?" url with
    | Some (u, q) => (u, q)
    | None => (url, "")
    end in
  Ok (mkSplit scheme netloc url query fragment).

(** [_splitparams(url)]: the parameters of the last path segment. *)
Definition _splitparams (url : string) : string * string :=
  match rpartition "/" url with
  | Some (dir, last_seg) =>
      match partition ";" last_seg with
      | Some (l, r) => (dir +:+ String "/" l, r)
      | None => (url, "")
      end
  | None =>
      match partition ";" url with
      | Some (l, r) => (l, r)
      | None => (String.substring 0 (String.length url - 1) url, url)
      end
  end.

(** [urlparse(url, scheme)]. *)
Definition urlparse (url scheme : string) : result ParseResult :=
  sp ← urlsplit url scheme;
  let '(url, params) :=
    if mem (s_scheme sp) uses_params && contains ";" (s_path sp)
    then _splitparams (s_path sp)
    else (s_path sp, "") in
  Ok (mkParse (s_scheme sp) (s_netloc sp) url params
              (s_query sp) (s_fragment sp)).

(** [urlunsplit((scheme, netloc, url, query, fragment))]. *)
Definition urlunsplit (scheme netloc url query fragment : string) : string :=
  let url :=
    if negb (is_empty netloc)
       || (negb (is_empty scheme) && mem scheme uses_netloc
           && negb (startswith "//" url))
    then
      let url := if negb (is_empty url) && negb (startswith "/" url)
                 then "/" +:+ url else url in
      "//" +:+ netloc +:+ url
    else url in
  let url := if negb (is_empty scheme) then scheme +:+ ":" +:+ url
             else url in
  let url := if negb (is_empty query) then url +:+ "?" +:+ query
             else url in
  if negb (is_empty fragment) then url +:+ "#" +:+ fragment else url.

(** [urlunparse(components)]. *)
Definition urlunparse (p : ParseResult) : string :=
  let url := if negb (is_empty (params p))
             then path p +:+ ";" +:+ params p else path p in
  urlunsplit (scheme p) (netloc p) url (query p) (fragment p).

(** [segments[1:-1] = filter(None, segments[1:-1])]. *)
Definition filter_inner (segments : list string) : list string :=
  match segments with
  | x :: (_ :: _) as rest =>
      x :: filter (fun s => negb (is_empty s)) (removelast rest)
        ++ [List.last rest ""]
  | _ => segments
  end.

(** The loop of [urljoin] that resolves [.] and [..] segments. *)
Fixpoint resolve (segments resolved_path : list string) : list string :=
  match segments with
  | [] => resolved_path
  | seg :: rest =>
      if String.eqb seg ".." then resolve rest (removelast resolved_path)
      else if String.eqb seg "." then resolve rest resolved_path
      else resolve rest (resolved_path ++ [seg])
  end.

(** [urljoin(base, url)]. *)
Definition urljoin (base url : string) : result string :=
  if is_empty base then Ok url
  else if is_empty url then Ok base
  else
    b ← urlparse base "";
    u ← urlparse url (scheme b);
    if negb (String.eqb (scheme u) (scheme b))
       || negb (mem (scheme u) uses_relative)
    then Ok url
    else if mem (scheme u) uses_netloc && negb (is_empty (netloc u))
    then Ok (urlunparse u)
    else
      let netloc := if mem (scheme u) uses_netloc then netloc b
                    else netloc u in
      if is_empty (path u) && is_empty (params u) then
        let query := if is_empty (query u) then query b else query u in
        Ok (urlunparse (mkParse (scheme u) netloc (path b) (params b)
                                query (fragment u)))
      else
        let base_parts := split "/" (path b) in
        let base_parts :=
          if negb (String.eqb (List.last base_parts "") "")
          then removelast base_parts else base_parts in
        let segments :=
          if startswith "/" (path u) then split "/" (path u)
          else filter_inner (base_parts ++ split "/" (path u)) in
        let resolved_path := resolve segments [] in
        let resolved_path :=
          if mem (List.last segments "") ["."; ".."]
          then resolved_path ++ [""] else resolved_path in
        let joined := join "/" resolved_path in
        Ok (urlunparse (mkParse (scheme u) netloc
                                (if is_empty joined then "/" else joined)
                                (params u) (query u) (fragment u))).

(** *** Shapes of the components

    A scheme as [urlsplit] recognises it, and a netloc as it cuts it. *)
Definition valid_scheme (sch : string) : bool :=
  match sch with
  | String a _ => isalpha a && all scheme_char sch
  | EmptyString => false
  end.

Definition netloc_char (a : ascii) : bool :=
  negb (netloc_delim a) && negb (unsafe_url_byte a).

Definition clean_netloc (loc : string) : bool := all netloc_char loc.

(** What may follow the netloc in a URL: nothing, or one of [/], [?],
    [#]. *)
Definition tail_ok (tail : string) : Prop :=
  match tail with
  | EmptyString => True
  | String y _ => netloc_delim y = true
  end.

End Urllib.

(** ** Regular expressions ([re])

    The expressions of the source use literals, character classes, [.],
    [\s], alternation, [?], the greedy and lazy repetitions [*], [+], [*?],
    [+?] of a single-character atom, and one capturing group.  [rmatch] is
    a backtracking matcher in continuation-passing style with Python's
    priorities: the first alternative first, greedy repetitions longest
    first, lazy ones shortest first.  In the comments below [Q] stands for
    the class of the double and the single quote character and [N] for its
    complement. *)

Module Re.
Import PyStr.

Inductive regex : Type :=
| Eps
| Chr (p : ascii -> bool)
| Seq (r1 r2 : regex)
| Alt (r1 r2 : regex)
| Opt (r : regex)
| Star (lazy : bool) (p : ascii -> bool)
| Group (r : regex).

Definition first_some {A} (x : option A) (y : option A) : option A :=
  match x with
  | Some _ => x
  | None => y
  end.

Section Matcher.
Context {R : Type}.

(** [rmatch r s g k]: match [r] at the start of [s], with [g] the text
    captured so far, and hand the rest of the input to [k]. *)
Fixpoint rmatch (r : regex) (s : string) (g : option string)
         (k : string -> option string -> option R) : option R :=
  match r with
  | Eps => k s g
  | Chr p =>
      match s with
      | String a s' => if p a then k s' g else None
      | EmptyString => None
      end
  | Seq r1 r2 => rmatch r1 s g (fun s' g' => rmatch r2 s' g' k)
  | Alt r1 r2 => first_some (rmatch r1 s g k) (rmatch r2 s g k)
  | Opt r1 => first_some (rmatch r1 s g k) (k s g)
  | Star lazy p =>
      (fix loop (s : string) : option R :=
         match s with
         | String a s' =>
             if p a then
               if lazy then first_some (k s g) (loop s')
               else first_some (loop s') (k s g)
             else k s g
         | EmptyString => k s g
         end) s
  | Group r1 =>
      rmatch r1 s g
        (fun s' _ =>
           k s' (Some (String.substring 0 (String.length s - String.length s') s)))
  end.
End Matcher.

Fixpoint has_group (r : regex) : bool :=
  match r with
  | Seq r1 r2 | Alt r1 r2 => has_group r1 || has_group r2
  | Opt r1 => has_group r1
  | Group _ => true
  | _ => false
  end.

(** One match attempt at the start of [s]: the rest of the input after
    the match and the item [findall] reports for it (the group when the
    expression has one, the whole match otherwise). *)
Definition match_here (r : regex) (s : string) : option (string * string) :=
  rmatch r s None
    (fun s' g =>
       let whole := String.substring 0 (String.length s - String.length s') s in
       Some (s', if has_group r then default "" g else whole)).

(** [re.findall]: leftmost non-overlapping matches, scanning from the
    left; after an empty match the scan moves one character on (the
    expressions of the source match no empty string).  [fuel] bounds the
    rounds of the scan; [findall] gives one more than the length of the
    input, which is never used up. *)
Fixpoint findall_from (fuel : nat) (r : regex) (s : string) : list string :=
  match fuel with
  | O => []
  | S fuel' =>
      match match_here r s with
      | Some (s', item) =>
          item ::
            (if (String.length s' <? String.length s)
             then findall_from fuel' r s'
             else match s with
                  | String _ t => findall_from fuel' r t
                  | EmptyString => []
                  end)
      | None =>
          match s with
          | String _ t => findall_from fuel' r t
          | EmptyString => []
          end
      end
  end.

Definition findall (r : regex) (s : string) : list string :=
  findall_from (S (String.length s)) r s.

(** *** Atoms *)

(** A literal character; under [re.IGNORECASE] ([ci]) the two sides are
    compared after case folding. *)
Definition chr (ci : bool) (c : ascii) : regex :=
  Chr (fun a => if ci then Ascii.eqb (lower_char a) (lower_char c)
                else Ascii.eqb a c).

Fixpoint lit (ci : bool) (s : string) : regex :=
  match s with
  | EmptyString => Eps
  | String c EmptyString => chr ci c
  | String c s' => Seq (chr ci c) (lit ci s')
  end.

Definition seqs (l : list regex) : regex := fold_right Seq Eps l.

Definition plus (lazy : bool) (p : ascii -> bool) : regex :=
  Seq (Chr p) (Star lazy p).

(** The classes [Q] and [N]. *)
Definition quote (a : ascii) : bool :=
  Ascii.eqb a "034" || Ascii.eqb a "039".
Definition not_quote (a : ascii) : bool := negb (quote a).
(** [.] without [re.DOTALL], and with it. *)
Definition dot (a : ascii) : bool := negb (ord a =? 10).
Definition any (a : ascii) : bool := true.
(** [[^>]]. *)
Definition not_gt (a : ascii) : bool := negb (Ascii.eqb a ">").
(** [[a-zA-Z0-9_\-\./]]. *)
Definition path_char (a : ascii) : bool :=
  isalpha a || isdigit a || Ascii.eqb a "_" || Ascii.eqb a "-"
  || Ascii.eqb a "." || Ascii.eqb a "/".

(** *** The expressions of [extract_links], all under [re.IGNORECASE] *)

(** [attr=Q(.*?)Q] for [attr] one of [href], [src], [action]. *)
Definition attr_pattern (attr : string) : regex :=
  seqs [lit true (attr +:+ "="); Chr quote; Group (Star true dot); Chr quote].

(** [url\(Q?(.*?)Q?\)]. *)
Definition css_url_pattern : regex :=
  seqs [lit true "url("; Opt (Chr quote); Group (Star true dot);
        Opt (Chr quote); lit true ")"].

(** [<a[^>]*?href=Q(.*?)Q[^>]*?>]. *)
Definition anchor_pattern : regex :=
  seqs [lit true "<a"; Star true not_gt; lit true "href="; Chr quote;
        Group (Star true dot); Chr quote; Star true not_gt; lit true ">"].

Definition href_patterns : list regex :=
  [attr_pattern "href"; attr_pattern "src"; attr_pattern "action";
   css_url_pattern; anchor_pattern].

(** *** The expressions of [find_potential_paths] *)

(** [Q(/N+?)Q]. *)
Definition js_abs_pattern : regex :=
  seqs [Chr quote; Group (Seq (lit true "/") (plus true not_quote));
        Chr quote].

(** [Q(\.\.?/N+?)Q]. *)
Definition js_rel_pattern : regex :=
  seqs [Chr quote;
        Group (seqs [lit true "."; Opt (lit true "."); lit true "/";
                     plus true not_quote]);
        Chr quote].

(** [keyQ?\s*:\s*Q(N+?)Q] for [key] one of [api],
    [endpoint]. *)
Definition js_key_pattern (key : string) : regex :=
  seqs [lit true key; Opt (Chr quote); Star false isspace; lit true ":";
        Star false isspace; Chr quote; Group (plus true not_quote);
        Chr quote].

(** [Q(/(?:api|admin|dashboard|login|register|panel)N*?)Q]. *)
Definition js_word_pattern : regex :=
  seqs [Chr quote;
        Group (seqs [lit true "/";
                     Alt (lit true "api")
                       (Alt (lit true "admin")
                          (Alt (lit true "dashboard")
                             (Alt (lit true "login")
                                (Alt (lit true "register")
                                   (lit true "panel")))));
                     Star true not_quote]);
        Chr quote].

Definition js_patterns : list regex :=
  [js_abs_pattern; js_rel_pattern; js_key_pattern "api";
   js_key_pattern "endpoint"; js_word_pattern].

(** [<!--.*?-->] under [re.DOTALL]. *)
Definition comment_pattern : regex :=
  seqs [lit false "<!--"; Star true any; lit false "-->"].

(** [(/[a-zA-Z0-9_\-\./]+)]. *)
Definition comment_path_pattern : regex :=
  Group (Seq (lit false "/") (plus false path_char)).

End Re.

(** ** [time.sleep]

    [time.sleep(secs)] for a [float], as CPython 3.11 does it: NaN is
    refused; the seconds are turned into nanoseconds ([secs * 1e9], rounded
    away from zero, which changes neither the sign nor the two tests
    below) and refused when they do not fit 64 bits; a negative number of
    nanoseconds is refused, and so is [2 ** 63], which the conversion to a
    64-bit integer makes negative.  [Ok tt] is a sleep that returned;
    [Raise msg] an exception [e] with [str(e) = msg] ([ValueError] or
    [OverflowError], both caught by [except Exception]). *)

Module Time.

Definition sleep (secs : float) : result unit :=
  if PrimFloat.is_nan secs then Raise "Invalid value NaN (not a number)"
  else
    let d := PrimFloat.mul secs 1e9%float in
    if negb (PrimFloat.leb (-0x1p63)%float d
             && PrimFloat.leb d 0x1p63%float)
    then Raise "timestamp too large to convert to C _PyTime_t"
    else if PrimFloat.ltb d 0%float || PrimFloat.eqb d 0x1p63%float
    then Raise "sleep length must be non-negative"
    else Ok tt.

End Time.

(** ** The crawler *)

Module Crawler.
Import PyStr.

Local Open Scope Z_scope.

(** What [requests.get] gives for a URL: a response (whatever its status),
    or one of the exceptions the crawler tells apart; [OtherError msg] is
    any other exception [e], with [str(e) = msg]. *)
Inductive response : Type :=
| Response (status_code : Z) (content_type : string) (content_length : Z)
           (text : string)
| ConnectionError
| Timeout
| OtherError (msg : string).

(** The HTTP transport, a collaborator outside the code. *)
Definition transport : Type := string -> response.

(** The two shapes of dictionary stored in [url_data]. *)
Inductive visit_record : Type :=
| StatusRecord (status_code : Z) (content_type : string)
               (content_length : Z) (depth : Z)
| ErrorRecord (error : string) (depth : Z).

Definition record_depth (r : visit_record) : Z :=
  match r with
  | StatusRecord _ _ _ d => d
  | ErrorRecord _ d => d
  end.

Record Stats : Type := mkStats {
  total_requests : Z;
  successful_requests : Z;
  failed_requests : Z
}.

(** The object [self].  [requested] is a ghost field: the URLs handed to
    [requests.get] so far, oldest first. *)
Record AdvancedWebCrawler : Type := mkCrawler {
  base_url : string;
  max_depth : Z;
  max_workers : Z;
  delay : float;
  base_domain : string;
  scheme : string;
  visited : gset string;
  discovered_urls : gset string;
  url_data : gmap string visit_record;
  stats : Stats;
  requested : list string
}.

Definition set_visited (v : gset string) (c : AdvancedWebCrawler) :=
  mkCrawler (base_url c) (max_depth c) (max_workers c) (delay c)
    (base_domain c) (scheme c)
    v (discovered_urls c) (url_data c) (stats c) (requested c).
Definition set_discovered_urls (d : gset string) (c : AdvancedWebCrawler) :=
  mkCrawler (base_url c) (max_depth c) (max_workers c) (delay c)
    (base_domain c) (scheme c)
    (visited c) d (url_data c) (stats c) (requested c).
Definition set_url_data (m : gmap string visit_record)
           (c : AdvancedWebCrawler) :=
  mkCrawler (base_url c) (max_depth c) (max_workers c) (delay c)
    (base_domain c) (scheme c)
    (visited c) (discovered_urls c) m (stats c) (requested c).
Definition set_stats (s : Stats) (c : AdvancedWebCrawler) :=
  mkCrawler (base_url c) (max_depth c) (max_workers c) (delay c)
    (base_domain c) (scheme c)
    (visited c) (discovered_urls c) (url_data c) s (requested c).
Definition set_requested (l : list string) (c : AdvancedWebCrawler) :=
  mkCrawler (base_url c) (max_depth c) (max_workers c) (delay c)
    (base_domain c) (scheme c)
    (visited c) (discovered_urls c) (url_data c) (stats c) l.

(** [self.visited.add(u)], [self.discovered_urls.add(u)],
    [self.url_data[u] = r] and the three counter increments. *)
Definition visit (u : string) (c : AdvancedWebCrawler) :=
  set_visited ({[u]} ∪ visited c) c.
Definition discover (u : string) (c : AdvancedWebCrawler) :=
  set_discovered_urls ({[u]} ∪ discovered_urls c) c.
Definition store (u : string) (r : visit_record) (c : AdvancedWebCrawler) :=
  set_url_data (<[u := r]> (url_data c)) c.
Definition count_total (c : AdvancedWebCrawler) :=
  set_stats (mkStats (total_requests (stats c) + 1)
               (successful_requests (stats c)) (failed_requests (stats c))) c.
Definition count_successful (c : AdvancedWebCrawler) :=
  set_stats (mkStats (total_requests (stats c))
               (successful_requests (stats c) + 1)
               (failed_requests (stats c))) c.
Definition count_failed (c : AdvancedWebCrawler) :=
  set_stats (mkStats (total_requests (stats c))
               (successful_requests (stats c))
               (failed_requests (stats c) + 1)) c.
(** Ghost: a call of [requests.get(u, ...)]. *)
Definition request (u : string) (c : AdvancedWebCrawler) :=
  set_requested (requested c ++ [u]) c.

(** [AdvancedWebCrawler.__init__(base_url, max_depth, max_workers,
    delay)]; [urlparse] may raise. *)
Definition init (url : string) (depth workers : Z) (delay : float)
  : result AdvancedWebCrawler :=
  parsed_url ← Urllib.urlparse url "";
  Ok {| base_url := rstrip (is_char "/") url;
        max_depth := depth;
        max_workers := workers;
        delay := delay;
        base_domain := Urllib.netloc parsed_url;
        scheme := if is_empty (Urllib.scheme parsed_url) then "http"
                  else Urllib.scheme parsed_url;
        visited := ∅;
        discovered_urls := ∅;
        url_data := ∅;
        stats := mkStats 0 0 0;
        requested := [] |}.

(** [normalize_url]. *)
Definition normalize_url (self : AdvancedWebCrawler) (url : string)
  : result string :=
  parsed ← Urllib.urlparse url "";
  let sch := if is_empty (Urllib.scheme parsed) then scheme self
             else Urllib.scheme parsed in
  let loc := if is_empty (Urllib.netloc parsed) then base_domain self
             else Urllib.netloc parsed in
  let path := Urllib.path parsed in
  let path := if is_empty path then "/" else path in
  let path := if negb (String.eqb path "/") && endswith "/" path
              then rstrip (is_char "/") path else path in
  Ok (Urllib.urlunparse
        (Urllib.mkParse sch loc path (Urllib.params parsed)
           (Urllib.query parsed) (Urllib.fragment parsed))).

Definition invalid_extensions : list string :=
  [".jpg"; ".jpeg"; ".png"; ".gif"; ".bmp"; ".ico"; ".svg";
   ".pdf"; ".doc"; ".docx"; ".xls"; ".xlsx"; ".ppt"; ".pptx";
   ".mp4"; ".mp3"; ".avi"; ".mov"; ".wmv"; ".flv";
   ".woff"; ".woff2"; ".ttf"; ".eot";
   ".zip"; ".rar"; ".tar"; ".gz"; ".7z"].

(** [is_valid_link]; an exception of [urlparse] gives [False]. *)
Definition is_valid_link (self : AdvancedWebCrawler) (url : string) : bool :=
  match Urllib.urlparse url "" with
  | Raise _ => false
  | Ok parsed =>
      if negb (is_empty (Urllib.netloc parsed))
         && negb (String.eqb (Urllib.netloc parsed) (base_domain self))
      then false
      else
        let path_lower := lower (Urllib.path parsed) in
        negb (existsb (fun ext => endswith ext path_lower)
                invalid_extensions)
  end.

(** *** [extract_links] *)

(** The body of the loop over the matches of one pattern: [Ok None] is a
    [continue] or a link the filter drops, [Ok (Some u)] is
    [links.add(u)], [Raise] an exception of [urljoin] or [urlparse]. *)
Definition extract_link (self : AdvancedWebCrawler) (page link : string)
  : result (option string) :=
  let link := strip link in
  if is_empty link then Ok None
  else
    let link := before "?" (before "#" link) in
    let low := lower link in
    if startswith "javascript:" low || startswith "mailto:" low
       || startswith "tel:" low
    then Ok None
    else
      absolute_link ←
        (if startswith "http://" link || startswith "https://" link
         then Ok link
         else Urllib.urljoin page link);
      absolute_link ← normalize_url self absolute_link;
      Ok (if is_valid_link self absolute_link then Some absolute_link
          else None).

(** A loop over matches that adds to [links] until [body] raises; the set
    built so far survives the exception. *)
Fixpoint collect (body : string -> result (option string))
         (found : list string) (links : gset string)
  : gset string * result unit :=
  match found with
  | [] => (links, Ok tt)
  | x :: rest =>
      match body x with
      | Ok None => collect body rest links
      | Ok (Some u) => collect body rest ({[u]} ∪ links)
      | Raise e => (links, Raise e)
      end
  end.

(** [extract_links]: the [try] is inside the loop over the patterns, so an
    exception ends the current pattern only. *)
Definition extract_links (self : AdvancedWebCrawler)
           (page html_content : string) : gset string :=
  fold_left
    (fun links pattern =>
       fst (collect (extract_link self page)
              (Re.findall pattern html_content) links))
    Re.href_patterns ∅.

(** *** [find_potential_paths] *)

(** The body of both inner loops of [find_potential_paths]. *)
Definition mine_path (self : AdvancedWebCrawler) (path : string)
  : result (option string) :=
  full_url ← normalize_url self (base_url self +:+ path);
  Ok (if is_valid_link self full_url then Some full_url else None).

(** The loop over the script patterns, and the loop over the comments;
    here an exception leaves the loop. *)
Fixpoint mine_patterns (self : AdvancedWebCrawler)
         (patterns : list Re.regex) (html_content : string)
         (paths : gset string) : gset string * result unit :=
  match patterns with
  | [] => (paths, Ok tt)
  | pattern :: rest =>
      match collect (mine_path self) (Re.findall pattern html_content)
              paths with
      | (paths', Ok _) => mine_patterns self rest html_content paths'
      | (paths', Raise e) => (paths', Raise e)
      end
  end.

Fixpoint mine_comments (self : AdvancedWebCrawler) (comments : list string)
         (paths : gset string) : gset string * result unit :=
  match comments with
  | [] => (paths, Ok tt)
  | comment :: rest =>
      match collect (mine_path self)
              (Re.findall Re.comment_path_pattern comment) paths with
      | (paths', Ok _) => mine_comments self rest paths'
      | (paths', Raise e) => (paths', Raise e)
      end
  end.

(** [find_potential_paths]: one [try] around both loops; the handler
    prints and the set built so far is returned. *)
Definition find_potential_paths (self : AdvancedWebCrawler)
           (html_content : string) : gset string :=
  match mine_patterns self Re.js_patterns html_content ∅ with
  | (paths, Ok _) =>
      fst (mine_comments self
             (Re.findall Re.comment_pattern html_content) paths)
  | (paths, Raise _) => paths
  end.

(** *** [fetch_url] *)

(** What [fetch_url] returns: [(url, links, status_code)]. *)
Definition fetched : Type := string * gset string * Z.

(** [fetch_url(url, depth)], run by a worker: the new state of [self] and
    the returned triple.  The [try] block starts with
    [time.sleep(self.delay)]: when that raises, the last handler runs
    before anything is counted in [total_requests] or requested. *)
Definition fetch_url (http : transport) (self : AdvancedWebCrawler)
           (url : string) (depth : Z) : AdvancedWebCrawler * fetched :=
  match Time.sleep (delay self) with
  | Raise msg =>
      (store url (ErrorRecord msg depth) (count_failed self), (url, ∅, 0))
  | Ok _ =>
      let self := count_total self in
      let self := request url self in
      match http url with
      | Response status_code content_type content_length text =>
          let self := count_successful self in
          let self :=
            store url (StatusRecord status_code content_type
                         content_length depth) self in
          let links := extract_links self url text in
          let links := links ∪ find_potential_paths self text in
          (self, (url, links, status_code))
      | ConnectionError =>
          (store url (ErrorRecord "Connection refused" depth)
             (count_failed self), (url, ∅, 0))
      | Timeout =>
          (store url (ErrorRecord "Request timeout" depth)
             (count_failed self), (url, ∅, 0))
      | OtherError msg =>
          (store url (ErrorRecord msg depth) (count_failed self),
           (url, ∅, 0))
      end
  end.

(** *** [_threaded_crawl]

    The control loop runs in the main thread and [fetch_url] in the
    workers of the pool.  A state of the run holds [self], the local
    [queue] and [futures] and the place the main thread is at.  Each step
    below is one atomic action of one thread; in particular a worker's
    [fetch_url] is one step, and an increment of a counter is never torn. *)

(** An entry of [futures]: the future (named by the order of submission)
    with the [(url, depth)] stored for it, and the value of
    [future.result()] once [fetch_url] has returned. *)
Record future : Type := mkFuture {
  fut_id : nat;
  fut_url : string;
  fut_depth : Z;
  fut_result : option fetched
}.

(** Where the main thread is: at the head of the outer [while], at the
    head of the inner [while] that submits, inside the [for] over the
    snapshot [done_futures], or past the loop. *)
Inductive place : Type :=
| AtLoop
| AtSubmit
| AtProcess (done_futures : list nat)
| AtExit.

Record run_state : Type := mkRun {
  self : AdvancedWebCrawler;
  queue : list (string * Z);
  futures : list future;
  next_id : nat;
  at_ : place
}.

(** [len(futures) < self.max_workers * 2]. *)
Definition pool_has_room (s : run_state) : bool :=
  Z.of_nat (length (futures s)) <? max_workers (self s) * 2.

(** One turn of the submitting loop, [(url, depth)] being the entry that
    [queue.popleft()] gave and [rest] what stays queued. *)
Definition submit (s : run_state) (url : string) (depth : Z)
           (rest : list (string * Z)) : run_state :=
  if bool_decide (url ∉ visited (self s)) && (depth <=? max_depth (self s))
  then mkRun (visit url (self s)) rest
             (futures s ++ [mkFuture (next_id s) url depth None])
             (S (next_id s)) AtSubmit
  else mkRun (self s) rest (futures s) (next_id s) AtSubmit.

(** Leaving the submitting loop: [if futures:] takes the snapshot
    [list(futures.keys())]. *)
Definition to_process (s : run_state) : run_state :=
  mkRun (self s) (queue s) (futures s) (next_id s)
        (match futures s with
         | [] => AtLoop
         | _ => AtProcess (fut_id <$> futures s)
         end).

(** The entries [for link in links: if link not in self.visited:
    queue.append((link, depth + 1))] appends, [order] being the order in
    which the set [links] is iterated. *)
Definition new_entries (c : AdvancedWebCrawler) (order : list string)
           (depth : Z) : list (string * Z) :=
  (fun link => (link, depth + 1))
    <$> filter (fun link => bool_decide (link ∉ visited c)) order.

Definition pop_future (id : nat) (fs : list future) : list future :=
  filter (fun g => negb (Nat.eqb (fut_id g) id)) fs.

Definition find_future (id : nat) (fs : list future) : option future :=
  List.find (fun g => Nat.eqb (fut_id g) id) fs.

(** The futures before the one named [id], that one, and those after. *)
Fixpoint split_future (id : nat) (fs : list future)
  : option (list future * future * list future) :=
  match fs with
  | [] => None
  | g :: fs' =>
      if Nat.eqb (fut_id g) id then Some ([], g, fs')
      else match split_future id fs' with
           | Some (pre, f, post) => Some (g :: pre, f, post)
           | None => None
           end
  end.

(** The body of the [for] over [done_futures] for a future that is done,
    with the result [res] of [future.result()]. *)
Definition consume (s : run_state) (f : future) (res : fetched)
           (order : list string) (rest : list nat) : run_state :=
  let '(source_url, _, status_code) := res in
  let c := count_total (discover source_url (self s)) in
  let queue' :=
    if (status_code =? 200) && (fut_depth f <? max_depth c)
    then queue s ++ new_entries c order (fut_depth f)
    else queue s in
  mkRun c queue' (pop_future (fut_id f) (futures s)) (next_id s)
        (AtProcess rest).

(** A worker runs [fetch_url] for the pending future [f]. *)
Definition complete (http : transport) (s : run_state)
           (pre : list future) (f : future) (post : list future)
  : run_state :=
  let '(c, res) := fetch_url http (self s) (fut_url f) (fut_depth f) in
  mkRun c (queue s)
        (pre ++ mkFuture (fut_id f) (fut_url f) (fut_depth f) (Some res)
             :: post)
        (next_id s) (at_ s).

Definition move (s : run_state) (p : place) : run_state :=
  mkRun (self s) (queue s) (futures s) (next_id s) p.

Inductive step (http : transport) : run_state -> run_state -> Prop :=
| step_enter s :
    at_ s = AtLoop -> queue s <> [] \/ futures s <> [] ->
    step http s (move s AtSubmit)
| step_exit s :
    at_ s = AtLoop -> queue s = [] -> futures s = [] ->
    step http s (move s AtExit)
| step_submit s url depth rest :
    at_ s = AtSubmit -> queue s = (url, depth) :: rest ->
    pool_has_room s = true ->
    step http s (submit s url depth rest)
| step_submitted s :
    at_ s = AtSubmit -> queue s = [] \/ pool_has_room s = false ->
    step http s (to_process s)
| step_done s id rest f source_url links status_code order :
    at_ s = AtProcess (id :: rest) ->
    find_future id (futures s) = Some f ->
    fut_result f = Some (source_url, links, status_code) ->
    order ≡ₚ elements links ->
    step http s (consume s f (source_url, links, status_code) order rest)
| step_not_done s id rest f :
    at_ s = AtProcess (id :: rest) ->
    find_future id (futures s) = Some f ->
    fut_result f = None ->
    step http s (move s (AtProcess rest))
| step_processed s :
    at_ s = AtProcess [] ->
    step http s (move s AtLoop)
| step_worker s pre f post :
    futures s = pre ++ f :: post -> fut_result f = None ->
    step http s (complete http s pre f post).

(** *** [crawl] *)

(** How the first part of [crawl] (the synchronous request for the seed)
    ends: by one of the [return]s in the handlers, by falling through to
    [display_results] after a status other than 200, or by calling
    [_threaded_crawl] with the links of the seed page. *)
Inductive seeded : Type :=
| SeedReturn (c : AdvancedWebCrawler)
| SeedReport (c : AdvancedWebCrawler)
| SeedCrawl (c : AdvancedWebCrawler) (initial_links : gset string).

Definition crawl_seed (http : transport) (c : AdvancedWebCrawler) : seeded :=
  let initial_url := base_url c in
  let c := visit initial_url c in
  let c := request initial_url c in
  match http initial_url with
  | Response status_code content_type content_length text =>
      if status_code =? 200 then
        let initial_links := extract_links c initial_url text in
        let initial_links :=
          initial_links ∪ find_potential_paths c text in
        let c :=
          store initial_url
            (StatusRecord status_code content_type content_length 0) c in
        let c := count_successful (discover initial_url c) in
        (* ThreadPoolExecutor raises ValueError unless max_workers > 0,
           and the last handler of [crawl] returns. *)
        if max_workers c <=? 0 then SeedReturn c
        else SeedCrawl c initial_links
      else
        let c :=
          store initial_url
            (StatusRecord status_code content_type content_length 0) c in
        SeedReport (count_successful (discover initial_url c))
  | ConnectionError => SeedReturn c
  | Timeout => SeedReturn c
  | OtherError _ => SeedReturn c
  end.

(** The state in which [_threaded_crawl(queue)] starts, [order] being the
    order in which [initial_links] was iterated to fill the queue. *)
Definition start (c : AdvancedWebCrawler) (order : list string)
  : run_state :=
  mkRun c ((fun link => (link, 1))
             <$> filter (fun link => bool_decide (link ∉ visited c)) order)
        [] 0%nat AtLoop.

(** How [crawl] ends: it returned from a handler, or it reached
    [display_results] (and with it [save_results]), which read the state
    they are given. *)
Inductive outcome : Type :=
| Returned (c : AdvancedWebCrawler)
| Reported (c : AdvancedWebCrawler).

Definition final_state (o : outcome) : AdvancedWebCrawler :=
  match o with
  | Returned c => c
  | Reported c => c
  end.

Inductive crawl (http : transport) (c : AdvancedWebCrawler)
  : outcome -> Prop :=
| crawl_return c' :
    crawl_seed http c = SeedReturn c' -> crawl http c (Returned c')
| crawl_report c' :
    crawl_seed http c = SeedReport c' -> crawl http c (Reported c')
| crawl_threaded c' links order s :
    crawl_seed http c = SeedCrawl c' links ->
    order ≡ₚ elements links ->
    rtc (step http) (start c' order) s ->
    at_ s = AtExit ->
    crawl http c (Reported (self s)).

(** *** One schedule, as a function

    [next] picks one step of [step]: the main thread moves on, except that
    a worker finishes its [fetch_url] just before the main thread polls
    its future, and sets are iterated in the order of [elements]. *)
Definition next (http : transport) (s : run_state) : option run_state :=
  match at_ s with
  | AtLoop =>
      match queue s, futures s with
      | [], [] => Some (move s AtExit)
      | _, _ => Some (move s AtSubmit)
      end
  | AtSubmit =>
      match queue s with
      | (url, depth) :: rest =>
          if pool_has_room s then Some (submit s url depth rest)
          else Some (to_process s)
      | [] => Some (to_process s)
      end
  | AtProcess [] => Some (move s AtLoop)
  | AtProcess (id :: rest) =>
      match split_future id (futures s) with
      | Some (pre, f, post) =>
          match fut_result f with
          | Some res => Some (consume s f res (elements res.1.2) rest)
          | None => Some (complete http s pre f post)
          end
      | None => None
      end
  | AtExit => None
  end.

Fixpoint run (http : transport) (fuel : nat) (s : run_state)
  : option run_state :=
  match at_ s with
  | AtExit => Some s
  | _ =>
      match fuel with
      | O => None
      | S fuel' =>
          match next http s with
          | Some s' => run http fuel' s'
          | None => None
          end
      end
  end.

(** [crawl] under that schedule; [None] when [fuel] steps do not reach the
    end of the loop. *)
Definition crawl_run (http : transport) (fuel : nat)
           (c : AdvancedWebCrawler) : option outcome :=
  match crawl_seed http c with
  | SeedReturn c' => Some (Returned c')
  | SeedReport c' => Some (Reported c')
  | SeedCrawl c' links =>
      match run http fuel (start c' (elements links)) with
      | Some s => Some (Reported (self s))
      | None => None
      end
  end.

(** *** Properties of runs *)

(** The host of a URL as the crawler reads it: [urlparse(u).netloc]. *)
Definition host (u : string) : option string :=
  match Urllib.urlparse u "" with
  | Ok p => Some (Urllib.netloc p)
  | Raise _ => None
  end.

(** What [__init__] leaves in [self.scheme] and [self.base_domain]. *)
Definition well_formed (c : AdvancedWebCrawler) : Prop :=
  Urllib.valid_scheme (scheme c) = true
  /\ Urllib.clean_netloc (base_domain c) = true.

(** The fields that no method assigns after [__init__]. *)
Definition config (c : AdvancedWebCrawler) :=
  (base_url c, max_depth c, max_workers c, delay c, base_domain c,
   scheme c).

(** The state [__init__] leaves, before [crawl]. *)
Definition fresh (c : AdvancedWebCrawler) : Prop :=
  visited c = ∅ /\ discovered_urls c = ∅ /\ url_data c = ∅
  /\ stats c = mkStats 0 0 0 /\ requested c = [].

Definition reported (o : outcome) : bool :=
  match o with
  | Reported _ => true
  | Returned _ => false
  end.

(** The futures that are done and not yet consumed. *)
Fixpoint done_count (fs : list future) : Z :=
  match fs with
  | [] => 0
  | f :: fs' =>
      (match fut_result f with Some _ => 1 | None => 0 end) + done_count fs'
  end.

(** The invariant of [_threaded_crawl], for a run whose seed answered.
    The two equations on the counters are those of a run whose workers
    get past [time.sleep(self.delay)]. *)
Record run_inv (s : run_state) : Prop := {
  inv_wf : well_formed (self s);
  inv_ids : NoDup (fut_id <$> futures s);
  inv_next : forall f, f ∈ futures s -> (fut_id f < next_id s)%nat;
  inv_visited : forall u, u ∈ visited (self s) ->
    u = base_url (self s) \/ host u = Some (base_domain (self s));
  inv_queue : forall u d, (u, d) ∈ queue s ->
    host u = Some (base_domain (self s));
  inv_fut_host : forall f, f ∈ futures s ->
    host (fut_url f) = Some (base_domain (self s));
  inv_fut_visited : forall f, f ∈ futures s ->
    fut_url f ∈ visited (self s);
  inv_fut_depth : forall f, f ∈ futures s ->
    fut_depth f <= max_depth (self s);
  inv_fut_result : forall f src links st,
    f ∈ futures s -> fut_result f = Some (src, links, st) ->
    src = fut_url f
    /\ forall l, l ∈ links -> host l = Some (base_domain (self s));
  inv_discovered : discovered_urls (self s) ⊆ visited (self s);
  inv_data : forall u r, url_data (self s) !! u = Some r ->
    u ∈ visited (self s)
    /\ record_depth r <= Z.max 0 (max_depth (self s));
  inv_requested : forall u, u ∈ requested (self s) ->
    u ∈ visited (self s);
  inv_total :
    Time.sleep (delay (self s)) = Ok tt ->
    total_requests (stats (self s))
    = 2 * (Z.of_nat (length (requested (self s))) - 1)
      - done_count (futures s);
  inv_answered :
    Time.sleep (delay (self s)) = Ok tt ->
    successful_requests (stats (self s))
    + failed_requests (stats (self s))
    = Z.of_nat (length (requested (self s)));
  inv_counts :
    1 <= successful_requests (stats (self s))
    /\ 0 <= failed_requests (stats (self s));
  inv_fut_urls : NoDup (fut_url <$> futures s);
  inv_pending : forall f, f ∈ futures s -> fut_result f = None ->
    fut_url f ∉ requested (self s);
  inv_once : NoDup (requested (self s))
}.

(** The state of [self] when the first part of [crawl] is over. *)
Definition seed_state (sd : seeded) : AdvancedWebCrawler :=
  match sd with
  | SeedReturn c => c
  | SeedReport c => c
  | SeedCrawl c _ => c
  end.

(** The matches [find_potential_paths] goes through, in its order: those
    of the script patterns, then those found in the comments. *)
Definition mined_matches (html_content : string) : list string :=
  concat ((fun pattern => Re.findall pattern html_content)
            <$> Re.js_patterns)
  ++ concat (Re.findall Re.comment_path_pattern
               <$> Re.findall Re.comment_pattern html_content).

(** The loop is left only with no queue entry and no future left. *)
Definition drained (s : run_state) : Prop :=
  at_ s = AtExit -> futures s = [] /\ queue s = [].

End Crawler.

(** ** More about runs: the books the crawler keeps *)

Module Ledger.
Import PyStr Crawler.

Local Open Scope Z_scope.

(** The links [crawl] and [fetch_url] take from a page: those of
    [extract_links], then those of [find_potential_paths]. *)
Definition page_links (c : AdvancedWebCrawler) (page text : string)
  : gset string :=
  extract_links c page text ∪ find_potential_paths c text.

(** The dictionary [fetch_url] stores for what [requests.get] gave. *)
Definition record_of (resp : response) (depth : Z) : visit_record :=
  match resp with
  | Response status_code content_type content_length _ =>
      StatusRecord status_code content_type content_length depth
  | ConnectionError => ErrorRecord "Connection refused" depth
  | Timeout => ErrorRecord "Request timeout" depth
  | OtherError msg => ErrorRecord msg depth
  end.

(** The triple [fetch_url] returns for what [requests.get] gave. *)
Definition result_of (http : transport) (c : AdvancedWebCrawler)
           (url : string) : fetched :=
  match http url with
  | Response status_code _ _ text =>
      (url, page_links c url text, status_code)
  | _ => (url, ∅, 0)
  end.

(** What a call of [fetch_url] on [c] goes by: the answer of the
    transport when [time.sleep(self.delay)] returned, and otherwise the
    exception of [time.sleep], which the last handler treats like any
    other exception. *)
Definition reply (http : transport) (c : AdvancedWebCrawler) : transport :=
  fun url =>
    match Time.sleep (delay c) with
    | Ok _ => http url
    | Raise msg => OtherError msg
    end.

(** ['status_code' in data]. *)
Definition has_status (r : visit_record) : bool :=
  match r with
  | StatusRecord _ _ _ _ => true
  | ErrorRecord _ _ => false
  end.

(** The number of records of [url_data] that satisfy [p]. *)
Definition count_records (p : visit_record -> bool)
           (data : gmap string visit_record) : Z :=
  Z.of_nat (size (filter (fun kv => p kv.2 = true) data)).

(** [u] is a link of a page that answered 200 and is recorded at the depth
    before [d]. *)
Definition linked (http : transport) (c : AdvancedWebCrawler)
           (data : gmap string visit_record) (u : string) (d : Z) : Prop :=
  exists p ct cl tx,
    http p = Response 200 ct cl tx
    /\ data !! p = Some (StatusRecord 200 ct cl (d - 1))
    /\ u ∈ page_links c p tx.

(** Bookkeeping of a run whose seed answered: what is requested is
    recorded, what is discovered is recorded, and the counters count the
    records.  When the workers get past [time.sleep(self.delay)], what is
    recorded was requested and is what the transport answered; when they
    do not, every record but the seed's holds the error of the sleep. *)
Record run_books (http : transport) (s : run_state) : Prop := {
  books_requested : forall u,
    u ∈ requested (self s) -> is_Some (url_data (self s) !! u);
  books_asked : Time.sleep (delay (self s)) = Ok tt ->
    forall u, is_Some (url_data (self s) !! u) -> u ∈ requested (self s);
  books_record : Time.sleep (delay (self s)) = Ok tt ->
    forall u r, url_data (self s) !! u = Some r ->
    r = record_of (http u) (record_depth r);
  books_error : forall msg, Time.sleep (delay (self s)) = Raise msg ->
    forall u r, url_data (self s) !! u = Some r ->
    u <> base_url (self s) -> r = ErrorRecord msg (record_depth r);
  books_recorded : forall u, u ∈ discovered_urls (self s) ->
    is_Some (url_data (self s) !! u);
  books_visited : forall u, u ∈ visited (self s) ->
    u ∈ discovered_urls (self s)
    \/ exists f, f ∈ futures s /\ fut_url f = u;
  books_done : forall f, f ∈ futures s -> is_Some (fut_result f) ->
    is_Some (url_data (self s) !! fut_url f);
  books_pending : forall f, f ∈ futures s -> fut_result f = None ->
    url_data (self s) !! fut_url f = None;
  books_successful :
    successful_requests (stats (self s))
    = count_records has_status (url_data (self s));
  books_failed :
    failed_requests (stats (self s))
    = count_records (fun r => negb (has_status r)) (url_data (self s))
}.

(** Where the URLs of a run come from, [c] being the crawler as
    [__init__] left it. *)
Record run_links (http : transport) (c : AdvancedWebCrawler)
       (s : run_state) : Prop := {
  links_config : config (self s) = config c;
  links_queue : forall u d, (u, d) ∈ queue s ->
    1 <= d /\ linked http c (url_data (self s)) u d;
  links_futures : forall f, f ∈ futures s ->
    1 <= fut_depth f <= max_depth c
    /\ fut_url f <> base_url c
    /\ linked http c (url_data (self s)) (fut_url f) (fut_depth f);
  links_result : forall f res,
    f ∈ futures s -> fut_result f = Some res ->
    res = result_of (reply http c) c (fut_url f)
    /\ url_data (self s) !! fut_url f
       = Some (record_of (reply http c (fut_url f)) (fut_depth f));
  links_seed : exists ct cl,
    url_data (self s) !! base_url c = Some (StatusRecord 200 ct cl 0);
  links_requested : forall u, u ∈ requested (self s) ->
    u = base_url c \/ Time.sleep (delay c) = Ok tt;
  links_data : forall u r, url_data (self s) !! u = Some r ->
    u <> base_url c ->
    1 <= record_depth r <= max_depth c
    /\ linked http c (url_data (self s)) u (record_depth r);
  links_closed : forall p ct cl tx d,
    http p = Response 200 ct cl tx ->
    url_data (self s) !! p = Some (StatusRecord 200 ct cl d) ->
    d < max_depth c ->
    (exists f, f ∈ futures s /\ fut_url f = p)
    \/ forall u, u ∈ page_links c p tx ->
         u ∈ visited (self s) \/ (u, d + 1) ∈ queue s
}.

(** The pool of futures: its size, and the snapshot the main thread goes
    through. *)
Record run_pool (s : run_state) : Prop := {
  pool_bound :
    Z.of_nat (length (futures s)) <= Z.max 0 (2 * max_workers (self s));
  pool_snapshot : forall ids, at_ s = AtProcess ids ->
    NoDup ids
    /\ forall id, id ∈ ids -> is_Some (find_future id (futures s))
}.

(** The state [crawl] leaves when the seed answered, [r] being the record
    it stores. *)
Definition seed_answered (c : AdvancedWebCrawler) (r : visit_record)
  : AdvancedWebCrawler :=
  count_successful
    (discover (base_url c)
       (store (base_url c) r (request (base_url c) (visit (base_url c) c)))).

(** The invariants of the loop together. *)
Definition in_order (http : transport) (c : AdvancedWebCrawler)
           (s : run_state) : Prop :=
  run_inv s /\ run_books http s /\ run_links http c s /\ run_pool s.

End Ledger.

From stdpp Require Import sorting.

(** ** The report: [display_results] and [save_results]

    What the two methods compute from the state of [self] is modelled: the
    numbers and the lines they print or write, in their order.  The text
    around them (headings, the labels of the types, the JSON syntax), the
    elapsed time and the file system are not. *)

Module Report.
Import PyStr Crawler.

Local Open Scope Z_scope.

(** [sub in s] for strings. *)
Fixpoint has_sub (sub s : string) : bool :=
  startswith sub s
  || match s with
     | EmptyString => false
     | String _ s' => has_sub sub s'
     end.

(** [sorted(urls)]: strings are compared code point by code point. *)
Definition str_le (a b : string) : Prop := String.leb a b = true.

#[global] Instance str_le_dec a b : Decision (str_le a b).
Proof. unfold str_le. apply _. Defined.

Definition sorted (urls : list string) : list string :=
  merge_sort str_le urls.

(** The order of the pairs [(status, count)] and of the status codes. *)
Definition pair_le (a b : Z * nat) : Prop :=
  a.1 < b.1 \/ (a.1 = b.1 /\ (a.2 <= b.2)%nat).

#[global] Instance pair_le_dec a b : Decision (pair_le a b).
Proof. unfold pair_le. apply _. Defined.

(** [data['status_code']] when the key is there. *)
Definition record_status (r : visit_record) : option Z :=
  match r with
  | StatusRecord status_code _ _ _ => Some status_code
  | ErrorRecord _ _ => None
  end.

(** The number of entries of [url_data] with the status [status]. *)
Definition with_status (status : Z) (data : gmap string visit_record)
  : nat :=
  size (filter (fun kv => record_status kv.2 = Some status) data).

(** [d[key].append(url)] on a [defaultdict(list)], whose keys keep the
    order in which they were first used. *)
Fixpoint append_under {K} `{EqDecision K} (key : K) (url : string)
         (groups : list (K * list string)) : list (K * list string) :=
  match groups with
  | [] => [(key, [url])]
  | (key', urls) :: rest =>
      if decide (key = key') then (key', urls ++ [url]) :: rest
      else (key', urls) :: append_under key url rest
  end.

(** [d[key]] for a key that is there. *)
Definition under {K} `{EqDecision K} (key : K)
           (groups : list (K * list string)) : list string :=
  default [] (snd <$> List.find (fun g => bool_decide (g.1 = key)) groups).

(** *** [display_results] *)

(** The loop that fills [status_counts]: an entry of [url_data] with a
    ['status_code'] adds one under that code. *)
Definition status_counts (data : gmap string visit_record) : gmap Z nat :=
  map_fold
    (fun _ r counts =>
       match r with
       | StatusRecord status_code _ _ _ =>
           <[status_code := S (default 0%nat (counts !! status_code))]>
             counts
       | ErrorRecord _ _ => counts
       end)
    ∅ data.

(** [sorted(status_counts.items())]. *)
Definition status_lines (data : gmap string visit_record)
  : list (Z * nat) :=
  merge_sort pair_le (map_to_list (status_counts data)).

(** The keys of [paths_by_type], in the order of the [if] chain. *)
Inductive category : Type :=
| Admin | Api | Login | Php | Html | Js | Css | Other.

#[global] Instance category_eq_dec : EqDecision category.
Proof. solve_decision. Defined.

(** The [if] chain on [path]. *)
Definition classify (path : string) : category :=
  if has_sub "/admin" (lower path) then Admin
  else if has_sub "/api" (lower path) then Api
  else if has_sub "/login" (lower path) || has_sub "/auth" (lower path)
  then Login
  else if endswith ".php" path then Php
  else if endswith ".html" path || endswith ".htm" path then Html
  else if endswith ".js" path then Js
  else if endswith ".css" path then Css
  else Other.

(** The loop over [self.discovered_urls], iterated in the order [order];
    [urlparse] may raise. *)
Fixpoint paths_by_type (order : list string)
         (groups : list (category * list string))
  : result (list (category * list string)) :=
  match order with
  | [] => Ok groups
  | url :: rest =>
      parsed ← Urllib.urlparse url "";
      paths_by_type rest
        (append_under (classify (Urllib.path parsed)) url groups)
  end.

(** Well-kept groups: no key twice, no empty list, and each URL under
    the key [key_of] gives it. *)
Definition filed {K} (key_of : string -> K -> Prop)
           (groups : list (K * list string)) : Prop :=
  NoDup (fst <$> groups)
  /\ forall key urls, (key, urls) ∈ groups ->
       urls <> [] /\ forall u, u ∈ urls -> key_of u key.

(** The type [display_results] files a URL under. *)
Definition type_of (u : string) (t : category) : Prop :=
  exists p, Urllib.urlparse u "" = Ok p /\ classify (Urllib.path p) = t.






(** *** [save_results] *)

(** [f"crawl_results_{self.base_domain}_{timestamp}"]. *)
Definition base_filename (self : AdvancedWebCrawler) (timestamp : string)
  : string :=
  "crawl_results_" +:+ base_domain self +:+ "_" +:+ timestamp.

Definition txt_file (self : AdvancedWebCrawler) (timestamp : string) :=
  base_filename self timestamp +:+ ".txt".
Definition json_file (self : AdvancedWebCrawler) (timestamp : string) :=
  base_filename self timestamp +:+ ".json".
Definition list_file (self : AdvancedWebCrawler) (timestamp : string) :=
  base_filename self timestamp +:+ "_urls.txt".

(** [data.get('status_code', 0)] for [data = url_data.get(url, {})]. *)
Definition status_or_zero (data : gmap string visit_record) (url : string)
  : Z :=
  match data !! url with
  | Some (StatusRecord status_code _ _ _) => status_code
  | _ => 0
  end.

Definition urls_by_status (data : gmap string visit_record)
           (order : list string) : list (Z * list string) :=
  fold_left (fun groups url => append_under (status_or_zero data url)
                                 url groups)
            order [].

(** The body of the text file after its heading: for each status in
    [sorted(urls_by_status.keys())], the URLs in sorted order. *)
Definition txt_sections (self : AdvancedWebCrawler) (order : list string)
  : list (Z * list string) :=
  let groups := urls_by_status (url_data self) order in
  (fun status => (status, sorted (under status groups)))
    <$> merge_sort Z.le (fst <$> groups).

(** The list [results['urls']] of the JSON file: for each URL in sorted
    order, its dictionary of [url_data] (none for [{}]) with the URL. *)
Definition json_urls (self : AdvancedWebCrawler)
  : list (option visit_record * string) :=
  (fun url => (url_data self !! url, url))
    <$> sorted (elements (discovered_urls self)).

(** The text of the list file: one URL on each line, in sorted order. *)
Definition list_text (self : AdvancedWebCrawler) : string :=
  fold_right (fun url text => url +:+ String "010" text) ""
             (sorted (elements (discovered_urls self))).

End Report.

(** ** Concrete inputs *)

Module Examples.
Import Crawler.
Local Open Scope Z_scope.

(** The crawler [AdvancedWebCrawler('http://h/', depth, workers, delay)],
    and the one with the default delay of 0.2 seconds. *)
Definition crawler_hd (depth workers : Z) (delay : float)
  : AdvancedWebCrawler :=
  mkCrawler "http://h" depth workers delay "h" "http" ∅ ∅ ∅
    (mkStats 0 0 0) [].

Definition crawler_h (depth workers : Z) : AdvancedWebCrawler :=
  crawler_hd depth workers 0.2%float.

(** A target that refuses every connection. *)
Definition refused : transport := fun _ => ConnectionError.

(** A small site: the home page links to itself and to [/a], and [/a]
    answers 404 with a body that links to [/b]. *)
Definition site : transport := fun u =>
  if String.eqb u "http://h" then
    Response 200 "text/html" 39 "<a href='/'>home</a> <a href='/a'>a</a>"
  else if String.eqb u "http://h/" then
    Response 200 "text/html" 20 "<a href='/'>home</a>"
  else if String.eqb u "http://h/a" then
    Response 404 "text/html" 18 "<a href='/b'>b</a>"
  else ConnectionError.

(** The run of [crawl] on that site under the schedule of [next]. *)
Abbreviation site_run depth := (crawl_run site 20 (crawler_h depth 5)).

(** How that run ends with a depth bound of 2. *)
Definition site_outcome : outcome :=
  default (Returned (crawler_h 2 5)) (site_run 2).

(** A page whose first [href] cannot be parsed, followed by a good one. *)
Definition page_bad_href : string :=
  "<link href='http://[x'><link href='/good'>".

(** A page with a path in a script that carries a query and a fragment. *)
Definition page_query : string :=
  "<script>fetch('/search?q=1#top')</script>".

End Examples.

(** ** More concrete inputs *)

Module Samples.
Import Crawler Ledger Examples.
Local Open Scope Z_scope.

(** [crawl] on the small site up to the call of [_threaded_crawl]: the
    state of [self], the links of the home page, the state in which the
    loop starts and the one in which it ends under the schedule of
    [next]. *)
Definition site_seeded : AdvancedWebCrawler :=
  seed_state (crawl_seed site (crawler_h 2 5)).

Definition site_links : gset string :=
  page_links (crawler_h 2 5) "http://h"
    "<a href='/'>home</a> <a href='/a'>a</a>".

Definition site_start : run_state :=
  start site_seeded (elements site_links).

Definition site_end : run_state :=
  default site_start (run site 20 site_start).

(** A target whose home page answers 404. *)
Definition gone : transport := fun _ => Response 404 "text/html" 9 "not found".

End Samples.

(** * Facts *)

#[local] Arguments String.append !_ _ /.

Section StringFacts.
Import PyStr.

Lemma app_assoc_s (a b c : string) : (a +:+ b) +:+ c = a +:+ (b +:+ c).
Proof. induction a as [|x a IH]; simpl; [done | by f_equal]. Qed.

Lemma app_nil_r_s (a : string) : a +:+ "" = a.
Proof. induction a as [|x a IH]; simpl; [done | by f_equal]. Qed.

Lemma remove_app p (a b : string) :
  remove p (a +:+ b) = remove p a +:+ remove p b.
Proof.
  induction a as [|x a IH]; simpl; [done|].
  destruct (p x); simpl; by f_equal.
Qed.

Lemma remove_id p (a : string) :
  all (fun x => negb (p x)) a = true -> remove p a = a.
Proof.
  induction a as [|x a IH]; simpl; [done|].
  intros [Hx Ha]%andb_prop. destruct (p x); [done|]. by rewrite IH.
Qed.

Lemma all_app p (a b : string) :
  all p (a +:+ b) = all p a && all p b.
Proof.
  induction a as [|x a IH]; simpl; [done|]. by rewrite IH, andb_assoc.
Qed.

Lemma all_impl (p q : ascii -> bool) (a : string) :
  (forall x, p x = true -> q x = true) -> all p a = true -> all q a = true.
Proof.
  intros Hpq. induction a as [|x a IH]; simpl; [done|].
  intros [Hx Ha]%andb_prop. rewrite (Hpq _ Hx). by apply IH.
Qed.

Lemma partition_app_fresh c (a b : string) :
  all (fun x => negb (Ascii.eqb x c)) a = true ->
  partition c (a +:+ String c b) = Some (a, b).
Proof.
  induction a as [|x a IH]; simpl.
  - intros _. by rewrite Ascii.eqb_refl.
  - intros [Hx Ha]%andb_prop. apply negb_true_iff in Hx. rewrite Hx.
    by rewrite (IH Ha).
Qed.

Lemma span_until_app p (a b : string) :
  all (fun x => negb (p x)) a = true ->
  match b with EmptyString => True | String y _ => p y = true end ->
  span_until p (a +:+ b) = (a, b).
Proof.
  induction a as [|x a IH]; simpl.
  - intros _ Hb. destruct b as [|y b]; [done|]. simpl. by rewrite Hb.
  - intros [Hx Ha]%andb_prop Hb. apply negb_true_iff in Hx. rewrite Hx.
    by rewrite (IH Ha Hb).
Qed.

Lemma all_span_until p q (s : string) :
  all q s = true -> all q (span_until p s).1 = true.
Proof.
  induction s as [|x s IH]; simpl; [done|].
  intros [Hx Hs]%andb_prop. destruct (p x); [done|].
  destruct (span_until p s) as [l r]. simpl in *. by rewrite Hx, IH.
Qed.

Lemma span_until_fst_none p (s : string) :
  all (fun x => negb (p x)) (span_until p s).1 = true.
Proof.
  induction s as [|x s IH]; simpl; [done|].
  destruct (p x) eqn:Hx; [done|].
  destruct (span_until p s) as [l r]. simpl in *. by rewrite Hx, IH.
Qed.

Lemma all_drop q n (s : string) : all q s = true -> all q (drop n s) = true.
Proof.
  revert s. induction n as [|n IH]; intros [|x s]; simpl; try done.
  intros [_ Hs]%andb_prop. by apply IH.
Qed.

Lemma all_remove p (s : string) : all (fun x => negb (p x)) (remove p s) = true.
Proof.
  induction s as [|x s IH]; simpl; [done|].
  destruct (p x) eqn:Hx; [done|]. simpl. by rewrite Hx, IH.
Qed.

Lemma all_partition q c (s l r : string) :
  all q s = true -> partition c s = Some (l, r) ->
  all q l = true /\ all q r = true.
Proof.
  revert l r. induction s as [|x s IH]; simpl; [done|].
  intros l r [Hx Hs]%andb_prop.
  destruct (Ascii.eqb x c).
  - intros [= <- <-]. done.
  - destruct (partition c s) as [[l' r']|]; [|done].
    intros [= <- <-]. destruct (IH _ _ Hs eq_refl) as [Hl Hr].
    simpl. by rewrite Hx, Hl, Hr.
Qed.

Lemma partition_fst_fresh c (s l r : string) :
  partition c s = Some (l, r) ->
  all (fun x => negb (Ascii.eqb x c)) l = true /\ s = l +:+ String c r.
Proof.
  revert l r. induction s as [|x s IH]; simpl; [done|].
  intros l r. destruct (Ascii.eqb x c) eqn:Hx.
  - intros [= <- <-]. apply Ascii.eqb_eq in Hx. by subst.
  - destruct (partition c s) as [[l' r']|]; [|done].
    intros [= <- <-]. destruct (IH _ _ eq_refl) as [Hl ->].
    simpl. by rewrite Hx, Hl.
Qed.
End StringFacts.

Section UrllibFacts.
Import PyStr Urllib.

Lemma lower_char_scheme a : scheme_char a = true -> scheme_char (lower_char a) = true.
Proof. destruct a as [[] [] [] [] [] [] [] []]; vm_compute; done. Qed.

Lemma lower_char_alpha a : isalpha a = true -> isalpha (lower_char a) = true.
Proof. destruct a as [[] [] [] [] [] [] [] []]; vm_compute; done. Qed.

Lemma scheme_char_safe a :
  scheme_char a = true ->
  negb (unsafe_url_byte a) = true /\ negb (Ascii.eqb a ":") = true.
Proof. destruct a as [[] [] [] [] [] [] [] []]; vm_compute; done. Qed.

Lemma alpha_not_c0 a : isalpha a = true -> c0_control_or_space a = false.
Proof. destruct a as [[] [] [] [] [] [] [] []]; vm_compute; done. Qed.

Lemma delim_safe a : netloc_delim a = true -> unsafe_url_byte a = false.
Proof. destruct a as [[] [] [] [] [] [] [] []]; vm_compute; done. Qed.

Lemma all_lower_scheme s : all scheme_char s = true -> all scheme_char (lower s) = true.
Proof.
  induction s as [|x s IH]; simpl; [done|].
  intros [Hx Hs]%andb_prop. by rewrite lower_char_scheme, IH.
Qed.

Lemma split_scheme_cases url s sch url' :
  split_scheme url s = (sch, url') ->
  (sch = s /\ url' = url)
  \/ (valid_scheme sch = true /\ exists pre, partition ":" url = Some (pre, url')).
Proof.
  unfold split_scheme.
  destruct (partition ":" url) as [[[|a pre] rest]|] eqn:Hp;
    try (intros [= <- <-]; by left).
  destruct (isalpha a && all scheme_char (String a pre)) eqn:Hc;
    [|intros [= <- <-]; by left].
  intros [= <- <-]. right. split; [|by eexists].
  apply andb_prop in Hc as [Ha Hall].
  unfold valid_scheme. change (lower (String a pre)) with (String (lower_char a) (lower pre)).
  rewrite lower_char_alpha by done.
  change (String (lower_char a) (lower pre)) with (lower (String a pre)).
  by rewrite all_lower_scheme.
Qed.

Lemma split_netloc_clean url loc rest :
  all (fun x => negb (unsafe_url_byte x)) url = true ->
  split_netloc url = Ok (loc, rest) -> clean_netloc loc = true.
Proof.
  intros Hsafe. unfold split_netloc, _splitnetloc.
  destruct (startswith "//" url); [|by intros [= <- <-]].
  pose proof (span_until_fst_none netloc_delim (drop 2 url)) as Hd.
  pose proof (all_span_until netloc_delim _ (drop 2 url) (all_drop _ 2 _ Hsafe)) as Hs.
  destruct (span_until netloc_delim (drop 2 url)) as [n r]. simpl in *.
  repeat case_match; try done. intros [= <- <-].
  unfold clean_netloc, netloc_char. clear -Hd Hs.
  induction n as [|x n IH]; simpl in *; [done|].
  apply andb_prop in Hd as [-> Hd]. apply andb_prop in Hs as [-> Hs]. simpl. auto.
Qed.

Lemma urlsplit_netloc_clean url s r :
  urlsplit url s = Ok r -> clean_netloc (s_netloc r) = true.
Proof.
  unfold urlsplit.
  set (u1 := remove unsafe_url_byte (lstrip c0_control_or_space url)).
  set (s1 := remove unsafe_url_byte _).
  destruct (split_scheme u1 s1) as [sch u2] eqn:Hsch.
  assert (all (fun x => negb (unsafe_url_byte x)) u2 = true) as Hu2.
  { apply split_scheme_cases in Hsch as [[_ ->]|[_ [pre Hp]]].
    - apply all_remove.
    - eapply all_partition in Hp as [_ ?]; [done|apply all_remove]. }
  destruct (split_netloc u2) as [[loc rest]|] eqn:Hn; [|done].
  simpl. repeat case_match; intros [= <-]; simpl;
    by eapply split_netloc_clean.
Qed.

Lemma urlsplit_scheme_valid url r :
  urlsplit url "" = Ok r -> s_scheme r = "" \/ valid_scheme (s_scheme r) = true.
Proof.
  unfold urlsplit.
  set (u1 := remove unsafe_url_byte (lstrip c0_control_or_space url)).
  change (remove unsafe_url_byte (rstrip c0_control_or_space (lstrip c0_control_or_space ""))) with "".
  destruct (split_scheme u1 "") as [sch u2] eqn:Hsch.
  destruct (split_netloc u2) as [[loc rest]|] eqn:Hn; [|done].
  simpl. apply split_scheme_cases in Hsch as [[-> _]|[Hv _]];
    repeat case_match; intros [= <-]; simpl; auto.
Qed.

Lemma urlunsplit_shape sch loc url q f :
  sch <> "" -> loc <> "" ->
  exists tail, tail_ok tail
    /\ urlunsplit sch loc url q f = sch +:+ String ":" (String "/" (String "/" (loc +:+ tail))).
Proof.
  intros Hs Hl. unfold urlunsplit.
  destruct loc as [|l0 loc]; [done|]. destruct sch as [|s0 sch]; [done|].
  cbn [is_empty negb orb andb].
  set (url' := if negb (is_empty url) && negb (startswith "/" url) then "/" +:+ url else url).
  assert (tail_ok url') as Hurl'.
  { subst url'. destruct url as [|y url]; [done|]. cbn [is_empty negb andb].
    destruct (startswith "/" (String y url)) eqn:Hy; simpl; [|done].
    cbn [startswith] in Hy. apply andb_prop in Hy as [Hy _]. apply Ascii.eqb_eq in Hy as <-. done. }
  assert (forall t, tail_ok t -> forall c, netloc_delim c = true -> forall x, tail_ok (t +:+ String c x)) as Hext.
  { intros [|y t]; simpl; auto. }
  destruct q as [|q0 q], f as [|f0 f]; cbn [is_empty negb].
  - exists url'. split; [done|]. by repeat (simpl; rewrite ?app_assoc_s).
  - exists (url' +:+ String "#" (String f0 f)). split; [by apply Hext|].
    by repeat (simpl; rewrite ?app_assoc_s).
  - exists (url' +:+ String "?" (String q0 q)). split; [by apply Hext|].
    by repeat (simpl; rewrite ?app_assoc_s).
  - exists (url' +:+ String "?" (String q0 q +:+ String "#" (String f0 f))).
    split; [by apply Hext|].
    by repeat (simpl; rewrite ?app_assoc_s).
Qed.

Lemma tail_ok_remove tail : tail_ok tail -> tail_ok (remove unsafe_url_byte tail).
Proof.
  destruct tail as [|y t]; simpl; [done|]. intros Hy.
  by rewrite (delim_safe _ Hy).
Qed.

Lemma urlsplit_urlunsplit_netloc sch loc url q f r :
  valid_scheme sch = true -> clean_netloc loc = true -> loc <> "" ->
  urlsplit (urlunsplit sch loc url q f) "" = Ok r -> s_netloc r = loc.
Proof.
  intros Hsch Hloc Hne.
  destruct sch as [|a pre]; [done|].
  destruct (urlunsplit_shape (String a pre) loc url q f) as (tail & Htail & ->); [done..|].
  apply andb_prop in Hsch as [Ha Hall].
  unfold urlsplit.
  change (remove unsafe_url_byte (rstrip c0_control_or_space (lstrip c0_control_or_space ""))) with "".
  assert (lstrip c0_control_or_space (String a pre +:+ String ":" (String "/" (String "/" (loc +:+ tail))))
          = String a pre +:+ String ":" (String "/" (String "/" (loc +:+ tail)))) as ->.
  { simpl. by rewrite alpha_not_c0. }
  rewrite remove_app.
  rewrite (remove_id _ (String a pre)) by (eapply all_impl; [|exact Hall]; intros x Hx; by apply scheme_char_safe).
  change (remove unsafe_url_byte (String ":" (String "/" (String "/" (loc +:+ tail)))))
    with (String ":" (String "/" (String "/" (remove unsafe_url_byte (loc +:+ tail))))).
  rewrite remove_app.
  rewrite (remove_id _ loc) by (eapply all_impl; [|exact Hloc]; intros x Hx; by apply andb_prop in Hx as [_ ?]).
  unfold split_scheme.
  rewrite partition_app_fresh by (eapply all_impl; [|exact Hall]; intros x Hx; by apply scheme_char_safe).
  rewrite Ha, Hall. cbn [andb].
  unfold split_netloc, _splitnetloc.
  change (startswith "//" (String "/" (String "/" ?x))) with true. cbn [drop].
  rewrite span_until_app; cycle 1.
  { eapply all_impl; [|exact Hloc]. intros x Hx. by apply andb_prop in Hx as [? _]. }
  { by apply tail_ok_remove. }
  destruct (_ || _); [done|]. destruct (_ && negb _); [done|].
  simpl. repeat case_match; intros [= <-]; done.
Qed.
End UrllibFacts.

Section RegexFacts.
(** [findall] never runs out of fuel: each round of the scan moves at
    least one character on, so any fuel above the length of the input
    gives the same list. *)
Lemma findall_from_fuel r fuel1 fuel2 s :
  String.length s < fuel1 -> String.length s < fuel2 ->
  Re.findall_from fuel1 r s = Re.findall_from fuel2 r s.
Proof.
  revert fuel2 s.
  induction fuel1 as [|fuel1 IH]; intros fuel2 s H1 H2; [lia|].
  destruct fuel2 as [|fuel2]; [lia|].
  cbn [Re.findall_from].
  assert (Htail : match s with
                  | String _ t => Re.findall_from fuel1 r t
                  | EmptyString => []
                  end
                  = match s with
                    | String _ t => Re.findall_from fuel2 r t
                    | EmptyString => []
                    end).
  { destruct s as [|a t]; [done|]. cbn [String.length] in H1, H2.
    apply IH; lia. }
  destruct (Re.match_here r s) as [[s' item]|]; [|exact Htail].
  f_equal.
  destruct (String.length s' <? String.length s) eqn:Hlt; [|exact Htail].
  apply Nat.ltb_lt in Hlt. apply IH; lia.
Qed.

Lemma findall_fuel r s fuel :
  String.length s < fuel -> Re.findall_from fuel r s = Re.findall r s.
Proof. intros H. unfold Re.findall. apply findall_from_fuel; lia. Qed.
End RegexFacts.

Section ExtractionFacts.
Import PyStr Crawler.

Lemma urlparse_urlsplit u s p :
  Urllib.urlparse u s = Ok p ->
  exists sp, Urllib.urlsplit u s = Ok sp
    /\ Urllib.netloc p = Urllib.s_netloc sp
    /\ Urllib.scheme p = Urllib.s_scheme sp.
Proof.
  unfold Urllib.urlparse. destruct (Urllib.urlsplit u s) as [sp|]; [|done].
  simpl. case_match. intros [= <-]. by exists sp.
Qed.

Lemma urlunparse_urlunsplit p :
  exists url, Urllib.urlunparse p
    = Urllib.urlunsplit (Urllib.scheme p) (Urllib.netloc p) url
        (Urllib.query p) (Urllib.fragment p).
Proof. unfold Urllib.urlunparse. by eexists. Qed.

Lemma init_well_formed url d w dl c : init url d w dl = Ok c -> well_formed c.
Proof.
  unfold init. destruct (Urllib.urlparse url "") as [p|] eqn:Hp; [|done].
  simpl. intros [= <-]. unfold well_formed. simpl.
  apply urlparse_urlsplit in Hp as (sp & Hsp & -> & ->). split.
  - destruct (urlsplit_scheme_valid _ _ Hsp) as [->|Hv]; [done|].
    destruct (Urllib.s_scheme sp); done.
  - by eapply urlsplit_netloc_clean.
Qed.

Lemma normalize_url_netloc c x u p :
  well_formed c -> base_domain c <> "" ->
  normalize_url c x = Ok u -> Urllib.urlparse u "" = Ok p ->
  Urllib.netloc p <> "".
Proof.
  intros [Hsch Hdom] Hne. unfold normalize_url.
  destruct (Urllib.urlparse x "") as [q|] eqn:Hq; [|done]. simpl.
  intros [= <-] Hp.
  apply urlparse_urlsplit in Hq as (sq & Hsq & Hnl & Hsc).
  apply urlparse_urlsplit in Hp as (sp & Hsp & -> & _).
  match type of Hsp with
  | Urllib.urlsplit (Urllib.urlunparse ?r) _ = _ =>
      destruct (urlunparse_urlunsplit r) as [url Hurl]
  end.
  rewrite Hurl in Hsp. simpl in Hsp.
  apply urlsplit_urlunsplit_netloc in Hsp.
  - rewrite Hsp. destruct (Urllib.netloc q) eqn:E; simpl; done.
  - destruct (Urllib.scheme q) eqn:E; simpl; [done|].
    destruct (urlsplit_scheme_valid _ _ Hsq) as [E'|Hv]; [congruence|].
    by rewrite <- Hsc in Hv.
  - destruct (Urllib.netloc q) eqn:E; simpl; [done|].
    rewrite Hnl. by eapply urlsplit_netloc_clean.
  - destruct (Urllib.netloc q) eqn:E; simpl; done.
Qed.

Lemma is_valid_link_netloc c u :
  is_valid_link c u = true ->
  exists p, Urllib.urlparse u "" = Ok p
    /\ (Urllib.netloc p = "" \/ Urllib.netloc p = base_domain c).
Proof.
  unfold is_valid_link.
  destruct (Urllib.urlparse u "") as [p|]; [|done].
  intros H. exists p. split; [done|].
  destruct (Urllib.netloc p) as [|a n] eqn:E; [by left|right].
  cbn [is_empty negb andb] in H.
  destruct (String.eqb (String a n) (base_domain c)) eqn:Heq; [|done].
  by apply String.eqb_eq in Heq.
Qed.

Lemma accepted_host c x u :
  well_formed c -> normalize_url c x = Ok u -> is_valid_link c u = true ->
  host u = Some (base_domain c).
Proof.
  intros Hwf Hn Hv.
  destruct (is_valid_link_netloc _ _ Hv) as (p & Hp & Hloc).
  unfold host. rewrite Hp. f_equal.
  destruct Hloc as [Hloc|Hloc]; [|done].
  destruct (decide (base_domain c = "")) as [->|Hne]; [done|].
  by destruct (normalize_url_netloc c x u p).
Qed.

Lemma extract_link_host c page link u :
  well_formed c -> extract_link c page link = Ok (Some u) ->
  host u = Some (base_domain c).
Proof.
  intros Hwf. unfold extract_link.
  destruct (is_empty (strip link)); [done|].
  destruct (_ || _); [done|].
  match goal with
  | |- context [mbind _ ?m] => destruct m as [a|] eqn:Ha; [|done]
  end.
  simpl. destruct (normalize_url c a) as [v|] eqn:Hn; [|done].
  simpl. destruct (is_valid_link c v) eqn:Hv; [|done].
  intros [= <-]. by eapply accepted_host.
Qed.

Lemma mine_path_host c path u :
  well_formed c -> mine_path c path = Ok (Some u) ->
  host u = Some (base_domain c).
Proof.
  intros Hwf. unfold mine_path.
  destruct (normalize_url c _) as [v|] eqn:Hn; [|done].
  simpl. destruct (is_valid_link c v) eqn:Hv; [|done].
  intros [= <-]. by eapply accepted_host.
Qed.

(** Whatever [collect] adds comes from a match the body accepted. *)
Lemma collect_elem body found links u :
  u ∈ (collect body found links).1 ->
  u ∈ links \/ exists x, x ∈ found /\ body x = Ok (Some u).
Proof.
  revert links. induction found as [|x found IH]; simpl; intros links.
  - by left.
  - destruct (body x) as [[v|]|] eqn:Hb; simpl.
    + intros [Hu|(y & Hy & Hby)]%IH.
      * apply elem_of_union in Hu as [Hu|Hu]; [|by left].
        apply elem_of_singleton in Hu as ->. right. exists x.
        split; [left|done].
      * right. exists y. split; [by right|done].
    + intros [Hu|(y & Hy & Hby)]%IH; [by left|].
      right. exists y. split; [by right|done].
    + by left.
Qed.

Lemma collect_mono body found links :
  links ⊆ (collect body found links).1.
Proof.
  revert links. induction found as [|x found IH]; simpl; intros links; [done|].
  destruct (body x) as [[v|]|]; simpl; [|by apply IH|done].
  etrans; [|apply IH]. set_solver.
Qed.

Lemma extract_links_host c page html u :
  well_formed c -> u ∈ extract_links c page html ->
  host u = Some (base_domain c).
Proof.
  intros Hwf. unfold extract_links.
  assert (forall pats (acc : gset string),
             (forall v, v ∈ acc -> host v = Some (base_domain c)) ->
             forall v, v ∈ fold_left
                      (fun links pattern =>
                         (collect (extract_link c page)
                            (Re.findall pattern html) links).1) pats acc ->
                       host v = Some (base_domain c)) as Hfold.
  { induction pats as [|p pats IH]; simpl; intros acc Hacc v; [by apply Hacc|].
    apply IH. intros w [Hw|(x & _ & Hx)]%collect_elem; [by apply Hacc|].
    by eapply extract_link_host. }
  apply Hfold. set_solver.
Qed.

Lemma mine_patterns_host c pats html acc u :
  well_formed c ->
  (forall v, v ∈ acc -> host v = Some (base_domain c)) ->
  u ∈ (mine_patterns c pats html acc).1 -> host u = Some (base_domain c).
Proof.
  intros Hwf. revert acc. induction pats as [|p pats IH]; simpl; intros acc Hacc.
  - by apply Hacc.
  - destruct (collect _ _ acc) as [acc' [[]|e]] eqn:Hc.
    + apply IH. intros v Hv. replace acc' with (collect (mine_path c) (Re.findall p html) acc).1 in Hv by (by rewrite Hc).
      apply collect_elem in Hv as [Hv|(x & _ & Hx)]; [by apply Hacc|].
      by eapply mine_path_host.
    + simpl. intros Hv. replace acc' with (collect (mine_path c) (Re.findall p html) acc).1 in Hv by (by rewrite Hc).
      apply collect_elem in Hv as [Hv|(x & _ & Hx)]; [by apply Hacc|].
      by eapply mine_path_host.
Qed.

Lemma mine_comments_host c comments acc u :
  well_formed c ->
  (forall v, v ∈ acc -> host v = Some (base_domain c)) ->
  u ∈ (mine_comments c comments acc).1 -> host u = Some (base_domain c).
Proof.
  intros Hwf. revert acc. induction comments as [|p pats IH]; simpl; intros acc Hacc.
  - by apply Hacc.
  - destruct (collect _ _ acc) as [acc' [[]|e]] eqn:Hc.
    + apply IH. intros v Hv. replace acc' with (collect (mine_path c) (Re.findall Re.comment_path_pattern p) acc).1 in Hv by (by rewrite Hc).
      apply collect_elem in Hv as [Hv|(x & _ & Hx)]; [by apply Hacc|].
      by eapply mine_path_host.
    + simpl. intros Hv. replace acc' with (collect (mine_path c) (Re.findall Re.comment_path_pattern p) acc).1 in Hv by (by rewrite Hc).
      apply collect_elem in Hv as [Hv|(x & _ & Hx)]; [by apply Hacc|].
      by eapply mine_path_host.
Qed.

Lemma find_potential_paths_host c html u :
  well_formed c -> u ∈ find_potential_paths c html ->
  host u = Some (base_domain c).
Proof.
  intros Hwf. unfold find_potential_paths.
  destruct (mine_patterns c Re.js_patterns html ∅) as [paths [[]|e]] eqn:Hm.
  - apply mine_comments_host; [done|].
    intros v Hv. replace paths with (mine_patterns c Re.js_patterns html ∅).1 in Hv by (by rewrite Hm).
    eapply mine_patterns_host; [done| |exact Hv]. set_solver.
  - intros Hv. replace paths with (mine_patterns c Re.js_patterns html ∅).1 in Hv by (by rewrite Hm).
    eapply mine_patterns_host; [done| |exact Hv]. set_solver.
Qed.
End ExtractionFacts.


Section RunFacts.
Import Crawler.
Local Open Scope Z_scope.
Variable http : transport.

Lemma fetch_url_spec c url depth c' src links st :
  fetch_url http c url depth = (c', (src, links, st)) ->
  config c' = config c /\ visited c' = visited c
  /\ discovered_urls c' = discovered_urls c
  /\ (Time.sleep (delay c) = Ok tt
      /\ requested c' = requested c ++ [url]
      /\ total_requests (stats c') = total_requests (stats c) + 1
      \/ (exists msg, Time.sleep (delay c) = Raise msg)
         /\ requested c' = requested c
         /\ total_requests (stats c') = total_requests (stats c))
  /\ src = url
  /\ (well_formed c -> forall l, l ∈ links -> host l = Some (base_domain c))
  /\ (exists r, url_data c' = <[url := r]> (url_data c)
                /\ record_depth r = depth)
  /\ successful_requests (stats c') + failed_requests (stats c')
     = successful_requests (stats c) + failed_requests (stats c) + 1
  /\ successful_requests (stats c) <= successful_requests (stats c')
  /\ failed_requests (stats c) <= failed_requests (stats c').
Proof.
  unfold fetch_url.
  destruct (Time.sleep (delay c)) as [[]|msg] eqn:Hsl;
    [destruct (http url) as [sc ct cl tx| | |m]|];
    intros [= <- <- <- <-]; simpl;
    split_and!; try done; try lia;
    try (left; split_and!; simpl; by rewrite ?app_nil_r);
    try (right; split_and!; simpl; [by eexists|done..]);
    try (eexists; split; [reflexivity|done]);
    try (intros _ l Hl; by apply not_elem_of_empty in Hl).
  intros Hwf l [Hl|Hl]%elem_of_union.
  - by apply extract_links_host in Hl.
  - by apply find_potential_paths_host in Hl.
Qed.

Lemma find_future_elem id fs f :
  find_future id fs = Some f -> f ∈ fs /\ fut_id f = id.
Proof.
  unfold find_future. intros H. apply find_some in H as [Hin Heq].
  split; [by apply list_elem_of_In|]. by apply Nat.eqb_eq in Heq.
Qed.

Lemma elem_of_pop_future g id fs :
  g ∈ pop_future id fs <-> fut_id g <> id /\ g ∈ fs.
Proof.
  unfold pop_future. rewrite list_elem_of_filter.
  destruct (Nat.eqb_spec (fut_id g) id); simpl; intuition.
Qed.

Lemma pop_future_sublist id fs : pop_future id fs `sublist_of` fs.
Proof. apply sublist_filter. Qed.

Lemma done_count_pop f fs r :
  NoDup (fut_id <$> fs) -> f ∈ fs -> fut_result f = Some r ->
  done_count (pop_future (fut_id f) fs) = done_count fs - 1.
Proof.
  unfold pop_future. induction fs as [|g fs IH]; simpl.
  - intros _ H. by apply elem_of_nil in H.
  - intros [Hg Hnd]%NoDup_cons [E|Hin]%elem_of_cons Hr.
    + subst g. rewrite filter_cons_False by (simpl; rewrite Nat.eqb_refl; auto).
      rewrite Hr.
      assert (filter (fun g => negb (Nat.eqb (fut_id g) (fut_id f))) fs = fs) as ->; [|lia].
      clear -Hg. induction fs as [|h fs IH]; [done|].
      rewrite filter_cons_True.
      * f_equal. apply IH. intros Hin. apply Hg. rewrite fmap_cons. by right.
      * destruct (Nat.eqb_spec (fut_id h) (fut_id f)) as [E|]; [|done].
        exfalso. apply Hg. rewrite <- E. set_solver.
    + assert (fut_id g <> fut_id f) as Hne.
      { intros E. apply Hg. rewrite E. by apply list_elem_of_fmap_2. }
      rewrite filter_cons_True by (by destruct (Nat.eqb_spec (fut_id g) (fut_id f))).
      simpl. rewrite IH by done. lia.
Qed.

Lemma done_count_app fs gs :
  done_count (fs ++ gs) = done_count fs + done_count gs.
Proof. induction fs as [|f fs IH]; simpl; [done|]. rewrite IH. lia. Qed.

Lemma inv_move s p : run_inv s -> run_inv (move s p).
Proof. intros []. by constructor. Qed.

Lemma inv_to_process s : run_inv s -> run_inv (to_process s).
Proof. intros []. by constructor. Qed.

Lemma inv_submit s url depth rest :
  run_inv s -> queue s = (url, depth) :: rest ->
  run_inv (submit s url depth rest).
Proof.
  intros [] Hq. unfold submit.
  assert (forall u d, (u, d) ∈ rest -> (u, d) ∈ queue s) as Hrest.
  { intros u d H. rewrite Hq. by right. }
  assert (host url = Some (base_domain (self s))) as Hurl.
  { apply (inv_queue0 url depth). rewrite Hq. by left. }
  destruct (bool_decide (url ∉ visited (self s))) eqn:Hv;
    [destruct (depth <=? max_depth (self s)) eqn:Hd|]; simpl.
  2,3: constructor; simpl; eauto.
  apply bool_decide_eq_true in Hv. apply Z.leb_le in Hd.
  constructor; simpl; try done.
  - rewrite fmap_app. apply NoDup_app. split; [done|]. split.
    + intros i Hi Hi'. apply list_elem_of_singleton in Hi'. subst i.
      apply list_elem_of_fmap in Hi as (f & E & Hf).
      apply inv_next0 in Hf. simpl in E. lia.
    + apply NoDup_singleton.
  - intros f [Hf|Hf]%elem_of_app.
    + apply inv_next0 in Hf. lia.
    + apply list_elem_of_singleton in Hf. subst f. simpl. lia.
  - intros u [Hu|Hu]%elem_of_union; [|by apply inv_visited0].
    apply elem_of_singleton in Hu. subst u. by right.
  - eauto.
  - intros f [Hf|Hf]%elem_of_app; [by apply inv_fut_host0|].
    apply list_elem_of_singleton in Hf. by subst f.
  - intros f [Hf|Hf]%elem_of_app.
    + apply elem_of_union. right. by apply inv_fut_visited0.
    + apply list_elem_of_singleton in Hf. subst f. simpl.
      apply elem_of_union. left. by apply elem_of_singleton.
  - intros f [Hf|Hf]%elem_of_app; [by apply inv_fut_depth0|].
    apply list_elem_of_singleton in Hf. by subst f.
  - intros f src links st [Hf|Hf]%elem_of_app; [by apply inv_fut_result0|].
    apply list_elem_of_singleton in Hf. by subst f.
  - intros u Hu. apply elem_of_union. right. by apply inv_discovered0.
  - intros u r Hr. destruct (inv_data0 u r Hr) as [? ?]. split; [|done].
    apply elem_of_union. by right.
  - intros u Hu. apply elem_of_union. right. by apply inv_requested0.
  - intros Hsl. specialize (inv_total0 Hsl).
    rewrite done_count_app. simpl. lia.
  - rewrite fmap_app. apply NoDup_app. split; [done|]. split.
    + intros u Hu Hu'. apply list_elem_of_singleton in Hu'. subst u.
      apply list_elem_of_fmap in Hu as (f & E & Hf).
      apply inv_fut_visited0 in Hf. simpl in E. by rewrite <- E in Hf.
    + apply NoDup_singleton.
  - intros f [Hf|Hf]%elem_of_app Hr; [by apply inv_pending0|].
    apply list_elem_of_singleton in Hf. subst f. simpl.
    intros Hreq. by apply inv_requested0 in Hreq.
Qed.

Lemma inv_consume s f src links st order rest :
  run_inv s -> f ∈ futures s -> fut_result f = Some (src, links, st) ->
  order ≡ₚ elements links ->
  run_inv (consume s f (src, links, st) order rest).
Proof.
  intros [] Hf Hr Ho. unfold consume.
  destruct (inv_fut_result0 f src links st Hf Hr) as [-> Hlinks].
  assert (forall g, g ∈ pop_future (fut_id f) (futures s) -> g ∈ futures s) as Hpop.
  { intros g Hg. by apply elem_of_pop_future in Hg as [_ ?]. }
  constructor; simpl; try done; eauto.
  - eapply sublist_NoDup; [exact inv_ids0|].
    apply fmap_sublist, pop_future_sublist.
  - intros u d. destruct (_ && _); [|by apply inv_queue0].
    intros [Hu|Hu]%elem_of_app; [by eapply inv_queue0|].
    unfold new_entries in Hu.
    apply list_elem_of_fmap in Hu as (l & [= -> ->] & Hl).
    apply list_elem_of_filter in Hl as [_ Hl].
    apply Hlinks. rewrite Ho in Hl. by apply elem_of_elements in Hl.
  - intros u [Hu|Hu]%elem_of_union; [|by apply inv_discovered0].
    apply elem_of_singleton in Hu. subst u. by apply inv_fut_visited0.
  - intros Hsl. specialize (inv_total0 Hsl).
    rewrite (done_count_pop f _ _ inv_ids0 Hf Hr). lia.
  - eapply sublist_NoDup; [exact inv_fut_urls0|].
    apply fmap_sublist, pop_future_sublist.
Qed.

Lemma inv_complete s pre f post :
  run_inv s -> futures s = pre ++ f :: post -> fut_result f = None ->
  run_inv (complete http s pre f post).
Proof.
  intros [] Hfs Hr. unfold complete.
  destruct (fetch_url http (self s) (fut_url f) (fut_depth f))
    as [c' [[src links] st]] eqn:Hfetch.
  apply fetch_url_spec in Hfetch
    as (Hcfg & Hvis & Hdis & Hreq & -> & Hhost & (r & Hdata & Hdepth) & Hans
        & Hsucc & Hfail).
  injection Hcfg as Hbu Hmd Hmw Hdl Hbd Hsc.
  assert (f ∈ futures s) as Hf
    by (rewrite Hfs; apply elem_of_app; right; left).
  assert (forall g, g ∈ pre ++ mkFuture (fut_id f) (fut_url f) (fut_depth f)
                           (Some (fut_url f, links, st)) :: post ->
                    g = mkFuture (fut_id f) (fut_url f) (fut_depth f)
                          (Some (fut_url f, links, st))
                    \/ (g ∈ futures s /\ g <> f /\ fut_url g <> fut_url f)) as Hcase.
  { intros g Hg. rewrite Hfs in inv_fut_urls0.
    rewrite fmap_app, fmap_cons in inv_fut_urls0.
    apply NoDup_app in inv_fut_urls0 as (_ & Hpre & [Hpost _]%NoDup_cons).
    apply elem_of_app in Hg as [Hg|[Hg|Hg]%elem_of_cons]; [right|by left|right].
    - assert (fut_url g <> fut_url f) as Hne.
      { intros E. apply (Hpre (fut_url g)); [by apply list_elem_of_fmap_2|].
        rewrite E. by left. }
      split; [rewrite Hfs; apply elem_of_app; by left|].
      split; [congruence|done].
    - assert (fut_url g <> fut_url f) as Hne.
      { intros E. apply Hpost. rewrite <- E. by apply list_elem_of_fmap_2. }
      split; [rewrite Hfs; apply elem_of_app; right; by right|].
      split; [congruence|done]. }
  constructor; simpl; rewrite ?Hvis, ?Hdis, ?Hbd, ?Hbu, ?Hmd, ?Hdl.
  - destruct inv_wf0. split; congruence.
  - rewrite Hfs in inv_ids0. by rewrite fmap_app, fmap_cons in *.
  - intros g [->|(Hg & _)]%Hcase; [by apply inv_next0 in Hf|by apply inv_next0].
  - done.
  - done.
  - intros g [->|(Hg & _)]%Hcase; [by apply inv_fut_host0 in Hf|by apply inv_fut_host0].
  - intros g [->|(Hg & _)]%Hcase; [by apply inv_fut_visited0 in Hf|by apply inv_fut_visited0].
  - intros g [->|(Hg & _)]%Hcase; [by apply inv_fut_depth0 in Hf|by apply inv_fut_depth0].
  - intros g src links' st' [->|(Hg & _)]%Hcase.
    + simpl. intros [= <- <- <-]. split; [done|]. by apply Hhost.
    + by apply inv_fut_result0.
  - done.
  - intros u r'. rewrite Hdata. intros Hl.
    apply lookup_insert_Some in Hl as [[<- <-]|[_ Hl]]; [|by apply inv_data0].
    split; [by apply inv_fut_visited0|].
    rewrite Hdepth. apply inv_fut_depth0 in Hf. lia.
  - intros u.
    destruct Hreq as [(_ & -> & _)|(_ & -> & _)]; [|by apply inv_requested0].
    intros [Hu|Hu]%elem_of_app; [by apply inv_requested0|].
    apply list_elem_of_singleton in Hu. subst u. by apply inv_fut_visited0.
  - intros Hsl.
    destruct Hreq as [(_ & Hreq & Htot)|([msg Hm] & _)]; [|congruence].
    rewrite Htot, Hreq, inv_total0, Hfs, length_app, !done_count_app by done.
    simpl. rewrite Hr. lia.
  - intros Hsl.
    destruct Hreq as [(_ & Hreq & Htot)|([msg Hm] & _)]; [|congruence].
    rewrite Hans, Hreq, inv_answered0, length_app by done. simpl. lia.
  - lia.
  - rewrite Hfs in inv_fut_urls0. by rewrite fmap_app, fmap_cons in *.
  - intros g [->|(Hg & Hgf & Hne)]%Hcase; [done|]. intros Hp.
    destruct Hreq as [(_ & -> & _)|(_ & -> & _)];
      [|by apply (inv_pending0 g)].
    intros [Hu|Hu]%elem_of_app.
    + by apply (inv_pending0 g).
    + apply list_elem_of_singleton in Hu. done.
  - destruct Hreq as [(_ & -> & _)|(_ & -> & _)]; [|done].
    apply NoDup_app. split; [done|]. split; [|apply NoDup_singleton].
    intros u Hu Hu'. apply list_elem_of_singleton in Hu'. subst u.
    by apply (inv_pending0 f).
Qed.

Lemma step_inv s s' : step http s s' -> run_inv s -> run_inv s'.
Proof.
  intros Hstep Hinv. destruct Hstep.
  - by apply inv_move.
  - by apply inv_move.
  - by apply inv_submit.
  - by apply inv_to_process.
  - apply inv_consume; try done.
    by apply find_future_elem in H0 as [? _].
  - by apply inv_move.
  - by apply inv_move.
  - by apply inv_complete.
Qed.

Lemma steps_inv s s' : rtc (step http) s s' -> run_inv s -> run_inv s'.
Proof. induction 1; eauto using step_inv. Qed.
End RunFacts.

Section CrawlFacts.
Import Crawler.
Local Open Scope Z_scope.
Variable http : transport.

Lemma init_fresh url d w dl c : init url d w dl = Ok c -> fresh c.
Proof.
  unfold init. destruct (Urllib.urlparse url ""); [|done].
  simpl. intros [= <-]. by repeat split.
Qed.

Lemma init_max_depth url d w dl c :
  init url d w dl = Ok c -> max_depth c = d.
Proof.
  unfold init. destruct (Urllib.urlparse url ""); [|done].
  simpl. by intros [= <-].
Qed.


(** What the first part of [crawl] leaves when it goes on to
    [_threaded_crawl]. *)
Lemma crawl_seed_crawl c c' links :
  crawl_seed http c = SeedCrawl c' links ->
  config c' = config c
  /\ visited c' = {[base_url c]} ∪ visited c
  /\ discovered_urls c' = {[base_url c]} ∪ discovered_urls c
  /\ requested c' = requested c ++ [base_url c]
  /\ (exists st ct cl, url_data c'
        = <[base_url c := StatusRecord st ct cl 0]> (url_data c))
  /\ stats c' = mkStats (total_requests (stats c))
                  (successful_requests (stats c) + 1)
                  (failed_requests (stats c))
  /\ (well_formed c ->
      forall l, l ∈ links -> host l = Some (base_domain c)).
Proof.
  unfold crawl_seed.
  destruct (http (base_url c)) as [st ct cl tx| | |m]; try done.
  destruct (st =? 200); [|done]. simpl.
  destruct (max_workers c <=? 0); [done|].
  intros [= <- <-]. simpl. repeat split; eauto.
  intros Hwf l [Hl|Hl]%elem_of_union.
  - by apply extract_links_host in Hl.
  - by apply find_potential_paths_host in Hl.
Qed.

Lemma start_inv c c' links order :
  well_formed c -> fresh c ->
  crawl_seed http c = SeedCrawl c' links ->
  order ≡ₚ elements links ->
  run_inv (start c' order).
Proof.
  intros Hwf (Hv & Hd & Hu & Hs & Hr) Hseed Ho.
  apply crawl_seed_crawl in Hseed
    as (Hcfg & Hvis & Hdis & Hreq & (st & ct & cl & Hdata) & Hstats & Hhost).
  injection Hcfg as Hbu Hmd Hmw Hdl Hbd Hsc.
  rewrite Hv in Hvis. rewrite Hd in Hdis. rewrite Hu in Hdata.
  rewrite Hr in Hreq. rewrite Hs in Hstats. simpl in *.
  constructor; simpl;
    rewrite ?Hvis, ?Hdis, ?Hdata, ?Hreq, ?Hstats, ?Hbu, ?Hbd, ?Hmd; simpl.
  - destruct Hwf. split; congruence.
  - constructor.
  - intros f Hf. by apply elem_of_nil in Hf.
  - intros u [Hu'|Hu']%elem_of_union; [|by apply not_elem_of_empty in Hu'].
    left. by apply elem_of_singleton in Hu'.
  - intros u d Hq. apply list_elem_of_fmap in Hq as (l & [= -> ->] & Hl).
    apply list_elem_of_filter in Hl as [_ Hl]. apply Hhost; [done|].
    rewrite Ho in Hl. by apply elem_of_elements in Hl.
  - intros f Hf. by apply elem_of_nil in Hf.
  - intros f Hf. by apply elem_of_nil in Hf.
  - intros f Hf. by apply elem_of_nil in Hf.
  - intros f ? ? ? Hf. by apply elem_of_nil in Hf.
  - done.
  - intros u r Hl. apply lookup_insert_Some in Hl as [[<- <-]|[_ Hl]].
    + split; [|simpl; lia]. apply elem_of_union. left. by apply elem_of_singleton.
    + by rewrite lookup_empty in Hl.
  - intros u Hu'. apply list_elem_of_singleton in Hu'. subst u.
    apply elem_of_union. left. by apply elem_of_singleton.
  - done.
  - done.
  - lia.
  - constructor.
  - intros f Hf. by apply elem_of_nil in Hf.
  - apply NoDup_singleton.
Qed.

Lemma step_drained s s' : step http s s' -> drained s -> drained s'.
Proof.
  unfold drained. intros Hst Hs. destruct Hst; simpl; try done.
  - unfold submit. by repeat case_match.
  - by repeat case_match.
  - unfold complete.
    destruct (fetch_url http (self s) (fut_url f) (fut_depth f))
      as [? [[? ?] ?]].
    simpl. intros E. destruct (Hs E) as [Hf _]. rewrite Hf in H.
    by destruct pre.
Qed.

Lemma steps_drained s s' : rtc (step http) s s' -> drained s -> drained s'.
Proof. induction 1; eauto using step_drained. Qed.

(** A run of [crawl] that entered [_threaded_crawl] ended in a state of
    the loop that satisfies the invariant and has no future left. *)
Lemma crawl_cases c o :
  well_formed c -> fresh c -> crawl http c o ->
  (exists c', crawl_seed http c = SeedReturn c' /\ o = Returned c')
  \/ (exists c', crawl_seed http c = SeedReport c' /\ o = Reported c')
  \/ (exists c' links s,
        crawl_seed http c = SeedCrawl c' links
        /\ o = Reported (self s) /\ run_inv s /\ futures s = []
        /\ config (self s) = config c).
Proof.
  intros Hwf Hfresh Hc. destruct Hc as [c' H|c' H|c' links order s H Ho Hsteps Hexit].
  - left. by exists c'.
  - right. left. by exists c'.
  - right. right. exists c', links, s.
    split; [done|]. split; [done|]. split; [|split].
    + eapply steps_inv; [exact Hsteps|]. by eapply start_inv.
    + by apply (steps_drained _ _ Hsteps).
    + clear Hexit. apply crawl_seed_crawl in H as (Hcfg & _).
      rewrite <- Hcfg.
      change (config c') with (config (self (start c' order))).
      clear Hcfg. induction Hsteps as [s1|s1 s2 s3 Hst _ IH]; [done|].
      rewrite IH. clear IH.
      destruct Hst; simpl; try done.
      * unfold submit. by repeat case_match.
      * unfold complete.
        destruct (fetch_url http (self s) (fut_url f) (fut_depth f))
          as [c'' [[src links'] st]] eqn:Hf.
        apply fetch_url_spec in Hf as (Hcfg & _).
        by simpl.
Qed.


(** The schedule of [next] is one of the runs of [step]. *)
Lemma split_future_spec id fs pre f post :
  split_future id fs = Some (pre, f, post) ->
  fs = pre ++ f :: post /\ find_future id fs = Some f.
Proof.
  revert pre f post. induction fs as [|g fs IH]; intros pre f post; [done|].
  unfold find_future. simpl.
  destruct (Nat.eqb (fut_id g) id) eqn:E.
  - by intros [= <- <- <-].
  - destruct (split_future id fs) as [[[pre' f'] post']|]; [|done].
    intros [= <- <- <-]. by destruct (IH pre' f' post' eq_refl) as [-> Hf].
Qed.

Lemma next_step s s' : next http s = Some s' -> step http s s'.
Proof.
  unfold next. destruct (at_ s) as [| |[|id rest]|] eqn:Hat; [| | | |done].
  - destruct (queue s) eqn:Hq, (futures s) eqn:Hf; intros [= <-].
    + by apply step_exit.
    + apply step_enter; [done|]. right. by rewrite Hf.
    + apply step_enter; [done|]. left. by rewrite Hq.
    + apply step_enter; [done|]. left. by rewrite Hq.
  - destruct (queue s) as [|[url depth] rest] eqn:Hq.
    + intros [= <-]. apply step_submitted; auto.
    + destruct (pool_has_room s) eqn:Hroom; intros [= <-].
      * by apply step_submit.
      * apply step_submitted; auto.
  - intros [= <-]. by apply step_processed.
  - destruct (split_future id (futures s)) as [[[pre f] post]|] eqn:Hs; [|done].
    apply split_future_spec in Hs as [Hfs Hfind].
    destruct (fut_result f) as [[[src links] st]|] eqn:Hr; intros [= <-].
    + by eapply step_done.
    + by apply step_worker.
Qed.

Lemma run_steps fuel s s' :
  run http fuel s = Some s' -> rtc (step http) s s' /\ at_ s' = AtExit.
Proof.
  revert s. induction fuel as [|fuel IH]; intros s; simpl.
  - destruct (at_ s) eqn:Hat; try done. by intros [= <-].
  - destruct (at_ s) eqn:Hat.
    4: by intros [= <-].
    all: destruct (next http s) as [s1|] eqn:Hn; [|done];
      intros [Hsteps Hexit]%IH; split; [|done];
      eapply rtc_l; [by apply next_step|done].
Qed.

Lemma crawl_run_sound fuel c o :
  crawl_run http fuel c = Some o -> crawl http c o.
Proof.
  unfold crawl_run. destruct (crawl_seed http c) as [c'|c'|c' links] eqn:Hseed.
  - intros [= <-]. by apply crawl_return.
  - intros [= <-]. by apply crawl_report.
  - destruct (run http fuel _) as [s|] eqn:Hrun; [|done].
    intros [= <-]. apply run_steps in Hrun as [Hsteps Hexit].
    by eapply crawl_threaded.
Qed.
End CrawlFacts.

Section MoreFacts.
Import Crawler.
Local Open Scope Z_scope.
Variable http : transport.

(** What the first part of [crawl] does to [self], however it ends. *)
Lemma crawl_seed_spec c :
  let c' := seed_state (crawl_seed http c) in
  config c' = config c
  /\ visited c' = {[base_url c]} ∪ visited c
  /\ requested c' = requested c ++ [base_url c]
  /\ (forall u, u ∈ discovered_urls c' ->
                u = base_url c \/ u ∈ discovered_urls c)
  /\ (forall u r, url_data c' !! u = Some r ->
                  (u = base_url c /\ record_depth r = 0)
                  \/ url_data c !! u = Some r).
Proof.
  unfold crawl_seed.
  destruct (http (base_url c)) as [st ct cl tx| | |m]; simpl.
  2-4: repeat split; auto.
  destruct (st =? 200); simpl; [destruct (max_workers c <=? 0); simpl|].
  all: repeat split; try done.
  all: try (intros u [Hu|Hu]%elem_of_union; [left; by apply elem_of_singleton in Hu|by right]).
  all: intros u r [[<- <-]|[_ Hl]]%lookup_insert_Some; auto.
Qed.


Lemma collect_prefix body pre x post u links :
  (forall y, y ∈ pre -> exists r, body y = Ok r) ->
  body x = Ok (Some u) ->
  u ∈ (collect body (pre ++ x :: post) links).1.
Proof.
  revert links. induction pre as [|y pre IH]; intros links Hpre Hx; simpl.
  - rewrite Hx. apply collect_mono. apply elem_of_union. left.
    by apply elem_of_singleton.
  - destruct (Hpre y) as [[v|] ->]; [by left| |];
      apply IH; try done; intros z Hz; apply Hpre; by right.
Qed.

Lemma collect_app body l1 l2 acc :
  collect body (l1 ++ l2) acc
  = match collect body l1 acc with
    | (acc', Ok _) => collect body l2 acc'
    | (acc', Raise e) => (acc', Raise e)
    end.
Proof.
  revert acc. induction l1 as [|x l1 IH]; intros acc; simpl; [done|].
  destruct (body x) as [[v|]|e]; by rewrite ?IH.
Qed.

Lemma mine_patterns_collect c pats html acc :
  mine_patterns c pats html acc
  = collect (mine_path c)
      (concat ((fun p => Re.findall p html) <$> pats)) acc.
Proof.
  revert acc. induction pats as [|p pats IH]; intros acc; simpl; [done|].
  rewrite collect_app.
  destruct (collect (mine_path c) (Re.findall p html) acc) as [acc' [[]|e]];
    by rewrite ?IH.
Qed.

Lemma mine_comments_collect c comments acc :
  mine_comments c comments acc
  = collect (mine_path c)
      (concat (Re.findall Re.comment_path_pattern <$> comments)) acc.
Proof.
  revert acc. induction comments as [|p pats IH]; intros acc; simpl; [done|].
  rewrite collect_app.
  destruct (collect (mine_path c) (Re.findall Re.comment_path_pattern p) acc)
    as [acc' [[]|e]]; by rewrite ?IH.
Qed.

Lemma find_potential_paths_collect c html :
  find_potential_paths c html
  = (collect (mine_path c) (mined_matches html) ∅).1.
Proof.
  unfold find_potential_paths, mined_matches.
  rewrite collect_app, mine_patterns_collect.
  destruct (collect (mine_path c) _ ∅) as [acc' [[]|e]]; [|done].
  by rewrite mine_comments_collect.
Qed.

Lemma fold_collect_mono body (html : string) pats (acc : gset string) :
  acc ⊆ fold_left
          (fun links pattern =>
             (collect body (Re.findall pattern html) links).1) pats acc.
Proof.
  revert acc. induction pats as [|p pats IH]; intros acc; simpl; [done|].
  etrans; [|apply IH]. apply collect_mono.
Qed.

Lemma fold_collect_elem body (html : string) pats p u :
  p ∈ pats ->
  (forall acc, u ∈ (collect body (Re.findall p html) acc).1) ->
  forall acc,
    u ∈ fold_left
          (fun links pattern =>
             (collect body (Re.findall pattern html) links).1) pats acc.
Proof.
  intros Hp Hu. induction pats as [|q pats IH]; intros acc; simpl.
  - by apply elem_of_nil in Hp.
  - apply elem_of_cons in Hp as [<-|Hp]; [|by apply IH].
    by apply fold_collect_mono.
Qed.

(** With [max_depth = 0] no queue entry is ever dispatched. *)
Lemma depth0_steps s s' :
  rtc (step http) s s' ->
  max_depth (self s) = 0 -> futures s = [] ->
  (forall u d, (u, d) ∈ queue s -> 0 < d) ->
  self s' = self s /\ futures s' = [].
Proof.
  induction 1 as [s|s1 s2 s3 Hst _ IH]; [done|]. intros Hmd Hfs Hq.
  assert (self s2 = self s1 /\ futures s2 = []
          /\ forall u d, (u, d) ∈ queue s2 -> 0 < d) as (Hself & Hfs2 & Hq2).
  { destruct Hst; simpl; try done.
    - unfold submit.
      assert (0 < depth) as Hd by (apply (Hq url); rewrite H0; by left).
      destruct (depth <=? max_depth (self s)) eqn:E;
        [apply Z.leb_le in E; lia|].
      rewrite andb_false_r. simpl. repeat split; [done|].
      intros u d Hu. apply (Hq u). rewrite H0. by right.
    - rewrite Hfs in H0. done.
    - rewrite Hfs in H. by destruct pre. }
  rewrite <- Hself. apply IH; [by rewrite Hself|done|done].
Qed.
End MoreFacts.

Section SeedHost.
Import PyStr Urllib.

Lemma lstrip_app_keep p (u : string) c :
  p c = false -> lstrip p (u +:+ String c "") = lstrip p u +:+ String c "".
Proof.
  intros Hc. induction u as [|a u IH]; simpl; [by rewrite Hc|].
  by destruct (p a).
Qed.

Lemma partition_app_other c (x y : string) :
  contains c y = false ->
  partition c (x +:+ y)
  = match partition c x with
    | Some (l, r) => Some (l, r +:+ y)
    | None => None
    end.
Proof.
  intros Hy. induction x as [|a x IH]; simpl.
  - induction y as [|b y IHy]; simpl in *; [done|].
    apply orb_false_elim in Hy as [-> Hy]. by rewrite IHy.
  - destruct (Ascii.eqb a c); [done|]. rewrite IH.
    by destruct (partition c x) as [[l r]|].
Qed.

Lemma split_scheme_slash (x s : string) :
  split_scheme (x +:+ "/") s
  = ((split_scheme x s).1, (split_scheme x s).2 +:+ "/").
Proof.
  unfold split_scheme. rewrite partition_app_other by done.
  destruct (partition ":" x) as [[[|a pre] rest]|]; try done.
  by destruct (isalpha a && all scheme_char (String a pre)).
Qed.

Lemma span_until_app_delim p (z t : string) d :
  p d = true ->
  (span_until p (z +:+ String d t)).1 = (span_until p z).1.
Proof.
  intros Hd. induction z as [|a z IH]; simpl; [by rewrite Hd|].
  destruct (p a); [done|].
  destruct (span_until p (z +:+ String d t)) as [l r].
  destruct (span_until p z) as [l' r']. simpl in *. by rewrite IH.
Qed.

(** The netloc that [split_netloc] cuts, or [None] when it raises. *)
Lemma split_netloc_slash (y : string) :
  match split_netloc (y +:+ "/"), split_netloc y with
  | Ok (n1, _), Ok (n2, _) => n1 = n2
  | Raise _, Raise _ => True
  | _, _ => False
  end.
Proof.
  unfold split_netloc, _splitnetloc.
  destruct y as [|a [|b z]].
  - done.
  - cbn [String.append startswith drop].
    destruct (Ascii.eqb "/" a); [|done].
    vm_compute. reflexivity.
  - cbn [String.append startswith drop].
    destruct (Ascii.eqb "/" a && (Ascii.eqb "/" b && true)); [|done].
    pose proof (span_until_app_delim netloc_delim z "" "/" eq_refl) as Hfst.
    destruct (span_until netloc_delim (z +:+ "/")) as [n1 r1].
    destruct (span_until netloc_delim z) as [n2 r2]. simpl in Hfst. subst n2.
    destruct (_ || _); [done|]. by destruct (_ && negb _).
Qed.

Lemma host_urlsplit (u : string) :
  Crawler.host u
  = match urlsplit u "" with
    | Ok sp => Some (s_netloc sp)
    | Raise _ => None
    end.
Proof.
  unfold Crawler.host, urlparse. destruct (urlsplit u "") as [sp|]; [|done].
  cbn [mbind result_bind].
  destruct (mem (s_scheme sp) uses_params && contains ";" (s_path sp));
    [destruct (_splitparams (s_path sp))|]; done.
Qed.

Lemma host_slash (u : string) : Crawler.host (u +:+ "/") = Crawler.host u.
Proof.
  rewrite !host_urlsplit. unfold urlsplit.
  rewrite lstrip_app_keep by done. rewrite remove_app.
  change (remove unsafe_url_byte "/") with "/".
  rewrite split_scheme_slash.
  destruct (split_scheme (remove unsafe_url_byte (lstrip c0_control_or_space u)) _)
    as [sch u2]. cbn [fst snd].
  pose proof (split_netloc_slash u2) as Hn.
  destruct (split_netloc (u2 +:+ "/")) as [[n1 r1]|], (split_netloc u2) as [[n2 r2]|];
    try done.
  subst n2. cbn [mbind result_bind].
  transitivity (Some n1); [|symmetry].
  - destruct (partition "#" r1) as [[a b]|];
      [destruct (partition "?" a) as [[? ?]|]
      |destruct (partition "?" r1) as [[? ?]|]]; reflexivity.
  - destruct (partition "#" r2) as [[a b]|];
      [destruct (partition "?" a) as [[? ?]|]
      |destruct (partition "?" r2) as [[? ?]|]]; reflexivity.
Qed.

Lemma rstrip_slash_cases (u : string) :
  rstrip (is_char "/") u = u
  \/ exists v, u = v +:+ "/" /\ rstrip (is_char "/") u = rstrip (is_char "/") v.
Proof.
  induction u as [|a u IH]; [by left|]. simpl.
  destruct IH as [IH|(v & -> & IH)].
  - rewrite IH. destruct u as [|b u]; [|by left].
    unfold is_char. destruct (Ascii.eqb_spec a "/") as [->|]; [|by left].
    right. exists "". done.
  - right. exists (String a v). split; [done|]. rewrite IH. simpl. done.
Qed.

Lemma host_rstrip (u : string) :
  Crawler.host (rstrip (is_char "/") u) = Crawler.host u.
Proof.
  remember (String.length u) as n eqn:Hn. revert u Hn.
  induction n as [n IH] using lt_wf_ind. intros u ->.
  destruct (rstrip_slash_cases u) as [->|(v & -> & ->)]; [done|].
  rewrite host_slash. apply (IH (String.length v)); [|done].
  clear. induction v as [|a v IHv]; simpl; lia.
Qed.

Lemma init_seed_host url d w dl c :
  Crawler.init url d w dl = Ok c ->
  Crawler.host (Crawler.base_url c) = Some (Crawler.base_domain c).
Proof.
  unfold Crawler.init. destruct (urlparse url "") as [p|] eqn:Hp; [|done].
  simpl. intros [= <-]. simpl. rewrite host_rstrip. unfold Crawler.host.
  by rewrite Hp.
Qed.
End SeedHost.

(** * Properties of the specification *)

Import Crawler Examples.
Local Open Scope Z_scope.

Lemma init_crawler_h d w : init "http://h/" d w 0.2%float = Ok (crawler_h d w).
Proof. reflexivity. Qed.

(** C1, amended.  When the seed request is refused, [crawl] does end, at
    once and in the handler that returns: the report is not reached, no
    request is counted as successful, nothing is discovered or recorded, and
    the request for the seed is the only one sent. *)
Theorem seed_refused_returns (http : transport) (c : AdvancedWebCrawler) :
  fresh c -> http (base_url c) = ConnectionError ->
  (exists o, crawl http c o)
  /\ forall o, crawl http c o ->
       reported o = false
       /\ successful_requests (stats (final_state o)) = 0
       /\ discovered_urls (final_state o) = ∅
       /\ url_data (final_state o) = ∅
       /\ requested (final_state o) = [base_url c].
Proof.
  intros (Hv & Hd & Hu & Hs & Hr) Hhttp.
  assert (crawl_seed http c
          = SeedReturn (request (base_url c) (visit (base_url c) c)))
    as Hseed by (unfold crawl_seed; by rewrite Hhttp).
  split; [eexists; by apply crawl_return|].
  intros o Ho.
  destruct Ho as [c' H|c' H|c' links order s H]; rewrite Hseed in H;
    try done.
  injection H as <-. simpl. rewrite Hs, Hd, Hu, Hr. done.
Qed.

Lemma seed_refused_returns_witness :
  fresh (crawler_h 2 5)
  /\ refused (base_url (crawler_h 2 5)) = ConnectionError
  /\ ((exists o, crawl refused (crawler_h 2 5) o)
      /\ forall o, crawl refused (crawler_h 2 5) o ->
           reported o = false
           /\ successful_requests (stats (final_state o)) = 0
           /\ discovered_urls (final_state o) = ∅
           /\ url_data (final_state o) = ∅
           /\ requested (final_state o) = [base_url (crawler_h 2 5)]).
Proof.
  assert (fresh (crawler_h 2 5)) as Hfresh by (repeat split; reflexivity).
  split; [exact Hfresh|]. split; [reflexivity|].
  exact (seed_refused_returns refused (crawler_h 2 5) Hfresh eq_refl).
Defined.

(** C1 as stated fails: against a target that refuses the connection the
    run ends with [failed_requests = 0] and without reaching the report. *)
Lemma seed_refused_counterexample :
  ~ (forall o, crawl refused (crawler_h 2 5) o ->
       successful_requests (stats (final_state o)) = 0
       /\ failed_requests (stats (final_state o)) = 1
       /\ discovered_urls (final_state o) = ∅
       /\ reported o = true).
Proof.
  intros H.
  destruct (H (Returned (request "http://h" (visit "http://h" (crawler_h 2 5)))))
    as (_ & Hfailed & _ & Hreported).
  - by apply crawl_return.
  - discriminate Hfailed.
Qed.

(** In [extract_links] a candidate has lost its fragment and its query
    before it is resolved. *)
Lemma before_contains (c : ascii) (s : string) :
  PyStr.contains c (PyStr.before c s) = false.
Proof.
  unfold PyStr.before. induction s as [|a s IH]; simpl; [done|].
  destruct (Ascii.eqb a c) eqn:E; [done|].
  destruct (PyStr.partition c s) as [[l r]|]; simpl; by rewrite E.
Qed.

Lemma before_keeps_absent (c d : ascii) (s : string) :
  PyStr.contains c s = false -> PyStr.contains c (PyStr.before d s) = false.
Proof.
  unfold PyStr.before. induction s as [|a s IH]; simpl; [done|].
  intros [Ha Hs]%orb_false_elim. destruct (Ascii.eqb a d); [done|].
  specialize (IH Hs).
  destruct (PyStr.partition d s) as [[l r]|]; simpl; by rewrite Ha.
Qed.

Lemma markup_candidate_stripped (link : string) :
  PyStr.contains "#" (PyStr.before "?" (PyStr.before "#" link)) = false
  /\ PyStr.contains "?" (PyStr.before "?" (PyStr.before "#" link)) = false.
Proof.
  split; [|apply before_contains].
  apply before_keeps_absent, before_contains.
Qed.

(** C2, at the failing input.  Path mining hands [normalize_url] a path with
    its query and fragment, and [normalize_url] keeps both. *)
Theorem path_mining_keeps_query :
  elements (find_potential_paths (crawler_h 2 5) page_query)
  = ["http://h/search?q=1#top"]
  /\ normalize_url (crawler_h 2 5) "http://h/search?q=1#top"
     = Ok "http://h/search?q=1#top"
  /\ PyStr.contains "?" "http://h/search?q=1#top" = true
  /\ PyStr.contains "#" "http://h/search?q=1#top" = true.
Proof. repeat split; vm_compute; reflexivity. Qed.

(** C3, at the failing input.  A path made of slashes is stripped to the
    empty path, which a second normalization turns into the root path. *)
Theorem normalize_url_not_idempotent :
  normalize_url (crawler_h 2 5) "http://h//" = Ok "http://h"
  /\ normalize_url (crawler_h 2 5) "http://h" = Ok "http://h/".
Proof. split; vm_compute; reflexivity. Qed.








(** C5, amended.  Extraction is a total function: no exception leaves it.
    In [extract_links] a match that raises ends the loop of its own
    pattern only: every link that a pattern accepts before its first
    failing match is returned, whatever happens in the other patterns.
    [find_potential_paths] returns every path it accepted before the first
    failing match. *)
Theorem extraction_keeps_accepted_matches (c : AdvancedWebCrawler)
    (page html : string) :
  (forall p pre x post u,
      p ∈ Re.href_patterns ->
      Re.findall p html = pre ++ x :: post ->
      (forall y, y ∈ pre -> exists r, extract_link c page y = Ok r) ->
      extract_link c page x = Ok (Some u) ->
      u ∈ extract_links c page html)
  /\ (forall pre x post u,
        mined_matches html = pre ++ x :: post ->
        (forall y, y ∈ pre -> exists r, mine_path c y = Ok r) ->
        mine_path c x = Ok (Some u) ->
        u ∈ find_potential_paths c html).
Proof.
  split.
  - intros p pre x post u Hp Hfound Hpre Hx. unfold extract_links.
    apply fold_collect_elem with (p := p); [done|].
    intros acc. rewrite Hfound. by apply collect_prefix.
  - intros pre x post u Hfound Hpre Hx.
    rewrite find_potential_paths_collect, Hfound. by apply collect_prefix.
Qed.

Lemma extraction_keeps_accepted_matches_witness :
  Re.attr_pattern "href" ∈ Re.href_patterns
  /\ Re.findall (Re.attr_pattern "href") "<a href='/ok'> <a href='http://[x'>"
     = [] ++ "/ok" :: ["http://[x"]
  /\ extract_link (crawler_h 2 5) "http://h" "/ok" = Ok (Some "http://h/ok")
  /\ "http://h/ok"
       ∈ extract_links (crawler_h 2 5) "http://h"
           "<a href='/ok'> <a href='http://[x'>"
  /\ mined_matches page_query = [] ++ "/search?q=1#top" :: []
  /\ mine_path (crawler_h 2 5) "/search?q=1#top"
     = Ok (Some "http://h/search?q=1#top")
  /\ "http://h/search?q=1#top" ∈ find_potential_paths (crawler_h 2 5) page_query.
Proof.
  assert (Re.attr_pattern "href" ∈ Re.href_patterns) as Hp by (by left).
  assert (Re.findall (Re.attr_pattern "href")
            "<a href='/ok'> <a href='http://[x'>"
          = [] ++ "/ok" :: ["http://[x"]) as Hf by (vm_compute; reflexivity).
  assert (extract_link (crawler_h 2 5) "http://h" "/ok"
          = Ok (Some "http://h/ok")) as Hx by (vm_compute; reflexivity).
  assert (mined_matches page_query = [] ++ "/search?q=1#top" :: [])
    as Hm by (vm_compute; reflexivity).
  assert (mine_path (crawler_h 2 5) "/search?q=1#top"
          = Ok (Some "http://h/search?q=1#top")) as Hy by (vm_compute; reflexivity).
  split; [exact Hp|]. split; [exact Hf|]. split; [exact Hx|]. split.
  - apply (proj1 (extraction_keeps_accepted_matches (crawler_h 2 5) "http://h"
                    "<a href='/ok'> <a href='http://[x'>")
             (Re.attr_pattern "href") [] "/ok" ["http://[x"] "http://h/ok" Hp Hf);
      [|exact Hx].
    intros y Hy'. apply elem_of_nil in Hy'. destruct Hy'.
  - split; [exact Hm|]. split; [exact Hy|].
    apply (proj2 (extraction_keeps_accepted_matches (crawler_h 2 5) "http://h"
                    page_query)
             [] "/search?q=1#top" [] "http://h/search?q=1#top" Hm); [|exact Hy].
    intros y Hy'. apply elem_of_nil in Hy'. destruct Hy'.
Defined.

Lemma page_bad_href_links :
  elements (extract_links (crawler_h 2 5) "http://h" page_bad_href) = [].
Proof. vm_compute. reflexivity. Qed.

(** C5 as stated fails: after a match that cannot be parsed, the later
    matches of the same pattern are lost, valid as they are. *)
Lemma partial_extraction_counterexample :
  ~ (forall p x u,
        p ∈ Re.href_patterns ->
        x ∈ Re.findall p page_bad_href ->
        extract_link (crawler_h 2 5) "http://h" x = Ok (Some u) ->
        u ∈ extract_links (crawler_h 2 5) "http://h" page_bad_href).
Proof.
  intros H.
  assert ("http://h/good"
            ∈ extract_links (crawler_h 2 5) "http://h" page_bad_href) as Hin.
  { apply (H (Re.attr_pattern "href") "/good").
    - left.
    - replace (Re.findall (Re.attr_pattern "href") page_bad_href)
        with ["http://[x"; "/good"] by (vm_compute; reflexivity).
      right. left.
    - vm_compute. reflexivity. }
  apply elem_of_elements in Hin. rewrite page_bad_href_links in Hin.
  apply elem_of_nil in Hin. destruct Hin.
Qed.

(** C6, at the failing input.  The seed is claimed as [base_url] with the
    trailing slash stripped, which is not the normal form of the root, so
    the link to [/] on the home page is claimed and fetched as a second
    URL: two requests and two records for one normalized resource. *)
Theorem seed_resource_fetched_twice :
  (fun o => requested (final_state o)) <$> site_run 2
  = Some ["http://h"; "http://h/a"; "http://h/"]
  /\ normalize_url (crawler_h 2 5) "http://h" = Ok "http://h/"
  /\ normalize_url (crawler_h 2 5) "http://h/" = Ok "http://h/"
  /\ (fun o => url_data (final_state o) !! "http://h") <$> site_run 2
     = Some (Some (StatusRecord 200 "text/html" 39 0))
  /\ (fun o => url_data (final_state o) !! "http://h/") <$> site_run 2
     = Some (Some (StatusRecord 200 "text/html" 20 1)).
Proof. repeat split; vm_compute; reflexivity. Qed.

(** What does hold for C6: no URL string is requested twice. *)
Lemma no_url_requested_twice (http : transport) (url : string) (d w : Z)
    (dl : float) (c : AdvancedWebCrawler) (o : outcome) :
  init url d w dl = Ok c -> crawl http c o -> NoDup (requested (final_state o)).
Proof.
  intros Hinit Hcrawl.
  pose proof (init_fresh _ _ _ _ _ Hinit) as Hfresh.
  pose proof (init_well_formed _ _ _ _ _ Hinit) as Hwf.
  destruct (crawl_cases http c o Hwf Hfresh Hcrawl)
    as [(c' & Hs & ->)|[(c' & Hs & ->)|(c' & links & s & Hs & -> & Hinv & _)]].
  - destruct (crawl_seed_spec http c) as (_ & _ & Hreq & _).
    rewrite Hs in Hreq. simpl in *. rewrite Hreq.
    destruct Hfresh as (_ & _ & _ & _ & ->). apply NoDup_singleton.
  - destruct (crawl_seed_spec http c) as (_ & _ & Hreq & _).
    rewrite Hs in Hreq. simpl in *. rewrite Hreq.
    destruct Hfresh as (_ & _ & _ & _ & ->). apply NoDup_singleton.
  - by destruct Hinv.
Qed.

(** C7, amended.  With a bound that is not negative, no record has a depth
    above it.  In the loop an entry is dispatched only when its depth is at
    most the bound, and the links of a page fetched there are queued only
    when its depth is below the bound. *)
Theorem depth_bound (http : transport) (url : string) (d w : Z)
    (dl : float) (c : AdvancedWebCrawler) (o : outcome) :
  init url d w dl = Ok c -> 0 <= d -> crawl http c o ->
  (forall u r, url_data (final_state o) !! u = Some r -> record_depth r <= d)
  /\ (forall s u depth rest,
        futures (submit s u depth rest) <> futures s ->
        depth <= max_depth (self s))
  /\ (forall s f res order rest,
        queue (consume s f res order rest) <> queue s ->
        fut_depth f < max_depth (self s)).
Proof.
  intros Hinit Hd Hcrawl. split; [|split].
  - pose proof (init_fresh _ _ _ _ _ Hinit) as Hfresh.
    pose proof (init_well_formed _ _ _ _ _ Hinit) as Hwf.
    pose proof (init_max_depth _ _ _ _ _ Hinit) as Hmd.
    assert (forall c', c' = seed_state (crawl_seed http c) ->
              forall u r, url_data c' !! u = Some r -> record_depth r <= d)
      as Hseed.
    { intros c' -> u r Hr.
      destruct (crawl_seed_spec http c) as (_ & _ & _ & _ & Hdata).
      destruct (Hdata u r Hr) as [[_ ->]|Hold]; [done|].
      destruct Hfresh as (_ & _ & Hu & _). rewrite Hu in Hold.
      by rewrite lookup_empty in Hold. }
    destruct (crawl_cases http c o Hwf Hfresh Hcrawl)
      as [(c' & Hs & ->)|[(c' & Hs & ->)|(c' & links & s & Hs & -> & Hinv & _ & Hcfg)]].
    + apply Hseed. by rewrite Hs.
    + apply Hseed. by rewrite Hs.
    + intros u r Hr. simpl in Hr. destruct Hinv.
      destruct (inv_data0 u r Hr) as [_ Hle].
      injection Hcfg as _ Hmd' _ _ _. lia.
  - intros s u depth rest. unfold submit.
    destruct (bool_decide (u ∉ visited (self s))); [|done].
    destruct (Z.leb_spec depth (max_depth (self s))); done.
  - intros s f [[src links] st] order rest. unfold consume. simpl.
    destruct (st =? 200); [|done].
    destruct (Z.ltb_spec (fut_depth f) (max_depth (self s))); done.
Qed.

Lemma site_outcome_run : crawl site (crawler_h 2 5) site_outcome.
Proof. apply (crawl_run_sound site 20). vm_compute. reflexivity. Qed.

Lemma depth_bound_witness :
  init "http://h/" 2 5 0.2%float = Ok (crawler_h 2 5)
  /\ 0 <= 2
  /\ crawl site (crawler_h 2 5) site_outcome
  /\ ((forall u r, url_data (final_state site_outcome) !! u = Some r ->
                   record_depth r <= 2)
      /\ (forall s u depth rest,
            futures (submit s u depth rest) <> futures s ->
            depth <= max_depth (self s))
      /\ (forall s f res order rest,
            queue (consume s f res order rest) <> queue s ->
            fut_depth f < max_depth (self s))).
Proof.
  assert (0 <= 2) as Hle by lia.
  split; [reflexivity|]. split; [exact Hle|]. split; [exact site_outcome_run|].
  exact (depth_bound site "http://h/" 2 5 0.2%float
           (crawler_h 2 5) site_outcome
           eq_refl Hle site_outcome_run).
Defined.

Lemma negative_bound_seed_record :
  (fun o => url_data (final_state o) !! "http://h")
    <$> crawl_run site 20 (crawler_h (-1) 5)
  = Some (Some (StatusRecord 200 "text/html" 39 0)).
Proof. vm_compute. reflexivity. Qed.

Lemma depth_zero_seed_queue :
  match crawl_seed site (crawler_h 0 5) with
  | SeedCrawl c' links => Some (queue (start c' (elements links)))
  | _ => None
  end = Some [("http://h/a", 1); ("http://h/", 1)].
Proof. vm_compute. reflexivity. Qed.

(** C7 as stated fails twice: with the bound -1 the seed is still recorded
    at depth 0, and with the bound 0 the links of the seed page, a page of
    depth 0, are still queued at depth 1. *)
Lemma depth_bound_counterexample :
  ~ (forall o, crawl site (crawler_h (-1) 5) o ->
     forall u r, url_data (final_state o) !! u = Some r ->
                 record_depth r <= max_depth (crawler_h (-1) 5))
  /\ ~ (forall c' links order,
          crawl_seed site (crawler_h 0 5) = SeedCrawl c' links ->
          order ≡ₚ elements links ->
          forall u dq, (u, dq) ∈ queue (start c' order) ->
                       dq - 1 < max_depth (crawler_h 0 5)).
Proof.
  split; intros H.
  - pose proof negative_bound_seed_record as Hrec.
    destruct (crawl_run site 20 (crawler_h (-1) 5)) as [o|] eqn:E;
      [|discriminate Hrec].
    apply (inj Some) in Hrec.
    pose proof (H o (crawl_run_sound site 20 _ _ E) _ _ Hrec) as Hle.
    apply Hle. reflexivity.
  - pose proof depth_zero_seed_queue as Hq.
    destruct (crawl_seed site (crawler_h 0 5)) as [c'|c'|c' links] eqn:E;
      [discriminate Hq|discriminate Hq|].
    apply (inj Some) in Hq.
    assert (1 - 1 < max_depth (crawler_h 0 5)) as Hlt.
    { apply (H c' links (elements links) eq_refl (reflexivity _) "http://h/a").
      rewrite Hq. left. }
    vm_compute in Hlt. discriminate Hlt.
Qed.

(** C8.  No candidate of either extraction heuristic is cross-origin, and
    every URL in the visited set, and with it every URL a report can show
    (the discovered set, the keys of the records) or that was ever
    requested, has the host of the crawl's origin: the host of a URL being
    its [netloc], as [__init__] takes [base_domain] from the target. *)
Theorem cross_origin_never_visited (http : transport) (url : string)
    (d w : Z) (dl : float) (c : AdvancedWebCrawler) (o : outcome) :
  init url d w dl = Ok c -> crawl http c o ->
  (forall page html u,
      u ∈ extract_links c page html ∪ find_potential_paths c html ->
      host u = Some (base_domain c))
  /\ forall u,
       u ∈ visited (final_state o) \/ u ∈ discovered_urls (final_state o)
       \/ is_Some (url_data (final_state o) !! u)
       \/ u ∈ requested (final_state o) ->
       host u = Some (base_domain c).
Proof.
  intros Hinit Hcrawl.
  pose proof (init_fresh _ _ _ _ _ Hinit) as Hfresh.
  pose proof (init_well_formed _ _ _ _ _ Hinit) as Hwf.
  pose proof (init_seed_host _ _ _ _ _ Hinit) as Hseed.
  split.
  { intros page html u [Hu|Hu]%elem_of_union.
    - by apply extract_links_host in Hu.
    - by apply find_potential_paths_host in Hu. }
  assert (forall u, u ∈ visited (final_state o) -> host u = Some (base_domain c))
    as Hvisited.
  { destruct (crawl_cases http c o Hwf Hfresh Hcrawl)
      as [(c' & Hs & ->)|[(c' & Hs & ->)|(c' & links & s & Hs & -> & Hinv & _ & Hcfg)]].
    - destruct (crawl_seed_spec http c) as (_ & Hvis & _).
      rewrite Hs in Hvis. simpl in *. rewrite Hvis.
      destruct Hfresh as (-> & _).
      intros u [Hu|Hu]%elem_of_union; [|by apply not_elem_of_empty in Hu].
      apply elem_of_singleton in Hu. by subst u.
    - destruct (crawl_seed_spec http c) as (_ & Hvis & _).
      rewrite Hs in Hvis. simpl in *. rewrite Hvis.
      destruct Hfresh as (-> & _).
      intros u [Hu|Hu]%elem_of_union; [|by apply not_elem_of_empty in Hu].
      apply elem_of_singleton in Hu. by subst u.
    - injection Hcfg as Hbu _ _ _ Hbd _. destruct Hinv. simpl.
      intros u [->|Hu]%inv_visited0; [by rewrite Hbu|by rewrite <- Hbd]. }
  assert (forall u, u ∈ discovered_urls (final_state o)
                    \/ is_Some (url_data (final_state o) !! u)
                    \/ u ∈ requested (final_state o) ->
                    u ∈ visited (final_state o)) as Hsub.
  { destruct (crawl_cases http c o Hwf Hfresh Hcrawl)
      as [(c' & Hs & ->)|[(c' & Hs & ->)|(c' & links & s & Hs & -> & Hinv & _)]].
    1,2: destruct (crawl_seed_spec http c) as (_ & Hvis & Hreq & Hdis & Hdata);
      rewrite Hs in Hvis, Hreq, Hdis, Hdata; simpl in *;
      destruct Hfresh as (_ & Hd & Hu & _ & Hr);
      rewrite Hvis; intros u Hcase;
      assert (u = base_url c) as ->;
      [|apply elem_of_union; left; by apply elem_of_singleton].
    1,2: destruct Hcase as [Hu'|[[r Hu']|Hu']].
    1,4: destruct (Hdis u Hu') as [?|Hold]; [done|];
      rewrite Hd in Hold; by apply not_elem_of_empty in Hold.
    1,3: destruct (Hdata u r Hu') as [[? _]|Hold]; [done|];
      rewrite Hu in Hold; by rewrite lookup_empty in Hold.
    1,2: rewrite Hreq, Hr in Hu'; by apply list_elem_of_singleton in Hu'.
    destruct Hinv. simpl. intros u [Hu|[[r Hu]|Hu]].
    - by apply inv_discovered0.
    - by destruct (inv_data0 u r Hu).
    - by apply inv_requested0. }
  intros u [Hu|Hu]; [by apply Hvisited|]. by apply Hvisited, Hsub.
Qed.

Lemma cross_origin_never_visited_witness :
  init "http://h/" 2 5 0.2%float = Ok (crawler_h 2 5)
  /\ crawl site (crawler_h 2 5) site_outcome
  /\ ((forall page html u,
         u ∈ extract_links (crawler_h 2 5) page html
             ∪ find_potential_paths (crawler_h 2 5) html ->
         host u = Some (base_domain (crawler_h 2 5)))
      /\ forall u,
           u ∈ visited (final_state site_outcome)
           \/ u ∈ discovered_urls (final_state site_outcome)
           \/ is_Some (url_data (final_state site_outcome) !! u)
           \/ u ∈ requested (final_state site_outcome) ->
           host u = Some (base_domain (crawler_h 2 5))).
Proof.
  split; [reflexivity|]. split; [exact site_outcome_run|].
  exact (cross_origin_never_visited site "http://h/" 2 5 0.2%float
           (crawler_h 2 5)
           site_outcome eq_refl site_outcome_run).
Defined.

(** C9, amended.  With [max_depth = 0] only the seed URL is requested and
    claimed.  The links of the seed page are still put in the queue, at
    depth 1; the loop drops each of them when it takes it from the queue. *)
Theorem depth_zero_fetches_seed_only (http : transport)
    (c : AdvancedWebCrawler) (o : outcome) :
  fresh c -> max_depth c = 0 -> crawl http c o ->
  requested (final_state o) = [base_url c]
  /\ visited (final_state o) = {[base_url c]}.
Proof.
  intros (Hv & _ & _ & _ & Hr) Hmd Hcrawl.
  destruct (crawl_seed_spec http c) as (Hcfg & Hvis & Hreq & _).
  rewrite Hv in Hvis. rewrite Hr in Hreq. rewrite union_empty_r_L in Hvis.
  destruct Hcrawl as [c' Hs|c' Hs|c' links order s Hs Ho Hsteps Hexit];
    rewrite Hs in Hcfg, Hvis, Hreq; simpl in *; [done|done|].
  injection Hcfg as _ Hmd' _ _ _.
  destruct (depth0_steps http _ _ Hsteps) as [-> _]; [|done| |done].
  - simpl. congruence.
  - intros u dq Hq. simpl in Hq.
    apply list_elem_of_fmap in Hq as (l & [= -> ->] & _). lia.
Qed.

Lemma depth_zero_fetches_seed_only_witness :
  fresh (crawler_h 0 5)
  /\ max_depth (crawler_h 0 5) = 0
  /\ crawl site (crawler_h 0 5)
       (default (Returned (crawler_h 0 5)) (site_run 0))
  /\ requested (final_state (default (Returned (crawler_h 0 5)) (site_run 0)))
     = [base_url (crawler_h 0 5)]
  /\ visited (final_state (default (Returned (crawler_h 0 5)) (site_run 0)))
     = {[base_url (crawler_h 0 5)]}.
Proof.
  assert (fresh (crawler_h 0 5)) as Hfresh by (repeat split; reflexivity).
  assert (crawl site (crawler_h 0 5)
            (default (Returned (crawler_h 0 5)) (site_run 0))) as Hrun.
  { apply (crawl_run_sound site 20). vm_compute. reflexivity. }
  split; [exact Hfresh|]. split; [reflexivity|]. split; [exact Hrun|].
  exact (depth_zero_fetches_seed_only site (crawler_h 0 5) _ Hfresh eq_refl Hrun).
Defined.

(** C9 as stated fails: with [max_depth = 0] the links of the seed page are
    put in the queue all the same. *)
Lemma depth_zero_counterexample :
  ~ (forall c' links order,
        crawl_seed site (crawler_h 0 5) = SeedCrawl c' links ->
        order ≡ₚ elements links ->
        queue (start c' order) = []).
Proof.
  intros H. pose proof depth_zero_seed_queue as Hq.
  destruct (crawl_seed site (crawler_h 0 5)) as [c'|c'|c' links] eqn:E;
    [discriminate Hq|discriminate Hq|].
  apply (inj Some) in Hq.
  rewrite (H c' links (elements links) eq_refl (reflexivity _)) in Hq.
  discriminate Hq.
Qed.





(** * More facts about runs *)

Section PoolFacts.
Import Crawler Ledger.
Local Open Scope Z_scope.
Variable http : transport.

Lemma find_future_ids id fs :
  is_Some (find_future id fs) <-> id ∈ fut_id <$> fs.
Proof.
  unfold find_future. induction fs as [|g fs IH]; simpl.
  - split; [by intros [? ?]|]. intros H. by apply elem_of_nil in H.
  - destruct (Nat.eqb (fut_id g) id) eqn:E.
    + apply Nat.eqb_eq in E. split; [intros _; rewrite E; by left|by eexists].
    + apply Nat.eqb_neq in E. rewrite IH. split; [by right|].
      intros [?|?]%elem_of_cons; [congruence|done].
Qed.

Lemma pop_future_ids id fs :
  fut_id <$> pop_future id fs
  = filter (fun i => i <> id) (fut_id <$> fs).
Proof.
  unfold pop_future. induction fs as [|g fs IH]; [done|].
  rewrite fmap_cons, !filter_cons.
  destruct (Nat.eqb (fut_id g) id) eqn:E; simpl;
    [apply Nat.eqb_eq in E|apply Nat.eqb_neq in E];
    repeat case_decide; try done; try tauto.
  f_equal. exact IH.
Qed.

Lemma pop_future_length id fs :
  (length (pop_future id fs) <= length fs)%nat.
Proof. apply sublist_length, pop_future_sublist. Qed.

Lemma pool_move s p :
  (forall ids, p <> AtProcess ids) -> run_pool s -> run_pool (move s p).
Proof.
  intros Hp []. constructor; simpl; [done|]. intros ids E. by apply Hp in E.
Qed.

Lemma pool_submit s url depth rest :
  run_pool s -> pool_has_room s = true ->
  run_pool (submit s url depth rest).
Proof.
  intros [] Hroom. unfold submit. apply Z.ltb_lt in Hroom.
  destruct (_ && _); constructor; simpl; try done.
  rewrite length_app. simpl. lia.
Qed.

Lemma pool_to_process s : run_inv s -> run_pool s -> run_pool (to_process s).
Proof.
  intros Hinv []. constructor; [exact pool_bound0|].
  intros ids Hat. change (futures (to_process s)) with (futures s).
  assert (ids = fut_id <$> futures s) as ->.
  { unfold to_process in Hat. cbn [at_] in Hat.
    destruct (futures s); [done|]. by injection Hat as <-. }
  split; [by destruct Hinv|]. intros id Hid. by apply find_future_ids.
Qed.

Lemma pool_consume s f res order rest :
  run_pool s -> at_ s = AtProcess (fut_id f :: rest) ->
  run_pool (consume s f res order rest).
Proof.
  intros [] Hat. destruct res as [[src links] st]. unfold consume.
  destruct (pool_snapshot0 _ Hat) as [Hnd Hin].
  apply NoDup_cons in Hnd as [Hnotin Hnd].
  constructor; simpl.
  - pose proof (pop_future_length (fut_id f) (futures s)). lia.
  - intros ids [= <-]. split; [done|]. intros id Hid.
    apply find_future_ids. rewrite pop_future_ids.
    apply list_elem_of_filter. split; [by intros ->|].
    apply find_future_ids, Hin. by right.
Qed.

Lemma pool_complete s pre f post :
  run_pool s -> futures s = pre ++ f :: post ->
  run_pool (complete http s pre f post).
Proof.
  intros [] Hfs. unfold complete.
  destruct (fetch_url http (self s) (fut_url f) (fut_depth f))
    as [c' [[src links] st]] eqn:Hfetch.
  apply fetch_url_spec in Hfetch as (Hcfg & _).
  injection Hcfg as _ _ Hmw _ _.
  constructor; simpl.
  - rewrite Hmw. rewrite Hfs in pool_bound0.
    by rewrite length_app in *.
  - intros ids Hat. destruct (pool_snapshot0 _ Hat) as [Hnd Hin].
    split; [done|]. intros id Hid. apply find_future_ids.
    apply Hin, find_future_ids in Hid. rewrite Hfs in Hid.
    by rewrite fmap_app, fmap_cons in *.
Qed.

Lemma step_pool s s' :
  step http s s' -> run_inv s -> run_pool s -> run_pool s'.
Proof.
  intros Hstep Hinv Hpool. destruct Hstep.
  - by apply pool_move.
  - by apply pool_move.
  - by apply pool_submit.
  - by apply pool_to_process.
  - apply pool_consume; [done|].
    apply find_future_elem in H0 as [_ ->]. done.
  - destruct Hpool. constructor; simpl; [done|].
    intros ids [= <-]. destruct (pool_snapshot0 _ H) as [Hnd Hin].
    apply NoDup_cons in Hnd as [_ Hnd]. split; [done|].
    intros i Hi. apply Hin. by right.
  - by apply pool_move.
  - by apply pool_complete.
Qed.

Lemma steps_pool s s' :
  rtc (step http) s s' -> run_inv s -> run_pool s -> run_pool s'.
Proof.
  induction 1 as [|s1 s2 s3 Hstep _ IH]; [done|]. intros Hinv Hpool.
  apply IH; [by eapply step_inv|by eapply step_pool].
Qed.

Lemma start_pool c order : run_pool (start c order).
Proof. constructor; simpl; [lia|done]. Qed.

(** A state of the loop that is not past it can take a step. *)
Lemma pool_progress s :
  run_pool s -> at_ s <> AtExit -> exists s', step http s s'.
Proof.
  intros [] Hat. destruct (at_ s) as [| |ids|] eqn:E; [| | |done].
  - destruct (queue s) as [|e q] eqn:Hq, (futures s) as [|g fs] eqn:Hf.
    + eexists. by apply step_exit.
    + eexists. apply step_enter; [done|]. right. by rewrite Hf.
    + eexists. apply step_enter; [done|]. left. by rewrite Hq.
    + eexists. apply step_enter; [done|]. left. by rewrite Hq.
  - destruct (queue s) as [|[url depth] q] eqn:Hq.
    + eexists. apply step_submitted; [done|]. by left.
    + destruct (pool_has_room s) eqn:Hroom.
      * eexists. by eapply step_submit.
      * eexists. apply step_submitted; [done|]. by right.
  - destruct ids as [|id rest].
    + eexists. by apply step_processed.
    + destruct (pool_snapshot0 _ eq_refl) as [_ Hin].
      destruct (Hin id) as [f Hf]; [by left|].
      destruct (fut_result f) as [[[src links] st]|] eqn:Hr.
      * eexists. by eapply (step_done http s id rest f src links st
                              (elements links)).
      * eexists. by eapply step_not_done.
Qed.
End PoolFacts.

Section ConfigFacts.
Import Crawler Ledger.

(** The extraction functions read no field of [self] that changes after
    [__init__]. *)
Lemma normalize_url_config c1 c2 x :
  config c1 = config c2 -> normalize_url c1 x = normalize_url c2 x.
Proof.
  intros [= _ _ _ _ Hbd Hsc]. unfold normalize_url. by rewrite Hbd, Hsc.
Qed.

Lemma is_valid_link_config c1 c2 u :
  config c1 = config c2 -> is_valid_link c1 u = is_valid_link c2 u.
Proof. intros [= _ _ _ _ Hbd _]. unfold is_valid_link. by rewrite Hbd. Qed.

Lemma extract_link_config c1 c2 page link :
  config c1 = config c2 ->
  extract_link c1 page link = extract_link c2 page link.
Proof.
  intros Hc. unfold extract_link.
  destruct (PyStr.is_empty _); [done|]. destruct (_ || _); [done|].
  match goal with
  | |- context [if ?b then Ok ?l else Urllib.urljoin ?p ?l] =>
      destruct (if b then Ok l else Urllib.urljoin p l) as [l'|]; [|done]
  end.
  simpl.
  rewrite (normalize_url_config c1 c2 _ Hc).
  destruct (normalize_url c2 l') as [a|]; [|done]. simpl.
  by rewrite (is_valid_link_config c1 c2 _ Hc).
Qed.

Lemma mine_path_config c1 c2 path :
  config c1 = config c2 -> mine_path c1 path = mine_path c2 path.
Proof.
  intros Hc. unfold mine_path.
  assert (base_url c1 = base_url c2) as -> by (by injection Hc).
  rewrite (normalize_url_config c1 c2 _ Hc).
  destruct (normalize_url c2 _) as [a|]; [|done]. simpl.
  by rewrite (is_valid_link_config c1 c2 _ Hc).
Qed.

Lemma collect_ext body1 body2 found links :
  (forall x, body1 x = body2 x) ->
  collect body1 found links = collect body2 found links.
Proof.
  intros Hb. revert links. induction found as [|x found IH]; [done|].
  intros links. simpl. rewrite Hb.
  destruct (body2 x) as [[u|]|]; by rewrite ?IH.
Qed.

Lemma extract_links_config c1 c2 page html :
  config c1 = config c2 ->
  extract_links c1 page html = extract_links c2 page html.
Proof.
  intros Hc. unfold extract_links. generalize (∅ : gset string).
  induction Re.href_patterns as [|p ps IH]; [done|]. intros acc. simpl.
  rewrite (collect_ext (extract_link c1 page) (extract_link c2 page)).
  - apply IH.
  - intros x. by apply extract_link_config.
Qed.

Lemma find_potential_paths_config c1 c2 html :
  config c1 = config c2 ->
  find_potential_paths c1 html = find_potential_paths c2 html.
Proof.
  intros Hc. rewrite !find_potential_paths_collect.
  rewrite (collect_ext (mine_path c1) (mine_path c2)); [done|].
  intros x. by apply mine_path_config.
Qed.

Lemma page_links_config c1 c2 page text :
  config c1 = config c2 -> page_links c1 page text = page_links c2 page text.
Proof.
  intros Hc. unfold page_links.
  by rewrite (extract_links_config c1 c2 _ _ Hc),
    (find_potential_paths_config c1 c2 _ Hc).
Qed.
End ConfigFacts.

Section BooksFacts.
Import Crawler Ledger.
Local Open Scope Z_scope.
Variable http : transport.

Lemma record_of_depth resp d : record_depth (record_of resp d) = d.
Proof. by destruct resp. Qed.

Lemma count_records_insert p (data : gmap string visit_record) u r :
  data !! u = None ->
  count_records p (<[u := r]> data)
  = count_records p data + (match p r with true => 1 | false => 0 end).
Proof.
  intros Hu. unfold count_records. destruct (p r) eqn:E.
  - rewrite map_filter_insert_True by done.
    rewrite map_size_insert_None; [lia|].
    apply map_lookup_filter_None. by left.
  - rewrite map_filter_insert_not'; [lia| |].
    + simpl. by rewrite E.
    + intros y Hy. by rewrite Hu in Hy.
Qed.

Lemma count_records_empty p : count_records p ∅ = 0.
Proof. unfold count_records. by rewrite map_filter_empty, map_size_empty. Qed.

(** Past the sleep [fetch_url] goes by the transport; otherwise by the
    error of the sleep. *)
Lemma reply_slept c url :
  Time.sleep (delay c) = Ok tt -> reply http c url = http url.
Proof. intros H. unfold reply. by rewrite H. Qed.

Lemma reply_error c url msg :
  Time.sleep (delay c) = Raise msg -> reply http c url = OtherError msg.
Proof. intros H. unfold reply. by rewrite H. Qed.

Lemma reply_response c url sc ct cl tx :
  reply http c url = Response sc ct cl tx ->
  Time.sleep (delay c) = Ok tt /\ http url = Response sc ct cl tx.
Proof.
  unfold reply. by destruct (Time.sleep (delay c)) as [[]|msg].
Qed.

Lemma reply_config c1 c2 url :
  config c1 = config c2 -> reply http c1 url = reply http c2 url.
Proof. intros [= _ _ _ Hdl _ _]. unfold reply. by rewrite Hdl. Qed.

(** What [fetch_url] stores, returns and counts. *)
Lemma fetch_url_books c url depth c' res :
  fetch_url http c url depth = (c', res) ->
  url_data c' = <[url := record_of (reply http c url) depth]> (url_data c)
  /\ res = result_of (reply http c) c url
  /\ successful_requests (stats c')
     = successful_requests (stats c)
       + (match has_status (record_of (reply http c url) depth) with
          | true => 1 | false => 0 end)
  /\ failed_requests (stats c')
     = failed_requests (stats c)
       + (match has_status (record_of (reply http c url) depth) with
          | true => 0 | false => 1 end).
Proof.
  unfold fetch_url, result_of, reply.
  destruct (Time.sleep (delay c)) as [[]|msg];
    [destruct (http url) as [sc ct cl tx| | |m]|];
    intros [= <- <-]; simpl; repeat split; try done; try lia.
  f_equal. f_equal. by apply page_links_config.
Qed.

Lemma NoDup_fmap_eq {A B} (g : A -> B) (l : list A) x y :
  NoDup (g <$> l) -> x ∈ l -> y ∈ l -> g x = g y -> x = y.
Proof.
  induction l as [|a l IH]; [by intros _ H%elem_of_nil|].
  rewrite fmap_cons. intros [Ha Hnd]%NoDup_cons.
  intros [->|Hx]%elem_of_cons [->|Hy]%elem_of_cons E; [done| | |by apply IH].
  - exfalso. apply Ha. rewrite E. by apply list_elem_of_fmap_2.
  - exfalso. apply Ha. rewrite <- E. by apply list_elem_of_fmap_2.
Qed.

Lemma books_move s p : run_books http s -> run_books http (move s p).
Proof. intros []. by constructor. Qed.

Lemma books_to_process s : run_books http s -> run_books http (to_process s).
Proof. intros []. by constructor. Qed.

Lemma books_submit s url depth rest :
  run_inv s -> run_books http s -> run_books http (submit s url depth rest).
Proof.
  intros Hinv []. unfold submit.
  destruct (bool_decide (url ∉ visited (self s))) eqn:Hv;
    [|by constructor].
  destruct (depth <=? max_depth (self s)); [|by constructor].
  apply bool_decide_eq_true in Hv. cbn [andb].
  constructor; simpl; try done.
  - intros u [Hu|Hu]%elem_of_union.
    + apply elem_of_singleton in Hu. subst u. right. eexists.
      split; [apply elem_of_app; right; by left|done].
    + destruct (books_visited0 u Hu) as [?|(f & Hf & E)]; [by left|].
      right. exists f. split; [|done]. apply elem_of_app. by left.
  - intros f [Hf|Hf]%elem_of_app; [by apply books_done0|].
    apply list_elem_of_singleton in Hf. subst f. by intros [? ?].
  - intros f [Hf|Hf]%elem_of_app; [by apply books_pending0|].
    apply list_elem_of_singleton in Hf. subst f. simpl. intros _.
    apply eq_None_not_Some. intros [r Hr]. apply Hv.
    by destruct (inv_data s Hinv _ _ Hr).
Qed.

Lemma books_consume s f src links st order rest :
  run_inv s -> run_books http s -> f ∈ futures s ->
  fut_result f = Some (src, links, st) ->
  run_books http (consume s f (src, links, st) order rest).
Proof.
  intros Hinv [] Hf Hr. unfold consume.
  destruct (inv_fut_result s Hinv f src links st Hf Hr) as [-> _].
  constructor; simpl; try done.
  - intros u [Hu|Hu]%elem_of_union; [|by apply books_recorded0].
    apply elem_of_singleton in Hu. subst u. apply books_done0; [done|].
    by rewrite Hr.
  - intros u Hu. destruct (decide (u = fut_url f)) as [->|Hne].
    { left. apply elem_of_union. left. by apply elem_of_singleton. }
    destruct (books_visited0 u Hu) as [?|(g & Hg & E)].
    { left. apply elem_of_union. by right. }
    right. exists g. split; [|done]. apply elem_of_pop_future.
    split; [|done]. intros Hid. apply Hne. rewrite <- E. f_equal.
    eapply NoDup_fmap_eq; [exact (inv_ids s Hinv)|done..].
  - intros g Hg. apply elem_of_pop_future in Hg as [_ Hg].
    by apply books_done0.
  - intros g Hg. apply elem_of_pop_future in Hg as [_ Hg].
    by apply books_pending0.
Qed.

Lemma books_complete s pre f post :
  run_inv s -> run_books http s ->
  futures s = pre ++ f :: post -> fut_result f = None ->
  run_books http (complete http s pre f post).
Proof.
  intros Hinv [] Hfs Hr. unfold complete.
  destruct (fetch_url http (self s) (fut_url f) (fut_depth f))
    as [c' res] eqn:Hfetch.
  pose proof (fetch_url_books _ _ _ _ _ Hfetch) as (Hdata & _ & Hsucc & Hfail).
  destruct res as [[src links] st].
  apply fetch_url_spec in Hfetch
    as (Hcfg & Hvis & Hdis & Hreq & -> & _).
  injection Hcfg as Hbu _ _ Hdl _ _.
  assert (f ∈ futures s) as Hf
    by (rewrite Hfs; apply elem_of_app; right; left).
  assert (url_data (self s) !! fut_url f = None) as Hnew
      by (by apply books_pending0).
  assert (forall u, is_Some (url_data (self s) !! u) ->
                    is_Some (<[fut_url f := record_of
                                 (reply http (self s) (fut_url f))
                                 (fut_depth f)]> (url_data (self s)) !! u))
    as Hkeep.
  { intros u Hu. apply lookup_insert_is_Some.
    destruct (decide (fut_url f = u)); [by left|by right]. }
  constructor; simpl; rewrite ?Hvis, ?Hdis, ?Hdata, ?Hbu, ?Hdl.
  - intros u Hu.
    destruct Hreq as [(_ & Hreq & _)|(_ & Hreq & _)]; rewrite Hreq in Hu;
      [|by apply Hkeep, books_requested0].
    apply elem_of_app in Hu as [Hu|Hu]; [by apply Hkeep, books_requested0|].
    apply list_elem_of_singleton in Hu. subst u.
    rewrite lookup_insert_eq. by eexists.
  - intros Hsl u Hu.
    destruct Hreq as [(_ & Hreq & _)|([msg Hm] & _)]; [|congruence].
    rewrite Hreq. apply elem_of_app.
    apply lookup_insert_is_Some in Hu as [<-|[_ Hu]]; [right; by left|].
    left. by apply books_asked0.
  - intros Hsl u r Hl. rewrite (reply_slept _ _ Hsl) in Hl.
    apply lookup_insert_Some in Hl as [[<- <-]|[_ Hl]];
      [by rewrite record_of_depth|by apply books_record0].
  - intros msg Hm u r Hl Hne. rewrite (reply_error _ _ _ Hm) in Hl.
    apply lookup_insert_Some in Hl as [[<- <-]|[_ Hl]];
      [done|exact (books_error0 msg Hm u r Hl Hne)].
  - intros u Hu. by apply Hkeep, books_recorded0.
  - intros u Hu. destruct (books_visited0 u Hu) as [?|(g & Hg & E)]; [by left|].
    right. rewrite Hfs in Hg.
    apply elem_of_app in Hg as [Hg|[->|Hg]%elem_of_cons].
    + exists g. split; [apply elem_of_app; by left|done].
    + eexists. split; [apply elem_of_app; right; by left|done].
    + exists g. split; [apply elem_of_app; right; by right|done].
  - intros g Hg Hsome.
    apply elem_of_app in Hg as [Hg|[->|Hg]%elem_of_cons].
    + apply Hkeep, books_done0; [|done]. rewrite Hfs. apply elem_of_app.
      by left.
    + simpl. rewrite lookup_insert_eq. by eexists.
    + apply Hkeep, books_done0; [|done]. rewrite Hfs. apply elem_of_app.
      right. by right.
  - intros g Hg Hnone.
    assert (g ∈ futures s /\ fut_url f <> fut_url g) as [Hg' Hne].
    { pose proof (inv_fut_urls s Hinv) as Hnd.
      rewrite Hfs, fmap_app, fmap_cons in Hnd.
      apply NoDup_app in Hnd as (_ & Hpre & [Hpost _]%NoDup_cons).
      rewrite Hfs.
      apply elem_of_app in Hg as [Hg|[->|Hg]%elem_of_cons]; [|done|].
      - split; [apply elem_of_app; by left|]. intros E.
        apply (Hpre (fut_url g)); [by apply list_elem_of_fmap_2|].
        rewrite <- E. by left.
      - split; [apply elem_of_app; right; by right|]. intros E.
        apply Hpost. rewrite E. by apply list_elem_of_fmap_2. }
    rewrite lookup_insert_ne by done. by apply books_pending0.
  - rewrite Hsucc, books_successful0, count_records_insert by done. done.
  - rewrite Hfail, books_failed0, count_records_insert by done.
    by destruct (has_status _).
Qed.

Lemma step_books s s' :
  step http s s' -> run_inv s -> run_books http s -> run_books http s'.
Proof.
  intros Hstep Hinv Hb. destruct Hstep.
  - by apply books_move.
  - by apply books_move.
  - by apply books_submit.
  - by apply books_to_process.
  - apply books_consume; try done.
    by apply find_future_elem in H0 as [? _].
  - by apply books_move.
  - by apply books_move.
  - by apply books_complete.
Qed.

Lemma steps_books s s' :
  rtc (step http) s s' -> run_inv s -> run_books http s ->
  run_books http s'.
Proof.
  induction 1 as [|s1 s2 s3 Hstep _ IH]; [done|]. intros Hinv Hb.
  apply IH; [by eapply step_inv|by eapply step_books].
Qed.
End BooksFacts.

Section LinksFacts.
Import Crawler Ledger.
Local Open Scope Z_scope.
Variable http : transport.

Lemma result_of_config c1 c2 url :
  config c1 = config c2 ->
  result_of (reply http c1) c1 url = result_of (reply http c2) c2 url.
Proof.
  intros Hc. unfold result_of. rewrite (reply_config http c1 c2 url Hc).
  destruct (reply http c2 url); try done.
  by rewrite (page_links_config c1 c2 _ _ Hc).
Qed.

(** A record that is there stays when another key is written. *)
Lemma linked_insert c (data : gmap string visit_record) k r u d :
  data !! k = None -> linked http c data u d ->
  linked http c (<[k := r]> data) u d.
Proof.
  intros Hk (p & ct & cl & tx & Hp & Hr & Hu).
  exists p, ct, cl, tx. split; [done|]. split; [|done].
  rewrite lookup_insert_ne; [done|]. intros ->. by rewrite Hk in Hr.
Qed.

(** What [crawl] has done when it calls [_threaded_crawl]. *)
Lemma crawl_seed_links c c' links :
  crawl_seed http c = SeedCrawl c' links ->
  exists ct cl tx,
    http (base_url c) = Response 200 ct cl tx
    /\ links = page_links c (base_url c) tx
    /\ url_data c' = <[base_url c := StatusRecord 200 ct cl 0]> (url_data c)
    /\ 0 < max_workers c.
Proof.
  unfold crawl_seed.
  destruct (http (base_url c)) as [sc ct cl tx| | |m]; [|done..].
  destruct (sc =? 200) eqn:Hsc; [|done]. apply Z.eqb_eq in Hsc. subst sc.
  simpl. destruct (max_workers c <=? 0) eqn:Hw; [done|].
  apply Z.leb_gt in Hw. intros [= <- <-].
  exists ct, cl, tx. split; [done|]. split; [|by split].
  by apply page_links_config.
Qed.

Lemma links_move c s p : run_links http c s -> run_links http c (move s p).
Proof. intros []. by constructor. Qed.

Lemma links_to_process c s :
  run_links http c s -> run_links http c (to_process s).
Proof. intros []. by constructor. Qed.

Lemma links_submit c s url depth rest :
  run_inv s -> run_links http c s -> queue s = (url, depth) :: rest ->
  run_links http c (submit s url depth rest).
Proof.
  intros Hinv [] Hq. unfold submit.
  pose proof links_config0 as Hcfg. injection Hcfg as Hbu Hmd _ Hdl _ _.
  assert (forall u d, (u, d) ∈ rest -> (u, d) ∈ queue s) as Hrest.
  { intros u d H. rewrite Hq. by right. }
  assert ((url, depth) ∈ queue s) as Hhead by (rewrite Hq; by left).
  destruct (bool_decide (url ∉ visited (self s))) eqn:Hv;
    [destruct (depth <=? max_depth (self s)) eqn:Hd|]; simpl.
  - apply bool_decide_eq_true in Hv. apply Z.leb_le in Hd.
    constructor; simpl; try done.
    + eauto.
    + intros f [Hf|Hf]%elem_of_app; [by apply links_futures0|].
      apply list_elem_of_singleton in Hf. subst f. simpl.
      destruct (links_queue0 _ _ Hhead) as [H1 Hl].
      split; [lia|]. split; [|done]. intros ->. apply Hv.
      destruct links_seed0 as (ct & cl & Hseed).
      by destruct (inv_data s Hinv _ _ Hseed).
    + intros f res [Hf|Hf]%elem_of_app; [by apply links_result0|].
      apply list_elem_of_singleton in Hf. by subst f.
    + intros p ct cl tx d Hp Hr Hlt.
      destruct (links_closed0 p ct cl tx d Hp Hr Hlt) as [(f & Hf & E)|Hc].
      * left. exists f. split; [apply elem_of_app; by left|done].
      * right. intros u Hu. destruct (Hc u Hu) as [?|Hin].
        { left. apply elem_of_union. by right. }
        rewrite Hq in Hin. apply elem_of_cons in Hin as [[= -> _]|?];
          [left|by right].
        apply elem_of_union. left. by apply elem_of_singleton.
  - apply bool_decide_eq_true in Hv. apply Z.leb_gt in Hd.
    constructor; simpl; try done; [eauto|].
    intros p ct cl tx d Hp Hr Hlt.
    destruct (links_closed0 p ct cl tx d Hp Hr Hlt) as [?|Hc]; [by left|].
    right. intros u Hu. destruct (Hc u Hu) as [?|Hin]; [by left|].
    rewrite Hq in Hin. apply elem_of_cons in Hin as [[= -> Hd1]|?];
      [lia|by right].
  - apply bool_decide_eq_false in Hv.
    constructor; simpl; try done; [eauto|].
    intros p ct cl tx d Hp Hr Hlt.
    destruct (links_closed0 p ct cl tx d Hp Hr Hlt) as [?|Hc]; [by left|].
    right. intros u Hu. destruct (Hc u Hu) as [?|Hin]; [by left|].
    rewrite Hq in Hin. apply elem_of_cons in Hin as [[= -> _]|?];
      [left|by right].
    by destruct (decide (url ∈ visited (self s))).
Qed.

Lemma links_consume c s f src links st order rest :
  run_inv s -> run_links http c s -> f ∈ futures s ->
  fut_result f = Some (src, links, st) ->
  order ≡ₚ elements links ->
  run_links http c (consume s f (src, links, st) order rest).
Proof.
  intros Hinv [] Hf Hr Ho. unfold consume.
  pose proof links_config0 as Hcfg. injection Hcfg as Hbu Hmd _ Hdl _ _.
  destruct (links_result0 f _ Hf Hr) as [Hres Hrec].
  destruct (links_futures0 f Hf) as (Hdepth & _ & _).
  assert (forall g, g ∈ pop_future (fut_id f) (futures s) -> g ∈ futures s)
    as Hpop.
  { intros g Hg. by apply elem_of_pop_future in Hg as [_ ?]. }
  (* what a result with status 200 says *)
  assert (st = 200 ->
          exists ct cl tx, http (fut_url f) = Response 200 ct cl tx
            /\ links = page_links c (fut_url f) tx
            /\ url_data (self s) !! fut_url f
               = Some (StatusRecord 200 ct cl (fut_depth f))) as H200.
  { intros ->. unfold result_of in Hres.
    destruct (reply http c (fut_url f)) as [sc ct cl tx| | |m] eqn:Hrp;
      injection Hres as _ Hl Hs; try done.
    subst sc. apply reply_response in Hrp as [_ Hrp].
    exists ct, cl, tx. by repeat split. }
  constructor; simpl; try done; eauto.
  - intros u d.
    destruct (st =? 200) eqn:Hst; [|by apply links_queue0].
    destruct (fut_depth f <? max_depth s.(self)) eqn:Hlt;
      [|by apply links_queue0].
    simpl. intros [Hu|Hu]%elem_of_app; [by apply links_queue0|].
    apply Z.eqb_eq in Hst.
    destruct (H200 Hst) as (ct & cl & tx & Hp & -> & Hdata).
    unfold new_entries in Hu.
    apply list_elem_of_fmap in Hu as (l & [= -> ->] & Hl).
    apply list_elem_of_filter in Hl as [_ Hl].
    rewrite Ho in Hl. apply elem_of_elements in Hl.
    split; [lia|]. exists (fut_url f), ct, cl, tx.
    split; [done|]. split; [|done].
    by replace (fut_depth f + 1 - 1) with (fut_depth f) by lia.
  - intros p ct cl tx d Hp Hdata Hlt.
    destruct (decide (p = fut_url f)) as [->|Hne].
    + right.
      assert (reply http c (fut_url f) = Response 200 ct cl tx
              /\ d = fut_depth f) as [Hrp ->].
      { rewrite Hrec in Hdata.
        destruct (reply http c (fut_url f)) as [sc' ct' cl' tx'| | |m]
          eqn:Hrp; simpl in Hdata; try discriminate Hdata.
        injection Hdata as -> -> -> ->.
        apply reply_response in Hrp as [_ Hrp]. rewrite Hp in Hrp.
        by injection Hrp as <-. }
      unfold result_of in Hres. rewrite Hrp in Hres.
      injection Hres as _ -> ->.
      rewrite Z.eqb_refl. rewrite Hmd.
      apply Z.ltb_lt in Hlt. rewrite Hlt. simpl.
      intros u Hu.
      destruct (decide (u ∈ visited (self s))) as [?|Hnv]; [by left|].
      right. apply elem_of_app. right. unfold new_entries.
      apply list_elem_of_fmap. exists u. split; [done|].
      apply list_elem_of_filter. split.
      * simpl. by apply bool_decide_pack.
      * rewrite Ho. by apply elem_of_elements.
    + destruct (links_closed0 p ct cl tx d Hp Hdata Hlt)
        as [(g & Hg & E)|Hc].
      * left. exists g. split; [|done]. apply elem_of_pop_future.
        split; [|done]. intros Hid. apply Hne. rewrite <- E. f_equal.
        eapply NoDup_fmap_eq; [exact (inv_ids s Hinv)|done..].
      * right. intros u Hu. destruct (Hc u Hu) as [?|?]; [by left|].
        right. destruct (_ && _); [|done]. apply elem_of_app. by left.
Qed.

Lemma links_complete c s pre f post :
  run_inv s -> run_books http s -> run_links http c s ->
  futures s = pre ++ f :: post -> fut_result f = None ->
  run_links http c (complete http s pre f post).
Proof.
  intros Hinv Hbooks [] Hfs Hr. unfold complete.
  destruct (fetch_url http (self s) (fut_url f) (fut_depth f))
    as [c' res] eqn:Hfetch.
  pose proof (fetch_url_books _ _ _ _ _ _ Hfetch) as (Hdata & Hres & _).
  rewrite (result_of_config _ c _ links_config0) in Hres.
  rewrite (reply_config http _ c _ links_config0) in Hdata.
  destruct res as [[src links] st].
  apply fetch_url_spec in Hfetch as (Hcfg & Hvis & _ & Hreq & _).
  assert (Time.sleep (delay (self s)) = Ok tt ->
          Time.sleep (delay c) = Ok tt) as Hslept.
  { pose proof links_config0 as Hc. injection Hc as _ _ _ Hdl _ _.
    by rewrite Hdl. }
  assert (f ∈ futures s) as Hf
    by (rewrite Hfs; apply elem_of_app; right; left).
  assert (url_data (self s) !! fut_url f = None) as Hnew
      by (by apply (books_pending http s Hbooks)).
  assert (forall g, g ∈ pre ++ mkFuture (fut_id f) (fut_url f) (fut_depth f)
                           (Some (src, links, st)) :: post ->
                    g = mkFuture (fut_id f) (fut_url f) (fut_depth f)
                          (Some (src, links, st))
                    \/ g ∈ futures s) as Hcase.
  { intros g Hg. rewrite Hfs.
    apply elem_of_app in Hg as [Hg|[Hg|Hg]%elem_of_cons];
      [right|by left|right].
    - apply elem_of_app. by left.
    - apply elem_of_app. right. by right. }
  constructor; simpl; rewrite ?Hvis, ?Hdata.
  - by rewrite Hcfg.
  - intros u d Hq. destruct (links_queue0 u d Hq) as [? ?].
    split; [done|]. by apply linked_insert.
  - intros g [->|Hg]%Hcase; simpl.
    + destruct (links_futures0 f Hf) as (? & ? & ?).
      split; [done|]. split; [done|]. by apply linked_insert.
    + destruct (links_futures0 g Hg) as (? & ? & ?).
      split; [done|]. split; [done|]. by apply linked_insert.
  - intros g res [->|Hg]%Hcase; simpl.
    + intros [= <-]. split; [done|]. by rewrite lookup_insert_eq.
    + intros Hgr. destruct (links_result0 g res Hg Hgr) as [? Hgd].
      split; [done|]. rewrite lookup_insert_ne; [done|].
      intros E. by rewrite <- E, Hnew in Hgd.
  - destruct links_seed0 as (ct & cl & Hseed). exists ct, cl.
    rewrite lookup_insert_ne; [done|]. intros E.
    by rewrite <- E, Hnew in Hseed.
  - intros u.
    destruct Hreq as [(Hsl & -> & _)|(_ & -> & _)];
      [|by apply links_requested0].
    intros _. right. by apply Hslept.
  - intros u r Hl Hne.
    apply lookup_insert_Some in Hl as [[<- <-]|[_ Hl]].
    + rewrite record_of_depth.
      destruct (links_futures0 f Hf) as (? & ? & ?).
      split; [done|]. by apply linked_insert.
    + destruct (links_data0 u r Hl Hne) as [? ?].
      split; [done|]. by apply linked_insert.
  - intros p ct cl tx d Hp Hl Hlt.
    apply lookup_insert_Some in Hl as [[<- _]|[_ Hl]].
    + left. eexists. split; [apply elem_of_app; right; by left|done].
    + destruct (links_closed0 p ct cl tx d Hp Hl Hlt)
        as [(g & Hg & E)|Hc]; [|by right].
      left. rewrite Hfs in Hg.
      apply elem_of_app in Hg as [Hg|[->|Hg]%elem_of_cons].
      * exists g. split; [apply elem_of_app; by left|done].
      * eexists. split; [apply elem_of_app; right; by left|done].
      * exists g. split; [apply elem_of_app; right; by right|done].
Qed.

Lemma step_links c s s' :
  step http s s' -> run_inv s -> run_books http s -> run_links http c s ->
  run_links http c s'.
Proof.
  intros Hstep Hinv Hb Hl. destruct Hstep.
  - by apply links_move.
  - by apply links_move.
  - by apply links_submit.
  - by apply links_to_process.
  - apply links_consume; try done.
    by apply find_future_elem in H0 as [? _].
  - by apply links_move.
  - by apply links_move.
  - by apply links_complete.
Qed.

Lemma step_in_order c s s' :
  step http s s' -> in_order http c s -> in_order http c s'.
Proof.
  intros Hstep (Hi & Hb & Hl & Hp). split; [|split; [|split]].
  - by eapply step_inv.
  - by eapply step_books.
  - by eapply step_links.
  - by eapply step_pool.
Qed.

Lemma steps_in_order c s s' :
  rtc (step http) s s' -> in_order http c s -> in_order http c s'.
Proof. induction 1; eauto using step_in_order. Qed.

Lemma start_in_order c c' links order :
  well_formed c -> fresh c ->
  crawl_seed http c = SeedCrawl c' links ->
  order ≡ₚ elements links ->
  in_order http c (start c' order).
Proof.
  intros Hwf Hfresh Hseed Ho.
  split; [by eapply start_inv|].
  destruct (crawl_seed_links _ _ _ Hseed)
    as (ct & cl & tx & Hp & -> & Hdata & Hw).
  destruct Hfresh as (Hv & Hd & Hu & Hs & Hr).
  apply crawl_seed_crawl in Hseed
    as (Hcfg & Hvis & Hdis & Hreq & _ & Hstats & _).
  rewrite Hv in Hvis. rewrite Hd in Hdis. rewrite Hu in Hdata.
  rewrite Hr in Hreq. rewrite Hs in Hstats. simpl in *.
  split; [|split; [|apply start_pool]].
  - injection Hcfg as Hbu _ _ _ _ _.
    constructor; simpl;
      rewrite ?Hvis, ?Hdis, ?Hdata, ?Hreq, ?Hstats, ?Hbu; simpl.
    + intros u Hu'. apply list_elem_of_singleton in Hu'. subst u.
      rewrite lookup_insert_eq. by eexists.
    + intros _ u Hu'. apply list_elem_of_singleton.
      apply lookup_insert_is_Some in Hu' as [<-|[_ Hu']]; [done|].
      rewrite lookup_empty in Hu'. by destruct Hu'.
    + intros _ u r Hl. apply lookup_insert_Some in Hl as [[<- <-]|[_ Hl]].
      * by rewrite Hp.
      * by rewrite lookup_empty in Hl.
    + intros msg _ u r Hl Hne. rewrite lookup_insert_ne in Hl by done.
      by rewrite lookup_empty in Hl.
    + intros u [Hu'|Hu']%elem_of_union;
        [|by apply not_elem_of_empty in Hu'].
      apply elem_of_singleton in Hu'. subst u.
      rewrite lookup_insert_eq. by eexists.
    + intros u Hu'. by left.
    + intros f Hf. by apply elem_of_nil in Hf.
    + intros f Hf. by apply elem_of_nil in Hf.
    + rewrite count_records_insert by apply lookup_empty.
      by rewrite count_records_empty.
    + rewrite count_records_insert by apply lookup_empty.
      by rewrite count_records_empty.
  - constructor; simpl; rewrite ?Hvis, ?Hdata.
    + done.
    + intros u d Hq. apply list_elem_of_fmap in Hq as (l & [= -> ->] & Hl).
      apply list_elem_of_filter in Hl as [_ Hl].
      rewrite Ho in Hl. apply elem_of_elements in Hl.
      split; [lia|]. exists (base_url c), ct, cl, tx.
      split; [done|]. split; [|done]. by rewrite lookup_insert_eq.
    + intros f Hf. by apply elem_of_nil in Hf.
    + intros f res Hf. by apply elem_of_nil in Hf.
    + exists ct, cl. by rewrite lookup_insert_eq.
    + rewrite Hreq. intros u Hu'. left.
      by apply list_elem_of_singleton in Hu'.
    + intros u r Hl Hne. rewrite lookup_insert_ne in Hl by done.
      by rewrite lookup_empty in Hl.
    + intros p ct' cl' tx' d Hp' Hl _.
      apply lookup_insert_Some in Hl as [[<- [= <- <- <-]]|[_ Hl]];
        [|by rewrite lookup_empty in Hl].
      right. rewrite Hp in Hp'. injection Hp' as <-.
      intros l Hl.
      destruct (decide (l ∈ {[base_url c]} ∪ (∅ : gset string)))
        as [?|Hnv]; [by left|].
      right. apply list_elem_of_fmap. exists l. split; [done|].
      apply list_elem_of_filter. split.
      * simpl. rewrite ?Hvis. by apply bool_decide_pack.
      * rewrite Ho. by apply elem_of_elements.
Qed.

(** How a run of [crawl] ends: in a handler, after a seed that did not
    answer 200, or at the end of the loop, with the books in order and
    nothing left to do. *)
Lemma crawl_ledger c o :
  well_formed c -> fresh c -> crawl http c o ->
  (exists c', crawl_seed http c = SeedReturn c' /\ o = Returned c')
  \/ (exists c', crawl_seed http c = SeedReport c' /\ o = Reported c')
  \/ (exists c' links s,
        crawl_seed http c = SeedCrawl c' links
        /\ o = Reported (self s) /\ in_order http c s
        /\ futures s = [] /\ queue s = []).
Proof.
  intros Hwf Hfresh Hc.
  destruct Hc as [c' H|c' H|c' links order s H Ho Hsteps Hexit].
  - left. by exists c'.
  - right. left. by exists c'.
  - right. right. exists c', links, s.
    split; [done|]. split; [done|]. split.
    + eapply steps_in_order; [exact Hsteps|]. by eapply start_in_order.
    + by apply (steps_drained _ _ _ Hsteps).
Qed.
End LinksFacts.

Section ExtractionSources.
Import PyStr Crawler Ledger.

(** Every link of [extract_links] is what the body of its loop made of a
    match of one of the patterns. *)
Lemma extract_links_elem c page html u :
  u ∈ extract_links c page html ->
  exists pattern link,
    pattern ∈ Re.href_patterns /\ link ∈ Re.findall pattern html
    /\ extract_link c page link = Ok (Some u).
Proof.
  unfold extract_links.
  assert (forall pats (acc : gset string) v,
             v ∈ fold_left
                   (fun links pattern =>
                      (collect (extract_link c page)
                         (Re.findall pattern html) links).1) pats acc ->
             v ∈ acc
             \/ exists pattern link,
                  pattern ∈ pats /\ link ∈ Re.findall pattern html
                  /\ extract_link c page link = Ok (Some v)) as Hfold.
  { induction pats as [|p pats IH]; simpl; intros acc v; [by left|].
    intros [Hv|(q & l & Hq & Hl & Hb)]%IH.
    - apply collect_elem in Hv as [Hv|(x & Hx & Hb)]; [by left|].
      right. exists p, x. split; [by left|done].
    - right. exists q, l. split; [by right|done]. }
  intros [Hu|Hu]%Hfold; [by apply not_elem_of_empty in Hu|done].
Qed.

(** Every path of [find_potential_paths] is what the body of its loops
    made of one of the matches. *)
Lemma find_potential_paths_elem c html u :
  u ∈ find_potential_paths c html ->
  exists path, path ∈ mined_matches html /\ mine_path c path = Ok (Some u).
Proof.
  rewrite find_potential_paths_collect.
  intros [Hu|Hu]%collect_elem; [by apply not_elem_of_empty in Hu|done].
Qed.

Lemma extract_link_accepted c page link u :
  extract_link c page link = Ok (Some u) ->
  is_valid_link c u = true /\ exists x, normalize_url c x = Ok u.
Proof.
  unfold extract_link.
  destruct (is_empty _); [done|]. destruct (_ || _); [done|].
  match goal with
  | |- context [if ?b then Ok ?l else Urllib.urljoin ?p ?l] =>
      destruct (if b then Ok l else Urllib.urljoin p l) as [l'|]; [|done]
  end.
  simpl. destruct (normalize_url c l') as [a|] eqn:Hn; [|done]. simpl.
  destruct (is_valid_link c a) eqn:Hv; [|done].
  intros [= <-]. split; [done|]. by exists l'.
Qed.

Lemma mine_path_accepted c path u :
  mine_path c path = Ok (Some u) ->
  is_valid_link c u = true /\ exists x, normalize_url c x = Ok u.
Proof.
  unfold mine_path.
  destruct (normalize_url c _) as [a|] eqn:Hn; [|done]. simpl.
  destruct (is_valid_link c a) eqn:Hv; [|done].
  intros [= <-]. split; [done|]. by eexists.
Qed.

Lemma page_links_accepted c page text u :
  u ∈ page_links c page text ->
  is_valid_link c u = true /\ exists x, normalize_url c x = Ok u.
Proof.
  unfold page_links. intros [Hu|Hu]%elem_of_union.
  - apply extract_links_elem in Hu as (p & l & _ & _ & Hb).
    by eapply extract_link_accepted.
  - apply find_potential_paths_elem in Hu as (p & _ & Hb).
    by eapply mine_path_accepted.
Qed.

(** No pattern of the source matches in the empty string. *)
Lemma href_patterns_empty :
  Forall (fun pattern => Re.findall pattern "" = []) Re.href_patterns.
Proof. repeat constructor. Qed.

Lemma mined_matches_empty : mined_matches "" = [].
Proof. vm_compute. reflexivity. Qed.

Lemma extract_links_empty c page : extract_links c page "" = ∅.
Proof.
  unfold extract_links. generalize href_patterns_empty.
  induction Re.href_patterns as [|p ps IH]; [done|].
  intros [Hp Hps]%Forall_cons. simpl. rewrite Hp. simpl. by apply IH.
Qed.

Lemma find_potential_paths_empty c : find_potential_paths c "" = ∅.
Proof. by rewrite find_potential_paths_collect, mined_matches_empty. Qed.
End ExtractionSources.

Section FilterFacts.
Import PyStr Crawler.

(** What [is_valid_link] has checked when it answers [True]. *)
Lemma is_valid_link_checked c u :
  is_valid_link c u = true ->
  exists p, Urllib.urlparse u "" = Ok p
    /\ (Urllib.netloc p = "" \/ Urllib.netloc p = base_domain c)
    /\ forall ext, ext ∈ invalid_extensions ->
         endswith ext (lower (Urllib.path p)) = false.
Proof.
  unfold is_valid_link.
  destruct (Urllib.urlparse u "") as [p|]; [|done].
  destruct (negb (is_empty (Urllib.netloc p)) && _) eqn:Hn; [done|].
  cbv zeta. intros Hx. apply negb_true_iff in Hx.
  exists p. split; [done|]. split.
  - apply andb_false_iff in Hn as [Hn|Hn]; apply negb_false_iff in Hn.
    + left. by destruct (Urllib.netloc p).
    + right. by apply String.eqb_eq.
  - intros ext Hext. destruct (endswith ext _) eqn:E; [|done].
    rewrite <- Hx. symmetry. apply existsb_exists. exists ext.
    split; [|done]. by apply list_elem_of_In.
Qed.
End FilterFacts.

Section SeedFacts.
Import Crawler Ledger.
Local Open Scope Z_scope.
Variable http : transport.

Lemma crawl_seed_report c c' :
  crawl_seed http c = SeedReport c' ->
  exists st ct cl tx,
    http (base_url c) = Response st ct cl tx /\ st <> 200
    /\ c' = seed_answered c (StatusRecord st ct cl 0).
Proof.
  unfold crawl_seed.
  destruct (http (base_url c)) as [sc ct cl tx| | |m]; [|done..].
  destruct (sc =? 200) eqn:Hsc.
  - simpl. by destruct (max_workers c <=? 0).
  - apply Z.eqb_neq in Hsc. intros [= <-]. by exists sc, ct, cl, tx.
Qed.

Lemma crawl_seed_return c c' :
  crawl_seed http c = SeedReturn c' ->
  (exists ct cl tx,
      http (base_url c) = Response 200 ct cl tx /\ max_workers c <= 0
      /\ c' = seed_answered c (StatusRecord 200 ct cl 0))
  \/ (has_status (record_of (http (base_url c)) 0) = false
      /\ c' = request (base_url c) (visit (base_url c) c)).
Proof.
  unfold crawl_seed.
  destruct (http (base_url c)) as [sc ct cl tx| | |m];
    [|intros [= <-]; by right..].
  destruct (sc =? 200) eqn:Hsc; [|done].
  apply Z.eqb_eq in Hsc. subst sc. simpl.
  destruct (max_workers c <=? 0) eqn:Hw; [|done].
  apply Z.leb_le in Hw. intros [= <-]. left. by exists ct, cl, tx.
Qed.

Lemma seed_answered_fields c r :
  fresh c ->
  visited (seed_answered c r) = {[base_url c]}
  /\ discovered_urls (seed_answered c r) = {[base_url c]}
  /\ url_data (seed_answered c r) = {[base_url c := r]}
  /\ requested (seed_answered c r) = [base_url c]
  /\ stats (seed_answered c r) = mkStats 0 1 0
  /\ config (seed_answered c r) = config c.
Proof.
  intros (Hv & Hd & Hu & Hs & Hr). unfold seed_answered. simpl.
  rewrite Hv, Hd, Hu, Hs, Hr. simpl.
  by rewrite !(right_id_L ∅ (∪)), insert_empty.
Qed.


End SeedFacts.

(** * Facts about the report *)

Section OrderFacts.
Import PyStr Report.

Lemma str_le_trans a b c : str_le a b -> str_le b c -> str_le a c.
Proof.
  unfold str_le, String.leb. revert b c.
  induction a as [|x a IH]; intros [|y b] [|z c]; simpl; try done.
  unfold Ascii.compare.
  destruct (N.compare_spec (N_of_ascii x) (N_of_ascii y)) as [Exy|Lxy|Gxy];
    [| |done].
  - rewrite Exy.
    destruct (N.compare_spec (N_of_ascii y) (N_of_ascii z)); try done.
    apply IH.
  - destruct (N.compare_spec (N_of_ascii y) (N_of_ascii z)) as [Eyz|Lyz|Gyz];
      [| |done]; intros _ _.
    + rewrite <- Eyz. by apply N.compare_lt_iff in Lxy as ->.
    + assert (N_of_ascii x < N_of_ascii z)%N as Lxz by lia.
      by apply N.compare_lt_iff in Lxz as ->.
Qed.

#[global] Instance str_le_transitive : Transitive str_le.
Proof. intros a b c. apply str_le_trans. Qed.

#[global] Instance str_le_total : Total str_le.
Proof. intros a b. apply String.leb_total. Qed.

#[global] Instance str_le_antisymm : AntiSymm (=) str_le.
Proof. intros a b. apply String.leb_antisym. Qed.

(** [sorted] gives the elements of its argument, in ascending order, and
    does not depend on the order in which they come. *)
Lemma sorted_perm l : sorted l ≡ₚ l.
Proof. apply merge_sort_Permutation. Qed.

Lemma sorted_Sorted l : Sorted str_le (sorted l).
Proof. apply Sorted_merge_sort, _. Qed.

Lemma sorted_unique l1 l2 : l1 ≡ₚ l2 -> sorted l1 = sorted l2.
Proof.
  intros Hp. apply (Sorted_unique str_le); try apply sorted_Sorted.
  by rewrite !sorted_perm.
Qed.

Lemma sorted_elem u l : u ∈ sorted l <-> u ∈ l.
Proof. by rewrite sorted_perm. Qed.

Lemma sorted_NoDup l : NoDup l -> NoDup (sorted l).
Proof. by rewrite sorted_perm. Qed.
End OrderFacts.

Section LinesFacts.
Import PyStr Crawler Report.

Lemma split_app_newline (u : string) (text : string) :
  contains "010" u = false ->
  split "010" (u +:+ String "010" text) = u :: split "010" text.
Proof.
  induction u as [|a u IH]; simpl; [done|].
  destruct (Ascii.eqb a "010") eqn:E; [done|]. simpl. intros Hu.
  rewrite (IH Hu). done.
Qed.

Lemma split_lines (l : list string) :
  (forall u, u ∈ l -> contains "010" u = false) ->
  split "010" (fold_right (fun url text => url +:+ String "010" text) "" l)
  = l ++ [""].
Proof.
  induction l as [|u l IH]; intros Hl; [done|]. simpl.
  rewrite split_app_newline by (apply Hl; left).
  rewrite IH; [done|]. intros v Hv. apply Hl. by right.
Qed.
End LinesFacts.

Section CountFacts.
Import Crawler Ledger Report.

Lemma with_status_insert st (data : gmap string visit_record) u r :
  data !! u = None ->
  with_status st (<[u := r]> data)
  = (with_status st data
     + (if decide (record_status r = Some st) then 1 else 0))%nat.
Proof.
  intros Hu. unfold with_status. case_decide as E.
  - rewrite map_filter_insert_True by done.
    rewrite map_size_insert_None; [lia|].
    apply map_lookup_filter_None. by left.
  - rewrite map_filter_insert_not'; [lia|done|].
    intros y Hy. by rewrite Hu in Hy.
Qed.

Lemma sum_insert_succ (counts : gmap Z nat) st :
  sum_list_with snd
    (map_to_list (<[st := S (default 0%nat (counts !! st))]> counts))
  = S (sum_list_with snd (map_to_list counts)).
Proof.
  destruct (counts !! st) as [n|] eqn:E; simpl.
  - rewrite <- insert_delete_eq.
    rewrite map_to_list_insert by apply lookup_delete_eq.
    rewrite <- (insert_delete_id counts st n E) at 2.
    rewrite map_to_list_insert by apply lookup_delete_eq.
    done.
  - by rewrite map_to_list_insert.
Qed.

(** What the loop of [status_counts] has counted. *)
Lemma status_counts_spec (data : gmap string visit_record) :
  (forall st, default 0%nat (status_counts data !! st) = with_status st data)
  /\ (forall st n, status_counts data !! st = Some n -> (0 < n)%nat)
  /\ Z.of_nat (sum_list_with snd (map_to_list (status_counts data)))
     = count_records has_status data.
Proof.
  unfold status_counts.
  apply (map_fold_weak_ind
           (fun counts (m : gmap string visit_record) =>
              (forall st, default 0%nat (counts !! st) = with_status st m)
              /\ (forall st n, counts !! st = Some n -> (0 < n)%nat)
              /\ Z.of_nat (sum_list_with snd (map_to_list counts))
                 = count_records has_status m)).
  - split; [|split].
    + intros st. unfold with_status.
      by rewrite lookup_empty, map_filter_empty, map_size_empty.
    + intros st n. by rewrite lookup_empty.
    + by rewrite map_to_list_empty, count_records_empty.
  - intros u r m counts Hu (Hc & Hpos & Hsum).
    destruct r as [sc ct cl dp|e dp].
    + split; [|split].
      * intros st. rewrite with_status_insert by done.
        case_decide as E; simpl in E.
        -- injection E as ->. rewrite lookup_insert_eq. simpl.
           rewrite Hc. lia.
        -- rewrite lookup_insert_ne by congruence. rewrite Hc. lia.
      * intros st n Hl.
        apply lookup_insert_Some in Hl as [[_ <-]|[_ Hl]]; [lia|].
        by eapply Hpos.
      * rewrite sum_insert_succ, count_records_insert by done. simpl. lia.
    + split; [|split]; [|done|].
      * intros st. rewrite with_status_insert by done.
        case_decide as E; simpl in E; [done|]. rewrite Hc. lia.
      * rewrite count_records_insert by done. simpl. lia.
Qed.

#[global] Instance pair_le_total : Total pair_le.
Proof. intros [a x] [b y]. unfold pair_le. simpl. lia. Qed.

#[global] Instance pair_le_trans : Transitive pair_le.
Proof. intros [a x] [b y] [c z]. unfold pair_le. simpl. lia. Qed.
End CountFacts.

Section GroupFacts.
Import PyStr Crawler Report.
Context {K : Type} `{EqDecision K}.
Implicit Types groups : list (K * list string).

Lemma append_under_keys (key : K) u groups :
  fst <$> append_under key u groups
  = if decide (key ∈ fst <$> groups) then fst <$> groups
    else (fst <$> groups) ++ [key].
Proof.
  induction groups as [|[k urls] groups IH].
  - case_decide as Hin; [|reflexivity]. rewrite fmap_nil in Hin.
    by apply elem_of_nil in Hin.
  - cbn [append_under]. destruct (decide (key = k)) as [->|Hne].
    + clear IH. rewrite decide_True by (rewrite fmap_cons; by left). done.
    + rewrite !fmap_cons, IH. cbn [fst]. clear IH.
      destruct (decide (key ∈ fst <$> groups)) as [Hin|Hnin].
      * rewrite decide_True by (by right). done.
      * rewrite decide_False; [done|].
        intros [?|?]%elem_of_cons; [done|]. by apply Hnin.
Qed.

Lemma append_under_urls (key : K) u groups :
  concat (snd <$> append_under key u groups)
  ≡ₚ concat (snd <$> groups) ++ [u].
Proof.
  induction groups as [|[k urls] groups IH]; simpl; [done|].
  destruct (decide (key = k)) as [->|Hne]; simpl.
  - rewrite <- !app_assoc. apply Permutation_app_head.
    apply Permutation_app_comm.
  - rewrite IH. by rewrite app_assoc.
Qed.

Lemma append_under_elem (key : K) u groups k urls' :
  (k, urls') ∈ append_under key u groups ->
  (k, urls') ∈ groups
  \/ (k = key /\ urls' = [u])
  \/ (k = key /\ exists urls, (key, urls) ∈ groups /\ urls' = urls ++ [u]).
Proof.
  induction groups as [|[k0 urls0] groups IH]; simpl.
  - intros Hin. apply list_elem_of_singleton in Hin.
    injection Hin as -> ->. right. by left.
  - destruct (decide (key = k0)) as [->|Hne].
    + intros [[= -> ->]|Hin]%elem_of_cons.
      * right. right. split; [done|]. exists urls0. split; [by left|done].
      * left. by right.
    + intros [[= -> ->]|Hin]%elem_of_cons; [left; by left|].
      destruct (IH Hin) as [?|[?|(-> & urls & Hu & ->)]].
      * left. by right.
      * right. by left.
      * right. right. split; [done|]. exists urls. split; [by right|done].
Qed.

Lemma append_under_filed (key_of : string -> K -> Prop) key u groups :
  key_of u key -> filed key_of groups ->
  filed key_of (append_under key u groups).
Proof.
  intros Hk [Hnd Hg]. split.
  - rewrite append_under_keys. case_decide as Hin; [done|].
    apply NoDup_app. split; [done|]. split; [|apply NoDup_singleton].
    intros x Hx Hx'. apply list_elem_of_singleton in Hx'. by subst x.
  - intros k urls'
      [Hin|[(-> & ->)|(-> & urls & Hin & ->)]]%append_under_elem.
    + by apply Hg.
    + split; [done|]. intros v Hv. apply list_elem_of_singleton in Hv.
      by subst v.
    + destruct (Hg _ _ Hin) as [_ Hall]. split; [by destruct urls|].
      intros v [Hv|Hv]%elem_of_app; [by apply Hall|].
      apply list_elem_of_singleton in Hv. by subst v.
Qed.

Lemma filed_nil (key_of : string -> K -> Prop) : filed key_of [].
Proof.
  split; [constructor|]. intros t urls Hin. by apply elem_of_nil in Hin.
Qed.


(** With no key twice, [under] finds the list of a key. *)
Lemma under_elem (key : K) urls groups :
  NoDup (fst <$> groups) -> (key, urls) ∈ groups ->
  under key groups = urls.
Proof.
  unfold under. induction groups as [|[k us] groups IH]; simpl.
  - by intros _ Hin%elem_of_nil.
  - intros [Hk Hnd]%NoDup_cons [[= -> ->]|Hin]%elem_of_cons.
    + by rewrite bool_decide_eq_true_2.
    + rewrite bool_decide_eq_false_2; [by apply IH|].
      intros ->. apply Hk. by apply (list_elem_of_fmap_2 fst _ (key, urls)).
Qed.

(** A URL is filed once, under its key. *)
Lemma filed_unique (key_of : string -> K -> Prop) groups k1 k2 us1 us2 u :
  (forall v a b, key_of v a -> key_of v b -> a = b) ->
  filed key_of groups ->
  (k1, us1) ∈ groups -> (k2, us2) ∈ groups -> u ∈ us1 -> u ∈ us2 ->
  k1 = k2 /\ us1 = us2.
Proof.
  intros Hfun [Hnd Hg] H1 H2 Hu1 Hu2.
  assert (k1 = k2) as <-.
  { eapply Hfun; [by eapply Hg|by eapply Hg]. }
  split; [done|].
  rewrite <- (under_elem k1 us1 groups Hnd H1).
  by rewrite <- (under_elem k1 us2 groups Hnd H2).
Qed.
End GroupFacts.

Section TypeFacts.
Import PyStr Crawler Report.

(** What the loop of [paths_by_type] has filed when it ends without an
    exception. *)
Lemma paths_by_type_spec order groups0 groups :
  filed type_of groups0 -> paths_by_type order groups0 = Ok groups ->
  filed type_of groups
  /\ concat (snd <$> groups) ≡ₚ concat (snd <$> groups0) ++ order.
Proof.
  revert groups0. induction order as [|u order IH]; simpl; intros groups0 Hf.
  - intros [= <-]. split; [done|]. by rewrite app_nil_r.
  - destruct (Urllib.urlparse u "") as [p|] eqn:Hp; [|done]. simpl.
    intros Hr. apply IH in Hr as [Hfiled Hperm].
    + split; [done|]. rewrite Hperm, append_under_urls.
      by rewrite <- app_assoc.
    + apply append_under_filed; [|done]. by exists p.
Qed.


(** An exception of [urlparse] ends the loop. *)
Lemma paths_by_type_raise order groups0 groups :
  paths_by_type order groups0 = Ok groups ->
  forall u, u ∈ order -> exists p, Urllib.urlparse u "" = Ok p.
Proof.
  revert groups0. induction order as [|u order IH]; simpl; intros groups0.
  - intros _ v Hv. by apply elem_of_nil in Hv.
  - destruct (Urllib.urlparse u "") as [p|] eqn:Hp; [|done]. simpl.
    intros Hr v [->|Hv]%elem_of_cons; [by exists p|]. by eapply IH.
Qed.

Lemma urls_by_status_spec data order groups0 :
  filed (fun u st => status_or_zero data u = st) groups0 ->
  let groups :=
    fold_left (fun groups url =>
                 append_under (status_or_zero data url) url groups)
              order groups0 in
  filed (fun u st => status_or_zero data u = st) groups
  /\ concat (snd <$> groups) ≡ₚ concat (snd <$> groups0) ++ order.
Proof.
  revert groups0. induction order as [|u order IH]; simpl; intros groups0 Hf.
  - split; [done|]. by rewrite app_nil_r.
  - destruct (IH (append_under (status_or_zero data u) u groups0))
      as [Hfiled Hperm]; [by apply append_under_filed|].
    split; [done|]. rewrite Hperm, append_under_urls.
    by rewrite <- app_assoc.
Qed.
End TypeFacts.

Section SectionFacts.
Import PyStr Crawler Report.
Local Open Scope Z_scope.

Lemma concat_perm {A} (l1 l2 : list (list A)) :
  l1 ≡ₚ l2 -> concat l1 ≡ₚ concat l2.
Proof.
  induction 1 as [|x l1 l2 _ IH|x y l|l1 l2 l3 _ IH1 _ IH2]; simpl.
  - done.
  - by rewrite IH.
  - rewrite !app_assoc. apply Permutation_app_tail, Permutation_app_comm.
  - by rewrite IH1.
Qed.

Lemma concat_sorted {K} (f : K -> list string) (keys : list K) :
  concat ((fun k => sorted (f k)) <$> keys) ≡ₚ concat (f <$> keys).
Proof.
  induction keys as [|k keys IH]; simpl; [done|].
  by rewrite IH, sorted_perm.
Qed.

Lemma under_keys {K} `{EqDecision K} (groups : list (K * list string)) :
  NoDup (fst <$> groups) ->
  (fun key => under key groups) <$> (fst <$> groups) = snd <$> groups.
Proof.
  intros Hnd. rewrite <- list_fmap_compose. apply list_fmap_ext.
  intros i [k urls] Hi. simpl. apply under_elem; [done|].
  by eapply list_elem_of_lookup_2.
Qed.

Lemma keyed_fst {K A} (f : K -> A) (keys : list K) :
  fst <$> ((fun k => (k, f k)) <$> keys) = keys.
Proof. rewrite <- list_fmap_compose. apply list_fmap_id. Qed.

Lemma keyed_snd {K A} (f : K -> A) (keys : list K) :
  snd <$> ((fun k => (k, f k)) <$> keys) = f <$> keys.
Proof. by rewrite <- list_fmap_compose. Qed.

Lemma keyed_elem {K A} (f : K -> A) (keys : list K) k a :
  (k, a) ∈ (fun k => (k, f k)) <$> keys <-> k ∈ keys /\ a = f k.
Proof.
  rewrite list_elem_of_fmap. split.
  - by intros (k' & [= -> ->] & Hk).
  - intros [Hk ->]. by exists k.
Qed.



End SectionFacts.

Section ParseFacts.
Import PyStr Crawler Ledger.
Local Open Scope Z_scope.
Variable http : transport.



End ParseFacts.

(** * Further properties of the code *)

Import Crawler Ledger Examples Samples.
Local Open Scope Z_scope.

(** The run on the small site, step by step. *)
Lemma site_seed_crawl :
  crawl_seed site (crawler_h 2 5) = SeedCrawl site_seeded site_links.
Proof. vm_compute. reflexivity. Qed.

Lemma site_end_run : run site 20 site_start = Some site_end.
Proof. vm_compute. reflexivity. Qed.

Lemma site_end_steps : rtc (step site) site_start site_end.
Proof. exact (proj1 (run_steps site 20 _ _ site_end_run)). Qed.

Lemma site_end_crawl : crawl site (crawler_h 2 5) (Reported (self site_end)).
Proof.
  eapply crawl_threaded;
    [exact site_seed_crawl|reflexivity|exact site_end_steps|].
  vm_compute. reflexivity.
Qed.

Lemma crawler_h_init d w : init "http://h/" d w 0.2%float = Ok (crawler_h d w).
Proof. reflexivity. Qed.

(** X1.  [_threaded_crawl] never holds more than [2 * max_workers] futures:
    in every state of the loop, whatever the order in which workers finish,
    [len(futures) <= 2 * max_workers]. *)
Theorem pool_never_exceeds_twice_workers (http : transport) (url : string)
    (d w : Z) (dl : float) (c c' : AdvancedWebCrawler)
    (links : gset string)
    (order : list string) (s : run_state) :
  init url d w dl = Ok c -> crawl_seed http c = SeedCrawl c' links ->
  order ≡ₚ elements links -> rtc (step http) (start c' order) s ->
  Z.of_nat (length (futures s)) <= 2 * max_workers c.
Proof.
  intros Hinit Hseed Ho Hsteps.
  pose proof (init_fresh _ _ _ _ _ Hinit) as Hfresh.
  pose proof (init_well_formed _ _ _ _ _ Hinit) as Hwf.
  pose proof (start_in_order http c c' links order Hwf Hfresh Hseed Ho) as H0.
  destruct (steps_in_order http c _ _ Hsteps H0) as (_ & _ & Hl & Hp).
  destruct (crawl_seed_links http _ _ _ Hseed) as (_ & _ & _ & _ & _ & _ & Hw).
  destruct Hp as [Hbound _]. destruct Hl as [Hcfg _ _ _ _ _ _].
  injection Hcfg as _ _ Hmw _ _. rewrite Hmw in Hbound. lia.
Qed.

Lemma pool_never_exceeds_twice_workers_witness :
  init "http://h/" 2 5 0.2%float = Ok (crawler_h 2 5)
  /\ crawl_seed site (crawler_h 2 5) = SeedCrawl site_seeded site_links
  /\ elements site_links ≡ₚ elements site_links
  /\ rtc (step site) (start site_seeded (elements site_links)) site_end
  /\ Z.of_nat (length (futures site_end)) <= 2 * max_workers (crawler_h 2 5).
Proof.
  split; [reflexivity|]. split; [exact site_seed_crawl|].
  split; [reflexivity|]. split; [exact site_end_steps|].
  exact (pool_never_exceeds_twice_workers site "http://h/" 2 5 0.2%float
           (crawler_h 2 5)
           site_seeded site_links (elements site_links) site_end
           eq_refl site_seed_crawl (reflexivity _) site_end_steps).
Defined.

(** X2.  The control loop never blocks and never fails on a future it took
    from its snapshot: every state of [_threaded_crawl] before the end of
    the loop has a next step, so [futures.pop(future)] always finds its
    key. *)
Theorem control_loop_never_stuck (http : transport) (url : string)
    (d w : Z) (dl : float) (c c' : AdvancedWebCrawler)
    (links : gset string)
    (order : list string) (s : run_state) :
  init url d w dl = Ok c -> crawl_seed http c = SeedCrawl c' links ->
  order ≡ₚ elements links -> rtc (step http) (start c' order) s ->
  at_ s <> AtExit ->
  exists s', step http s s'.
Proof.
  intros Hinit Hseed Ho Hsteps Hat.
  pose proof (init_fresh _ _ _ _ _ Hinit) as Hfresh.
  pose proof (init_well_formed _ _ _ _ _ Hinit) as Hwf.
  pose proof (start_in_order http c c' links order Hwf Hfresh Hseed Ho) as H0.
  destruct (steps_in_order http c _ _ Hsteps H0) as (_ & _ & _ & Hp).
  by apply pool_progress.
Qed.

Lemma control_loop_never_stuck_witness :
  init "http://h/" 2 5 0.2%float = Ok (crawler_h 2 5)
  /\ crawl_seed site (crawler_h 2 5) = SeedCrawl site_seeded site_links
  /\ elements site_links ≡ₚ elements site_links
  /\ rtc (step site) (start site_seeded (elements site_links)) site_start
  /\ at_ site_start <> AtExit
  /\ exists s', step site site_start s'.
Proof.
  split; [reflexivity|]. split; [exact site_seed_crawl|].
  split; [reflexivity|]. split; [apply rtc_refl|].
  split; [discriminate|].
  exact (control_loop_never_stuck site "http://h/" 2 5 0.2%float
           (crawler_h 2 5)
           site_seeded site_links (elements site_links) site_start
           eq_refl site_seed_crawl (reflexivity _) (rtc_refl _ _)
           (fun E : at_ site_start = AtExit =>
              eq_ind AtLoop
                (fun p => match p with AtExit => False | _ => True end)
                I AtExit E)).
Defined.

(** X3.  Whatever the schedule, [crawl] hands no URL string to
    [requests.get] twice: the list of requested URLs has no duplicate. *)
Theorem each_url_requested_once (http : transport) (url : string) (d w : Z)
    (dl : float) (c : AdvancedWebCrawler) (o : outcome) :
  init url d w dl = Ok c -> crawl http c o -> NoDup (requested (final_state o)).
Proof.
  intros Hinit Hcrawl.
  pose proof (init_fresh _ _ _ _ _ Hinit) as Hfresh.
  pose proof (init_well_formed _ _ _ _ _ Hinit) as Hwf.
  destruct (crawl_ledger http c o Hwf Hfresh Hcrawl)
    as [(c' & Hs & ->)|[(c' & Hs & ->)|(c' & links & s & Hs & -> & Hord & _)]].
  - destruct (crawl_seed_spec http c) as (_ & _ & Hreq & _).
    rewrite Hs in Hreq. simpl in *. rewrite Hreq.
    destruct Hfresh as (_ & _ & _ & _ & ->). apply NoDup_singleton.
  - destruct (crawl_seed_spec http c) as (_ & _ & Hreq & _).
    rewrite Hs in Hreq. simpl in *. rewrite Hreq.
    destruct Hfresh as (_ & _ & _ & _ & ->). apply NoDup_singleton.
  - destruct Hord as (Hinv & _). by destruct Hinv.
Qed.

Lemma each_url_requested_once_witness :
  init "http://h/" 2 5 0.2%float = Ok (crawler_h 2 5)
  /\ crawl site (crawler_h 2 5) (Reported (self site_end))
  /\ NoDup (requested (final_state (Reported (self site_end)))).
Proof.
  split; [reflexivity|]. split; [exact site_end_crawl|].
  exact (each_url_requested_once site "http://h/" 2 5 0.2%float
           (crawler_h 2 5)
           (Reported (self site_end)) eq_refl site_end_crawl).
Defined.









(** X8.  The filter of [is_valid_link] holds for everything the crawler
    requests after the seed: each such URL parses, and its path, in lower
    case, ends with none of the extensions of [invalid_extensions]. *)
Theorem requested_urls_pass_filter (http : transport) (url : string)
    (d w : Z) (dl : float) (c : AdvancedWebCrawler) (o : outcome)
    (u : string) :
  init url d w dl = Ok c -> crawl http c o ->
  u ∈ requested (final_state o) -> u <> base_url c ->
  is_valid_link c u = true
  /\ exists p, Urllib.urlparse u "" = Ok p
       /\ forall ext, ext ∈ invalid_extensions ->
            PyStr.endswith ext (PyStr.lower (Urllib.path p)) = false.
Proof.
  intros Hinit Hcrawl Hu Hne.
  pose proof (init_fresh _ _ _ _ _ Hinit) as Hfresh.
  pose proof (init_well_formed _ _ _ _ _ Hinit) as Hwf.
  assert (forall c', requested c' = requested c ++ [base_url c] ->
                     ~ u ∈ requested c') as Hseed.
  { intros c' Hreq. rewrite Hreq.
    destruct Hfresh as (_ & _ & _ & _ & ->). simpl.
    by intros ?%list_elem_of_singleton. }
  assert (is_valid_link c u = true) as Hv.
  { destruct (crawl_ledger http c o Hwf Hfresh Hcrawl)
      as [(c' & Hs & ->)|[(c' & Hs & ->)
                         |(c' & links & s & Hs & -> & Hord & _)]].
    - destruct (crawl_seed_spec http c) as (_ & _ & Hreq & _).
      rewrite Hs in Hreq. by apply Hseed in Hreq.
    - destruct (crawl_seed_spec http c) as (_ & _ & Hreq & _).
      rewrite Hs in Hreq. by apply Hseed in Hreq.
    - simpl in *. destruct Hord as (_ & Hb & Hl & _). destruct Hb, Hl.
      apply books_requested0 in Hu as [r Hr].
      destruct (links_data0 u r Hr Hne) as (_ & p & ct & cl & tx & _ & _ & Hin).
      by apply page_links_accepted in Hin as [? _]. }
  split; [done|].
  apply is_valid_link_checked in Hv as (p & Hp & _ & Hext). by exists p.
Qed.

Lemma requested_urls_pass_filter_witness :
  init "http://h/" 2 5 0.2%float = Ok (crawler_h 2 5)
  /\ crawl site (crawler_h 2 5) (Reported (self site_end))
  /\ "http://h/a" ∈ requested (final_state (Reported (self site_end)))
  /\ "http://h/a" <> base_url (crawler_h 2 5)
  /\ is_valid_link (crawler_h 2 5) "http://h/a" = true
  /\ exists p, Urllib.urlparse "http://h/a" "" = Ok p
       /\ forall ext, ext ∈ invalid_extensions ->
            PyStr.endswith ext (PyStr.lower (Urllib.path p)) = false.
Proof.
  split; [reflexivity|]. split; [exact site_end_crawl|].
  assert ("http://h/a" ∈ requested (self site_end)) as Hin.
  { replace (requested (self site_end))
      with ["http://h"; "http://h/a"; "http://h/"]
      by (vm_compute; reflexivity).
    right. left. }
  split; [exact Hin|].
  assert ("http://h/a" <> base_url (crawler_h 2 5)) as Hne
    by (intros E; discriminate E).
  split; [exact Hne|].
  exact (requested_urls_pass_filter site "http://h/" 2 5 0.2%float
           (crawler_h 2 5)
           (Reported (self site_end)) "http://h/a" eq_refl site_end_crawl
           Hin Hne).
Defined.

(** X9.  A seed that answers with a status other than 200 ends the crawl
    at once, with a report: the seed is recorded at depth 0 and counted as
    a successful request, and nothing else is requested. *)
Theorem seed_not_200_reports_seed_only (http : transport) (url : string)
    (d w : Z) (dl : float) (c : AdvancedWebCrawler) (o : outcome)
    (st : Z) (ct : string) (cl : Z) (tx : string) :
  init url d w dl = Ok c -> http (base_url c) = Response st ct cl tx ->
  st <> 200 -> crawl http c o ->
  reported o = true
  /\ requested (final_state o) = [base_url c]
  /\ url_data (final_state o) = {[base_url c := StatusRecord st ct cl 0]}
  /\ discovered_urls (final_state o) = {[base_url c]}
  /\ stats (final_state o) = mkStats 0 1 0.
Proof.
  intros Hinit Hp Hst Hcrawl.
  pose proof (init_fresh _ _ _ _ _ Hinit) as Hfresh.
  destruct Hcrawl as [c' H|c' H|c' links order s H Ho Hsteps Hexit].
  - apply crawl_seed_return in H as [(ct' & cl' & tx' & Hp' & _)|(Hs & _)].
    + rewrite Hp in Hp'. by injection Hp' as ->.
    + by rewrite Hp in Hs.
  - apply crawl_seed_report in H as (st' & ct' & cl' & tx' & Hp' & _ & ->).
    rewrite Hp in Hp'. injection Hp' as <- <- <- <-. simpl final_state.
    destruct (seed_answered_fields c (StatusRecord st ct cl 0) Hfresh)
      as (_ & -> & -> & -> & -> & _).
    done.
  - apply crawl_seed_links in H as (ct' & cl' & tx' & Hp' & _).
    rewrite Hp in Hp'. by injection Hp' as ->.
Qed.

Lemma seed_not_200_reports_seed_only_witness :
  init "http://h/" 2 5 0.2%float = Ok (crawler_h 2 5)
  /\ gone (base_url (crawler_h 2 5)) = Response 404 "text/html" 9 "not found"
  /\ 404 <> 200
  /\ crawl gone (crawler_h 2 5)
       (Reported (seed_answered (crawler_h 2 5)
                    (StatusRecord 404 "text/html" 9 0)))
  /\ (let o := Reported (seed_answered (crawler_h 2 5)
                           (StatusRecord 404 "text/html" 9 0)) in
      reported o = true
      /\ requested (final_state o) = [base_url (crawler_h 2 5)]
      /\ url_data (final_state o)
         = {[base_url (crawler_h 2 5) := StatusRecord 404 "text/html" 9 0]}
      /\ discovered_urls (final_state o) = {[base_url (crawler_h 2 5)]}
      /\ stats (final_state o) = mkStats 0 1 0).
Proof.
  split; [reflexivity|]. split; [reflexivity|].
  assert (404 <> 200) as Hne by lia.
  split; [exact Hne|].
  assert (crawl gone (crawler_h 2 5)
            (Reported (seed_answered (crawler_h 2 5)
                         (StatusRecord 404 "text/html" 9 0)))) as Hc
    by (apply crawl_report; reflexivity).
  split; [exact Hc|].
  exact (seed_not_200_reports_seed_only gone "http://h/" 2 5 0.2%float
           (crawler_h 2 5)
           _ 404 "text/html" 9 "not found" eq_refl eq_refl Hne Hc).
Defined.



Import Report.

(** X11.  The status lines of [display_results]: a status code has a line
    exactly when some entry of [url_data] holds it, with the number of
    those entries; the lines come in ascending order of the code, no code
    twice, and their numbers add up to the number of entries that hold a
    status code. *)
Theorem status_lines_count (data : gmap string visit_record) :
  (forall st n, (st, n) ∈ status_lines data
                <-> (0 < n)%nat /\ n = with_status st data)
  /\ Sorted pair_le (status_lines data)
  /\ NoDup (fst <$> status_lines data)
  /\ Z.of_nat (sum_list_with snd (status_lines data))
     = count_records has_status data.
Proof.
  destruct (status_counts_spec data) as (Hc & Hpos & Hsum).
  unfold status_lines. split; [|split; [|split]].
  - intros st n. rewrite merge_sort_Permutation, elem_of_map_to_list.
    split.
    + intros Hl. split; [by eapply Hpos|]. by rewrite <- Hc, Hl.
    + intros [Hn ->]. specialize (Hc st).
      destruct (status_counts data !! st) as [m|]; simpl in Hc; [by subst m|].
      lia.
  - apply Sorted_merge_sort, _.
  - rewrite merge_sort_Permutation. apply NoDup_fst_map_to_list.
  - by rewrite merge_sort_Permutation.
Qed.

(** X12.  When the loop that fills [paths_by_type] ends without an
    exception, every URL it went through has been parsed and is filed
    once, under the type of its path; no type is there twice and no list
    is empty. *)
Theorem paths_by_type_files_each_url_once (order : list string)
    (groups : list (category * list string)) :
  paths_by_type order [] = Ok groups ->
  NoDup (fst <$> groups)
  /\ concat (snd <$> groups) ≡ₚ order
  /\ forall t urls, (t, urls) ∈ groups ->
       urls <> []
       /\ forall u, u ∈ urls ->
            exists p, Urllib.urlparse u "" = Ok p
                      /\ classify (Urllib.path p) = t.
Proof.
  intros Hr.
  destruct (paths_by_type_spec order [] groups (filed_nil _) Hr)
    as [[Hnd Hg] Hperm].
  split; [done|]. split; [done|]. exact Hg.
Qed.

Lemma paths_by_type_files_each_url_once_witness :
  paths_by_type ["http://h/admin/x.php"; "http://h/a.php"; "http://h/Admin"]
    []
  = Ok [(Admin, ["http://h/admin/x.php"; "http://h/Admin"]);
        (Php, ["http://h/a.php"])]
  /\ NoDup (fst <$> [(Admin, ["http://h/admin/x.php"; "http://h/Admin"]);
                     (Php, ["http://h/a.php"])])
  /\ concat (snd <$> [(Admin, ["http://h/admin/x.php"; "http://h/Admin"]);
                      (Php, ["http://h/a.php"])])
     ≡ₚ ["http://h/admin/x.php"; "http://h/a.php"; "http://h/Admin"]
  /\ forall t urls,
       (t, urls) ∈ [(Admin, ["http://h/admin/x.php"; "http://h/Admin"]);
                    (Php, ["http://h/a.php"])] ->
       urls <> []
       /\ forall u, u ∈ urls ->
            exists p, Urllib.urlparse u "" = Ok p
                      /\ classify (Urllib.path p) = t.
Proof.
  split; [reflexivity|].
  exact (paths_by_type_files_each_url_once
           ["http://h/admin/x.php"; "http://h/a.php"; "http://h/Admin"]
           [(Admin, ["http://h/admin/x.php"; "http://h/Admin"]);
            (Php, ["http://h/a.php"])] eq_refl).
Defined.




(** X14.  The list file and the JSON file of [save_results] enumerate the
    discovered URLs in the same ascending order, each URL once; when no
    URL holds a line feed, the lines of the list file read back are
    exactly these URLs. *)
Theorem url_list_lines (c : AdvancedWebCrawler) :
  (forall u, u ∈ discovered_urls c -> PyStr.contains "010" u = false) ->
  let urls := sorted (elements (discovered_urls c)) in
  PyStr.split "010" (list_text c) = urls ++ [""]
  /\ snd <$> json_urls c = urls
  /\ Sorted str_le urls /\ NoDup urls
  /\ forall u, u ∈ urls <-> u ∈ discovered_urls c.
Proof.
  intros Hnl urls. split; [|split; [|split; [|split]]].
  - unfold list_text. apply split_lines. intros u Hu. apply Hnl.
    apply elem_of_elements. by apply (sorted_elem u).
  - unfold json_urls. rewrite <- list_fmap_compose. apply list_fmap_id.
  - apply sorted_Sorted.
  - apply sorted_NoDup, NoDup_elements.
  - intros u. subst urls. by rewrite sorted_elem, elem_of_elements.
Qed.

Lemma site_end_discovered :
  elements (discovered_urls (self site_end))
  = ["http://h/a"; "http://h/"; "http://h"].
Proof. vm_compute. reflexivity. Qed.

Lemma url_list_lines_witness :
  (forall u, u ∈ discovered_urls (self site_end) ->
             PyStr.contains "010" u = false)
  /\ (let urls := sorted (elements (discovered_urls (self site_end))) in
      PyStr.split "010" (list_text (self site_end)) = urls ++ [""]
      /\ snd <$> json_urls (self site_end) = urls
      /\ Sorted str_le urls /\ NoDup urls
      /\ forall u, u ∈ urls <-> u ∈ discovered_urls (self site_end)).
Proof.
  assert (forall u, u ∈ discovered_urls (self site_end) ->
                    PyStr.contains "010" u = false) as Hnl.
  { intros u Hu. apply elem_of_elements in Hu.
    rewrite site_end_discovered in Hu.
    repeat (apply elem_of_cons in Hu as [->|Hu]; [reflexivity|]).
    apply elem_of_nil in Hu. destruct Hu. }
  split; [exact Hnl|]. exact (url_list_lines (self site_end) Hnl).
Defined.

(** X15.  The sections [save_results] writes to the text file hold each
    discovered URL once, under its status code, or under 0 when it has
    none; no status comes twice, the statuses are in ascending order, and
    so are the URLs of each section. *)
Theorem text_file_sections (c : AdvancedWebCrawler) (order : list string) :
  (NoDup (fst <$> txt_sections c order)
   /\ forall st urls, (st, urls) ∈ txt_sections c order ->
        urls <> []
        /\ forall u, u ∈ urls -> status_or_zero (url_data c) u = st)
  /\ concat (snd <$> txt_sections c order) ≡ₚ order
  /\ Sorted Z.le (fst <$> txt_sections c order)
  /\ forall st urls, (st, urls) ∈ txt_sections c order ->
       Sorted str_le urls.
Proof.
  unfold txt_sections. cbv zeta.
  destruct (urls_by_status_spec (url_data c) order [] (filed_nil _))
    as [[Hnd Hg] Hperm]. simpl in Hperm.
  fold (urls_by_status (url_data c) order) in Hnd, Hg, Hperm.
  generalize dependent (urls_by_status (url_data c) order).
  intros groups Hnd Hg Hperm.
  assert (forall st urls,
             st ∈ merge_sort Z.le (fst <$> groups) ->
             urls = sorted (under st groups) ->
             exists urls0, (st, urls0) ∈ groups /\ urls = sorted urls0)
    as Hsec.
  { intros st urls Hk ->.
    rewrite merge_sort_Permutation in Hk.
    apply list_elem_of_fmap in Hk as ([k' urls0] & -> & Hin). simpl.
    exists urls0. split; [done|]. by rewrite (under_elem k' urls0). }
  split; [split|split; [|split]].
  - rewrite keyed_fst, merge_sort_Permutation. exact Hnd.
  - intros st urls [Hk Hu]%keyed_elem.
    destruct (Hsec st urls Hk Hu) as (urls0 & Hin & ->).
    destruct (Hg _ _ Hin) as [Hne Hall]. split.
    + intros E. apply Hne. pose proof (sorted_perm urls0) as Hp.
      rewrite E in Hp. apply Permutation_nil in Hp. exact Hp.
    + intros u Hu'. apply Hall. by apply (sorted_elem u urls0).
  - rewrite keyed_snd, concat_sorted.
    rewrite (concat_perm _ ((fun k => under k groups) <$> (fst <$> groups))).
    + by rewrite under_keys.
    + apply fmap_Permutation, merge_sort_Permutation.
  - rewrite keyed_fst. apply Sorted_merge_sort. intros a b. lia.
  - intros st urls [Hk Hu]%keyed_elem.
    destruct (Hsec st urls Hk Hu) as (urls0 & _ & ->). apply sorted_Sorted.
Qed.
